(** * Dollie core: line differ, merger, block parser and generator pipeline

    A shallow embedding of [packages/@dollie/core/src/diff.ts] and of the
    [Generator] class of [packages/@dollie/core/src/generator.ts], with the
    properties of the design document stated over it. *)

From Stdlib Require Import ZArith String Ascii List Bool Lia.
From stdpp Require Import base option list sorting strings gmap.

Local Open Scope string_scope.
Local Open Scope list_scope.
Local Open Scope Z_scope.

(** ** JavaScript strings *)

Module Js.

Definition nl : ascii := "010"%char.
Definition NL : string := String nl "".

(** [s.endsWith('\n')] *)
Fixpoint endsWithNl (s : string) : bool :=
  match s with
  | "" => false
  | String c "" => Ascii.eqb c nl
  | String _ r => endsWithNl r
  end.

(** [s.slice(0, -1)] *)
Fixpoint dropLast (s : string) : string :=
  match s with
  | "" => ""
  | String _ "" => ""
  | String c r => String c (dropLast r)
  end.

(** [s.split('\n')]: never empty, [''.split('\n')] is [['']]. *)
Fixpoint splitNl (s : string) : list string :=
  match s with
  | "" => [""]
  | String c r =>
      if Ascii.eqb c nl then "" :: splitNl r
      else match splitNl r with
           | h :: t => String c h :: t
           | [] => [String c ""]
           end
  end.

(** [parts.join('')] *)
Definition join (parts : list string) : string := foldr String.append "" parts.

(** [a || b] on an optional string: [undefined] and [''] are falsy. *)
Definition orElse (a : option string) (b : string) : string :=
  match a with
  | Some (String c r) => String c r
  | _ => b
  end.

(** Relative index of [Array.prototype.slice]: negative counts from the end. *)
Definition relIndex (len i : Z) : Z :=
  if i <? 0 then Z.max (len + i) 0 else Z.min i len.

(** [arr.slice(start, end)]; [fin = None] is the one-argument call. *)
Definition slice {A} (arr : list A) (start : Z) (fin : option Z) : list A :=
  let len := Z.of_nat (length arr) in
  let k := relIndex len start in
  let final := match fin with Some e => relIndex len e | None => len end in
  take (Z.to_nat (final - k)) (drop (Z.to_nat k) arr).

(** [s.startsWith(prefix)] *)
Fixpoint startsWith (s prefix : string) : bool :=
  match prefix, s with
  | "", _ => true
  | String p prefix', String c s' => Ascii.eqb c p && startsWith s' prefix'
  | String _ _, "" => false
  end.

(** [s.slice(n)] for a length [n] *)
Fixpoint sliceFrom (n : nat) (s : string) : string :=
  match n, s with
  | O, _ => s
  | S n', String _ s' => sliceFrom n' s'
  | S _, "" => ""
  end.

(** An own property key that is an array index: [0 .. 2^32 - 2]. *)
Definition isArrayIndex (k : Z) : bool := (0 <=? k) && (k <? 2 ^ 32 - 1).

(** [s.includes(c)] for a string [c] of one character. *)
Fixpoint includes (s : string) (c : ascii) : bool :=
  match s with
  | "" => false
  | String x r => Ascii.eqb x c || includes r c
  end.

(** [s.split(c)] for a separator [c] of one character: never empty. *)
Fixpoint split (s : string) (c : ascii) : list string :=
  match s with
  | "" => [""]
  | String x r =>
      if Ascii.eqb x c then "" :: split r c
      else match split r c with
           | h :: t => String x h :: t
           | [] => [String x ""]
           end
  end.

(** The longest array has [2^32 - 1] slots: an operation that would make a
    longer one sets a [length] that is no array length, and throws a
    [RangeError], which is [None]. *)
Definition array {A} (l : list A) : option (list A) :=
  if decide (Z.of_nat (length l) <= 2 ^ 32 - 1) then Some l else None.

(** [arr.push(x)], with the array it leaves. *)
Definition push {A} (arr : list A) (x : A) : option (list A) := array (arr ++ [x]).

(** [arr.unshift(x)], with the array it leaves. *)
Definition unshift {A} (x : A) (arr : list A) : option (list A) := array (x :: arr).

(** [a.concat(b)] *)
Definition concat {A} (a b : list A) : option (list A) := array (a ++ b).

End Js.

(** ** Data model ([interfaces]) *)

(** One entry of the array [diffLines] returns.  Its [count] field is removed
    by [_.omit] before any use and is left out. *)
Record Change := mkChange {
  value : string;
  added : bool;
  removed : bool
}.

Inductive ConflictGroup := former | current.

(** [DiffChange]: a one-line change with its baseline line number and, after
    [merge], the conflict marks.  [lineNumber] is an integral JS number. *)
Record DiffChange := mkDiffChange {
  dvalue : string;
  dadded : bool;
  dremoved : bool;
  lineNumber : Z;
  conflicted : bool;
  conflictGroup : option ConflictGroup
}.

Inductive Status := OK | CONFLICT.

Record Values := mkValues {
  vformer : list string;
  vcurrent : list string
}.

Record MergeBlock := mkBlock {
  status : Status;
  values : Values;
  ignored : bool
}.

#[global] Instance Status_eq_dec : EqDecision Status.
Proof. solve_decision. Defined.
#[global] Instance ConflictGroup_eq_dec : EqDecision ConflictGroup.
Proof. solve_decision. Defined.
#[global] Instance Change_eq_dec : EqDecision Change.
Proof. solve_decision. Defined.
#[global] Instance DiffChange_eq_dec : EqDecision DiffChange.
Proof. solve_decision. Defined.
#[global] Instance Values_eq_dec : EqDecision Values.
Proof. solve_decision. Defined.
#[global] Instance MergeBlock_eq_dec : EqDecision MergeBlock.
Proof. solve_decision. Defined.

(** ** LineDiffer: [diff] *)

Section LineDiffer.

(** [diffLines] of the imported [diff] package, taken as a parameter. *)
Variable diffLines : string -> string -> list Change.

(** The callback of the first [reduce]: one [Change] per line of the run,
    each line given a terminating newline. *)
Definition splitLines (currentItem : Change) : list Change :=
  map (fun item => mkChange (item +:+ Js.NL) (added currentItem) (removed currentItem))
      (Js.splitNl (if Js.endsWithNl (value currentItem)
                   then Js.dropLast (value currentItem)
                   else value currentItem)).

Definition splitChanges (changes : list Change) : list Change :=
  fold_left (fun result currentItem => result ++ splitLines currentItem) changes [].

Definition withLineNumber (c : Change) (n : Z) : DiffChange :=
  mkDiffChange (value c) (added c) (removed c) n false None.

(** The [while] loop over [splitChanges], [lineNumber] being the counter. *)
Fixpoint numberLines (lineNumber : Z) (splitChanges : list Change) : list DiffChange :=
  match splitChanges with
  | [] => []
  | currentSplitChange :: rest =>
      if added currentSplitChange
      then withLineNumber currentSplitChange (lineNumber - 1) :: numberLines lineNumber rest
      else withLineNumber currentSplitChange lineNumber :: numberLines (lineNumber + 1) rest
  end.

Definition diff (originalContent : string) (currentContent : option string) : list DiffChange :=
  let changes := diffLines originalContent (Js.orElse currentContent originalContent) in
  numberLines 0 (splitChanges changes).

End LineDiffer.

(** ** Merger: [merge] *)

(** A slot of the working array [originalDiff].  [_.set] with an index past
    the end makes the array longer: the slots in between are holes and the
    new slot holds the object [{removed: true}]. *)
Inductive Slot :=
  | Line (c : DiffChange)
  | Hole
  | Stub.

#[global] Instance Slot_eq_dec : EqDecision Slot.
Proof. solve_decision. Defined.

(** An entry of [patchTable]. *)
Record PatchItem := mkPatch {
  changes : list DiffChange;
  modifyLength : Z
}.

(** [_.uniq]: the first occurrence of every element, in order. *)
Fixpoint uniq `{EqDecision A} (l : list A) : list A :=
  match l with
  | [] => []
  | x :: r => x :: filter (fun y => y <> x) (uniq r)
  end.

(** [patchTable]: a JS object keyed by line number, kept in insertion order
    with one entry per key.  Keys are the decimal strings of integers, so they
    are kept as the integers themselves: [parseInt] gives them back for the
    line numbers below [10^21] in size, and a larger one, which no [diff]
    makes, is written with an exponent. *)
Module Patch.

Definition t := list (Z * PatchItem).

Fixpoint get (patchTable : t) (k : Z) : option PatchItem :=
  match patchTable with
  | [] => None
  | (k', p) :: rest => if decide (k' = k) then Some p else get rest k
  end.

Fixpoint update (patchTable : t) (k : Z) (f : PatchItem -> PatchItem) : t :=
  match patchTable with
  | [] => []
  | (k', p) :: rest =>
      if decide (k' = k) then (k', f p) :: rest else (k', p) :: update rest k f
  end.

(** [if (!patchTable[k]) patchTable[k] = {changes: [], modifyLength: 0}] *)
Definition ensure (patchTable : t) (k : Z) : t :=
  match get patchTable k with
  | Some _ => patchTable
  | None => patchTable ++ [(k, mkPatch [] 0)]
  end.

(** [Object.keys]: array-index keys in ascending order, then the other keys
    in insertion order. *)
Definition keys (patchTable : t) : list Z :=
  merge_sort Z.le (filter (fun k => Is_true (Js.isArrayIndex k)) patchTable.*1)
  ++ filter (fun k => ~ Is_true (Js.isArrayIndex k)) patchTable.*1.

End Patch.

Definition pushChange (change : DiffChange) (p : PatchItem) : PatchItem :=
  mkPatch (changes p ++ [change]) (modifyLength p).

Definition bumpModifyLength (p : PatchItem) : PatchItem :=
  mkPatch (changes p) (modifyLength p + 1).

Definition markRemoved (s : Slot) : Slot :=
  match s with
  | Line c => Line (mkDiffChange (dvalue c) (dadded c) true (lineNumber c)
                                 (conflicted c) (conflictGroup c))
  | Hole | Stub => Stub
  end.

(** [_.set(originalDiff, [n, 'removed'], true)] *)
Definition setRemoved (originalDiff : list Slot) (n : Z) : list Slot :=
  if Js.isArrayIndex n then
    let i := Z.to_nat n in
    if decide (i < length originalDiff)%nat
    then alter markRemoved i originalDiff
    else originalDiff ++ replicate (i - length originalDiff) Hole ++ [Stub]
  else originalDiff.

(** The body of the inner loop over one overlay. *)
Definition applyChange (st : list Slot * Patch.t) (change : DiffChange) : list Slot * Patch.t :=
  let '(originalDiff, patchTable) := st in
  if dadded change then
    (originalDiff,
     Patch.update (Patch.ensure patchTable (lineNumber change)) (lineNumber change)
                  (pushChange change))
  else if dremoved change then
    (setRemoved originalDiff (lineNumber change), patchTable)
  else st.

(** The body of the outer loop over [diffList]. *)
Definition applyDiff (st : list Slot * Patch.t) (currentDiff : list DiffChange) : list Slot * Patch.t :=
  let '(originalDiff, patchTable) := fold_left applyChange currentDiff st in
  let addedChangeLineNumbers :=
    map lineNumber (filter (fun change => Is_true (dadded change)) currentDiff) in
  (originalDiff,
   fold_left (fun pt matchedLineNumber => Patch.update pt matchedLineNumber bumpModifyLength)
             (uniq addedChangeLineNumbers) patchTable).

Definition markConflicted (change : DiffChange) : DiffChange :=
  mkDiffChange (dvalue change) (dadded change) (dremoved change) (lineNumber change)
               true (Some current).

Definition markPatch (currentPatchItem : PatchItem) : PatchItem :=
  if 1 <? modifyLength currentPatchItem
  then mkPatch (map markConflicted (changes currentPatchItem)) (modifyLength currentPatchItem)
  else currentPatchItem.

(** The loop over [Object.keys(patchTable)] that marks the conflicts. *)
Definition markConflicts (patchTable : Patch.t) : Patch.t :=
  map (fun '(k, p) => (k, markPatch p)) patchTable.

(** The loop that cuts [originalDiff] at the patched line numbers. *)
Fixpoint sliceBlocks (originalDiff : list Slot) (lineNumbers : list Z) : list (list Slot) :=
  match lineNumbers with
  | [] => []
  | lineNumber :: rest =>
      Js.slice originalDiff (lineNumber + 1)
               (match rest with
                | nextLineNumber :: _ => Some (nextLineNumber + 1)
                | [] => None
                end)
      :: sliceBlocks originalDiff rest
  end.

(** The final [reduce]: every block followed by the next patch, if any. *)
Fixpoint interleave (blocks : list (list Slot)) (patches : list PatchItem) : list Slot :=
  match blocks with
  | [] => []
  | currentBlock :: blocks' =>
      match patches with
      | [] => currentBlock ++ interleave blocks' []
      | currentPatchItem :: patches' =>
          currentBlock ++ map Line (changes currentPatchItem) ++ interleave blocks' patches'
      end
  end.

(** [merge]; [None] stands for a [null] or [undefined] argument.  The changes
    of [originalChanges] are shared with the result. *)
Definition merge (originalChanges : option (list DiffChange))
                 (diffList : option (list (list DiffChange))) : list Slot :=
  match originalChanges with
  | None => []
  | Some originalChanges =>
      match diffList with
      | None | Some [] => map Line originalChanges
      | Some diffList =>
          let '(originalDiff, patchTable) :=
            fold_left applyDiff diffList (map Line originalChanges, []) in
          let patchTable := markConflicts patchTable in
          let patches := omap (Patch.get patchTable) (Patch.keys patchTable) in
          let lineNumbers := -1 :: Patch.keys patchTable in
          interleave (sliceBlocks originalDiff lineNumbers) patches
      end
  end.

(** ** BlockParser *)

Definition renderBlock (currentBlock : MergeBlock) : string :=
  match status currentBlock with
  | OK => Js.join (vcurrent (values currentBlock))
  | CONFLICT =>
      ("<<<<<<< former" +:+ Js.NL) +:+
      Js.join (vformer (values currentBlock)) +:+
      ("=======" +:+ Js.NL) +:+
      Js.join (vcurrent (values currentBlock)) +:+
      (">>>>>>> current" +:+ Js.NL)
  end.

Definition parseMergeBlocksToText (blocks : list MergeBlock) : string :=
  fold_left (fun result currentBlock => result +:+ renderBlock currentBlock) blocks "".

Definition emptyBlock (s : Status) : MergeBlock := mkBlock s (mkValues [] []) false.

(** [values[group].push(v)] on a block. *)
Definition pushValue (group : ConflictGroup) (v : string) (b : MergeBlock) : MergeBlock :=
  match group with
  | former => mkBlock (status b) (mkValues (vformer (values b) ++ [v]) (vcurrent (values b))) (ignored b)
  | current => mkBlock (status b) (mkValues (vformer (values b)) (vcurrent (values b) ++ [v])) (ignored b)
  end.

(** An update of [_.last(mergeBlocks)] in place. *)
Fixpoint onLast {A} (f : A -> A) (l : list A) : list A :=
  match l with
  | [] => []
  | [x] => [f x]
  | x :: r => x :: onLast f r
  end.

Definition lastIs (s : Status) (mergeBlocks : list MergeBlock) : bool :=
  match last mergeBlocks with
  | Some b => bool_decide (status b = s)
  | None => false
  end.

(** The body of the loop of [parseDiffToMergeBlocks]; [None] is the
    [TypeError] of reading a property of [undefined]. *)
Definition parseLine (mergeBlocks : list MergeBlock) (line : Slot) : option (list MergeBlock) :=
  match line with
  | Hole => None
  | Stub => Some mergeBlocks
  | Line line =>
      if dremoved line then Some mergeBlocks
      else if conflicted line then
        let mergeBlocks :=
          if lastIs CONFLICT mergeBlocks then mergeBlocks
          else mergeBlocks ++ [emptyBlock CONFLICT] in
        match conflictGroup line with
        | Some group => Some (onLast (pushValue group (dvalue line)) mergeBlocks)
        | None => None
        end
      else
        let mergeBlocks :=
          if lastIs OK mergeBlocks then mergeBlocks
          else mergeBlocks ++ [emptyBlock OK] in
        Some (onLast (pushValue current (dvalue line)) mergeBlocks)
  end.

Fixpoint parseFrom (mergeBlocks : list MergeBlock) (changes : list Slot) : option (list MergeBlock) :=
  match changes with
  | [] => Some mergeBlocks
  | line :: rest =>
      match parseLine mergeBlocks line with
      | Some mergeBlocks' => parseFrom mergeBlocks' rest
      | None => None
      end
  end.

Definition parseDiffToMergeBlocks (changes : list Slot) : option (list MergeBlock) :=
  parseFrom [] changes.

Definition parseFileTextToMergeBlocks (diffLines : string -> string -> list Change)
                                      (content : string) : option (list MergeBlock) :=
  parseDiffToMergeBlocks (map Line (diff diffLines content None)).

(** ** A reference line differ *)

(** Modelled from the spec: [diffLines] of the imported [diff] package, which
    is not among the sources -- "a standard line-level diff (Myers or
    equivalent) producing runs of {added|removed|common, text}".  Lines keep
    their terminator, a longest common subsequence of lines is kept, removals
    come before insertions, and two texts with the same lines give one common
    run holding the text.  It is used for closed examples only: every general
    statement below is about an arbitrary [diffLines]. *)
Module LineDiff.

Inductive Op := Keep | Del | Ins.

#[global] Instance Op_eq_dec : EqDecision Op.
Proof. solve_decision. Defined.

Definition Script := list (Op * string).

(** The lines of a text, each with its newline when it has one. *)
Fixpoint tokenize (s : string) : list string :=
  match s with
  | "" => []
  | String c r =>
      if Ascii.eqb c Js.nl then Js.NL :: tokenize r
      else match tokenize r with
           | h :: t => String c h :: t
           | [] => [String c ""]
           end
  end.

Definition cost (s : Script) : nat :=
  length (filter (fun o => o.1 <> Keep) s).

(** Scripts from no old line to every suffix of the new lines. *)
Fixpoint base (new : list string) : list Script :=
  match new with
  | [] => [[]]
  | y :: r => map (pair Ins) (y :: r) :: base r
  end.

(** One row of the table: [prev] holds the scripts of the remaining old
    lines against every suffix of [new]. *)
Fixpoint row (x : string) (prev : list Script) (new : list string) : list Script :=
  match new, prev with
  | [], p :: _ => [(Del, x) :: p]
  | y :: new', p :: prev' =>
      let rest := row x prev' new' in
      let here :=
        if String.eqb x y then (Keep, x) :: hd [] prev'
        else
          let d := (Del, x) :: p in
          let i := (Ins, y) :: hd [] rest in
          if (cost d <=? cost i)%nat then d else i in
      here :: rest
  | _, [] => []
  end.

Fixpoint rows (old new : list string) : list Script :=
  match old with
  | [] => base new
  | x :: old' => row x (rows old' new) new
  end.

(** Adjacent operations of one kind form one run. *)
Fixpoint runs (s : Script) : Script :=
  match s with
  | [] => []
  | (o, v) :: r =>
      match runs r with
      | (o', v') :: t => if decide (o = o') then (o, v +:+ v') :: t else (o, v) :: (o', v') :: t
      | [] => [(o, v)]
      end
  end.

Definition toChange (r : Op * string) : Change :=
  mkChange r.2 (bool_decide (r.1 = Ins)) (bool_decide (r.1 = Del)).

Definition diffLines (oldStr newStr : string) : list Change :=
  match runs (hd [] (rows (tokenize oldStr) (tokenize newStr))) with
  | [] => [mkChange newStr false false]
  | rs => map toChange rs
  end.

End LineDiff.

(** ** Generator ([generator.ts]) *)

(** Two revisions of the [Generator] class are among the sources.  The later
    one, with the binary table, the delete policy and the cleanups, is the one
    embedded here; where the earlier one decides a stated property otherwise,
    its method is in the module [Earlier].  The tables are finite maps: the
    order in which [Object.keys] lists pathnames is not tracked. *)

Definition Buffer := list Byte.byte.

Inductive FileContent :=
  | Text (text : string)
  | Binary (bytes : Buffer).

(** The two kinds of file patterns, ['merge'] and ['delete']. *)
Inductive PatternKind := mergeKind | deleteKind.

Record ConflictBlockMetadata := mkConflict {
  cpathname : string;
  cindex : nat
}.

#[global] Instance ConflictBlockMetadata_eq_dec : EqDecision ConflictBlockMetadata.
Proof. solve_decision. Defined.

(** The argument of [conflictsSolver]; [sindex] is [-1] when [findIndex]
    finds nothing. *)
Record ConflictSolverData := mkSolverData {
  spathname : string;
  stotal : nat;
  sblock : MergeBlock;
  sindex : Z;
  scontent : string
}.

(** What [conflictsSolver] returns: [null], ['ignored'], a block, or a
    value that is none of these and of which [_.isEmpty] holds ([undefined],
    [{}], a number, ...), which the loop tests for. *)
Inductive ConflictSolverResult :=
  | Null
  | Ignored
  | Solved (result : MergeBlock)
  | Blank.

(** The calls a cleanup makes on the tables. *)
Inductive CleanupOp :=
  | AddFile (pathname content : string)
  | AddBinaryFile (pathname : string) (content : Buffer)
  | DeleteFiles (pathnameList : list string).

(** What a cleanup can read: [exists], [getTextFileContent] and
    [getBinaryFileBuffer], all on the tables as they were before the cleanups;
    [None] is the [TypeError] of reading a file that is not there. *)
Record CleanupApi := mkApi {
  apiExists : string -> bool;
  apiGetTextFileContent : string -> option string;
  apiGetBinaryFileBuffer : string -> option Buffer
}.

(** A cleanup: from what it reads to the calls it makes, or [None] when it throws. *)
Definition TemplateCleanUpFunction := CleanupApi -> option (list CleanupOp).

Record Question := mkQuestion {
  qname : string
}.

Record ExtendTemplateConfig := mkExtend {
  equestions : list Question;
  ecleanups : list TemplateCleanUpFunction
}.

(** The template configuration [parseTemplateConfig] returns: the question
    lists are arrays, empty when the file gives none. *)
Record TemplateConfig := mkConfig {
  questions : list Question;
  extendTemplates : gmap string ExtendTemplateConfig;
  cleanups : list TemplateCleanUpFunction
}.

Record GeneratorResult := mkResult {
  files : gmap string FileContent;
  conflicts : list string
}.

Definition EXTEND_TEMPLATE_LABEL_PREFIX : string := "extend:".

(** A left fold that stops at the first [None]. *)
Fixpoint foldOpt {A B} (f : A -> B -> option A) (l : list B) (a : A) : option A :=
  match l with
  | [] => Some a
  | x :: r =>
      match f a x with
      | Some a' => foldOpt f r a'
      | None => None
      end
  end.

(** A key with one of the separators of a [_.get] path. *)
Definition hasPathSeparator (key : string) : bool :=
  existsb (fun c => Ascii.eqb c "." || Ascii.eqb c "[" || Ascii.eqb c "]")%char
          (list_ascii_of_string key).

(** [_.get(templateConfig, `extendTemplates.${key}`)]: the path is split at
    its separators, and no field of an extend template has a field named
    after the rest of a key. *)
Definition getExtendTemplate (templateConfig : TemplateConfig) (key : string)
  : option ExtendTemplateConfig :=
  if hasPathSeparator key then None else extendTemplates templateConfig !! key.

(** The loop over the blocks of one file in [getConflictedFileDataList]. *)
Fixpoint conflictsFrom (pathname : string) (i : nat) (mergeBlocks : list MergeBlock)
  : list ConflictBlockMetadata :=
  match mergeBlocks with
  | [] => []
  | mergeBlock :: rest =>
      (if bool_decide (status mergeBlock = CONFLICT) && negb (ignored mergeBlock)
       then [mkConflict pathname i] else [])
      ++ conflictsFrom pathname (S i) rest
  end.

(** The files are taken in the order of the map, which is not the order in
    which they were written to [mergeTable]; the items of one file are in the
    order of its blocks. *)
Definition getConflictedFileDataList (mergeTable : gmap string (list MergeBlock))
  : list ConflictBlockMetadata :=
  flat_map (fun entry => conflictsFrom entry.1 0 entry.2) (map_to_list mergeTable).

Definition getIgnoredConflictedFilePathnameList (mergeTable : gmap string (list MergeBlock))
  : list string :=
  uniq (flat_map (fun entry =>
                    flat_map (fun mergeBlock =>
                                if bool_decide (status mergeBlock = CONFLICT)
                                then [entry.1] else [])
                             entry.2)
                 (map_to_list mergeTable)).

(** [_.merge(this.binaryTable, files)]: a text overrides a binary of the same
    pathname. *)
Definition getResult (mergeTable : gmap string (list MergeBlock))
                     (binaryTable : gmap string Buffer) : GeneratorResult :=
  mkResult ((Text ∘ parseMergeBlocksToText <$> mergeTable) ∪ (Binary <$> binaryTable))
           (getIgnoredConflictedFilePathnameList mergeTable).

(** [{...block, ignored: true}] *)
Definition setIgnored (b : MergeBlock) : MergeBlock := mkBlock (status b) (values b) true.

(** [{...result, status: 'OK'}] *)
Definition setOK (b : MergeBlock) : MergeBlock := mkBlock OK (values b) (ignored b).

(** [findIndex] of the conflict with block index [i], counting from [n]. *)
Fixpoint findIndexFrom (i : nat) (l : list ConflictBlockMetadata) (n : Z) : Z :=
  match l with
  | [] => -1
  | conflict :: rest =>
      if bool_decide (i = cindex conflict) then n else findIndexFrom i rest (n + 1)
  end.

Module Earlier.

(** [getIgnoredConflictedFilePathnameList] of the earlier revision. *)
Definition getIgnoredConflictedFilePathnameList (mergeTable : gmap string (list MergeBlock))
  : list string :=
  flat_map (fun entry =>
              flat_map (fun mergeBlock =>
                          if bool_decide (status mergeBlock = CONFLICT) && ignored mergeBlock
                          then [entry.1] else [])
                       entry.2)
           (map_to_list mergeTable).

End Earlier.

Section Generator.

(** Not among the sources: [diffLines] of the [diff] package, and the [match]
    method of the [GlobMatcher] that [queryAllTemplateProps] builds from the
    file patterns of the template. *)
Variable diffLines : string -> string -> list Change.
Variable matcher : string -> PatternKind -> bool.

(** The callbacks of the configuration act on the world outside. *)
Variable World : Type.
Variable conflictsSolver : option (ConflictSolverData -> World -> ConflictSolverResult * World).

Variable templateConfig : TemplateConfig.
Variable targetedExtendTemplateIds : list string.

Definition deleteFiles (cacheTable : gmap string (list (list DiffChange)))
  : gmap string (list (list DiffChange)) :=
  filter (fun entry => matcher entry.1 deleteKind = false) cacheTable.

(** The blocks [mergeTemplateFiles] stores for one pathname that has changes. *)
Definition mergeEntry (entityPathname : string) (diffs : list (list DiffChange))
  : option (list MergeBlock) :=
  if matcher entityPathname mergeKind then
    match diffs with
    | [] => None
    | [only] => parseDiffToMergeBlocks (map Line only)
    | originalDiffChanges :: forwardDiffChangesGroup =>
        parseDiffToMergeBlocks (merge (Some originalDiffChanges) (Some forwardDiffChangesGroup))
    end
  else
    match last diffs with
    | Some lastDiff => parseDiffToMergeBlocks (map Line lastDiff)
    | None => None
    end.

(** [None] when reading some change list throws. *)
Definition mergeTemplateFiles (cacheTable : gmap string (list (list DiffChange)))
                              (mergeTable : gmap string (list MergeBlock))
  : option (gmap string (list MergeBlock)) :=
  foldOpt (fun mt entry =>
             match entry.2 with
             | [] => Some mt
             | _ => (fun blocks => <[entry.1 := blocks]> mt) <$> mergeEntry entry.1 entry.2
             end)
          (map_to_list cacheTable) mergeTable.

(** The state of the loop of [resolveConflicts]. *)
Record ResolverState := mkResolver {
  remainedConflictedFileDataList : list ConflictBlockMetadata;
  rmergeTable : gmap string (list MergeBlock);
  rworld : World
}.

(** The argument [resolveConflicts] builds for the solver. *)
Definition solverDataOf (totalConflicts : list ConflictBlockMetadata)
                        (item : ConflictBlockMetadata)
                        (blocks : list MergeBlock) (block : MergeBlock) : ConflictSolverData :=
  let currentPathnameConflicts :=
    filter (fun c => cpathname c = cpathname item) totalConflicts in
  mkSolverData (cpathname item) (length currentPathnameConflicts) block
               (findIndexFrom (cindex item) currentPathnameConflicts 0)
               (parseMergeBlocksToText blocks).

(** One turn of the loop of [resolveConflicts] on the item at the head of the
    list; [None] when the item names no block of the table. *)
Definition resolveStep (solver : ConflictSolverData -> World -> ConflictSolverResult * World)
                       (totalConflicts : list ConflictBlockMetadata)
                       (item : ConflictBlockMetadata)
                       (rest : list ConflictBlockMetadata)
                       (mergeTable : gmap string (list MergeBlock))
                       (w : World) : option ResolverState :=
  match mergeTable !! cpathname item with
  | None => None
  | Some blocks =>
      match blocks !! cindex item with
      | None => None
      | Some block =>
          match solver (solverDataOf totalConflicts item blocks block) w with
          | (Null, w') => Some (mkResolver (item :: rest) mergeTable w')
          | (Ignored, w') =>
              Some (mkResolver rest
                      (<[cpathname item := <[cindex item := setIgnored block]> blocks]> mergeTable)
                      w')
          | (Solved result, w') =>
              Some (mkResolver rest
                      (<[cpathname item := <[cindex item := setOK result]> blocks]> mergeTable)
                      w')
          | (Blank, w') => Some (mkResolver rest mergeTable w')
          end
      end
  end.

(** The loop of [resolveConflicts]; it may go on for ever, [None] is also the
    end of the fuel. *)
Fixpoint resolveLoop (fuel : nat)
                     (solver : ConflictSolverData -> World -> ConflictSolverResult * World)
                     (totalConflicts : list ConflictBlockMetadata)
                     (st : ResolverState) : option ResolverState :=
  match remainedConflictedFileDataList st with
  | [] => Some st
  | item :: rest =>
      match fuel with
      | O => None
      | S fuel' =>
          match resolveStep solver totalConflicts item rest (rmergeTable st) (rworld st) with
          | Some st' => resolveLoop fuel' solver totalConflicts st'
          | None => None
          end
      end
  end.

Definition resolveConflicts (fuel : nat) (mergeTable : gmap string (list MergeBlock)) (w : World)
  : option (gmap string (list MergeBlock) * World) :=
  match conflictsSolver with
  | None => Some (mergeTable, w)
  | Some solver =>
      let remained := getConflictedFileDataList mergeTable in
      (fun st => (rmergeTable st, rworld st))
        <$> resolveLoop fuel solver remained (mkResolver remained mergeTable w)
  end.

(** The cleanups of the main template, then those of the extend templates in use. *)
Definition cleanupsOf : list TemplateCleanUpFunction :=
  cleanups templateConfig
  ++ flat_map (fun templateId =>
                 match getExtendTemplate templateConfig templateId with
                 | Some extend => ecleanups extend
                 | None => []
                 end)
              targetedExtendTemplateIds.

(** The cloned tables of [runCleanups]: [None] is a [null] entry. *)
Record ClonedTables := mkCloned {
  clonedMergeTable : gmap string (option (list MergeBlock));
  clonedBinaryTable : gmap string (option Buffer)
}.

Definition applyOp (clonedTables : ClonedTables) (op : CleanupOp) : option ClonedTables :=
  match op with
  | AddFile pathname content =>
      match clonedMergeTable clonedTables !! pathname with
      | Some (Some _) => Some clonedTables
      | _ =>
          (fun blocks =>
             mkCloned (<[pathname := Some blocks]> (clonedMergeTable clonedTables))
                      (clonedBinaryTable clonedTables))
            <$> parseFileTextToMergeBlocks diffLines content
      end
  | AddBinaryFile pathname content =>
      match clonedBinaryTable clonedTables !! pathname with
      | Some (Some _) => Some clonedTables
      | _ =>
          Some (mkCloned (clonedMergeTable clonedTables)
                         (<[pathname := Some content]> (clonedBinaryTable clonedTables)))
      end
  | DeleteFiles pathnameList =>
      Some (fold_left (fun tables pathname =>
                         mkCloned (<[pathname := None]> (clonedMergeTable tables))
                                  (<[pathname := None]> (clonedBinaryTable tables)))
                      pathnameList clonedTables)
  end.

Definition runCleanups (mergeTable : gmap string (list MergeBlock))
                       (binaryTable : gmap string Buffer)
  : option (gmap string (list MergeBlock) * gmap string Buffer) :=
  let api := mkApi (fun pathname => bool_decide (is_Some (mergeTable !! pathname)))
                   (fun pathname => parseMergeBlocksToText <$> mergeTable !! pathname)
                   (fun pathname => binaryTable !! pathname) in
  (fun tables => (omap id (clonedMergeTable tables), omap id (clonedBinaryTable tables)))
    <$> foldOpt (fun tables cleanup =>
                   match cleanup api with
                   | Some ops => foldOpt applyOp ops tables
                   | None => None
                   end)
                cleanupsOf
                (mkCloned (Some <$> mergeTable) (Some <$> binaryTable)).

End Generator.

(** *** The queries for the template properties *)

Section TemplateProps.

(** Not among the sources: [answersParser] of [./props], with the answers and
    the properties it works on. *)
Variables (Answers Props : Type).
Variable emptyProps : Props.
Variable answersParser : Answers -> Props * list string.

Variable World : Type.

(** [config.getTemplateProps], when it is a function. *)
Variable getTemplatePropsCallback : option (list Question -> World -> Answers * World).

Variable templateConfig : TemplateConfig.

Record TemplatePropsItem := mkPropsItem {
  props : Props;
  label : string
}.

(** The fields of the class the queries work on, the world outside, and the
    arguments the callback was called with so far ([asked], which is not a
    field of the class). *)
Record QueryState := mkQuery {
  pendingTemplateLabels : list string;
  templatePropsList : list TemplatePropsItem;
  targetedIds : list string;
  qworld : World;
  asked : list (list Question)
}.

(** [extendTemplateLabel && _.isString(extendTemplateLabel)]: the label when
    it is a string that is not empty. *)
Definition truthyLabel (extendTemplateLabel : option string) : option string :=
  match extendTemplateLabel with
  | Some (String c r) => Some (String c r)
  | _ => None
  end.

Definition getTemplateProps (extendTemplateLabel : option string) (st : QueryState) : QueryState :=
  let labelQuestions :=
    match truthyLabel extendTemplateLabel with
    | Some l => equestions <$> getExtendTemplate templateConfig l
    | None => Some (questions templateConfig)
    end in
  match getTemplatePropsCallback with
  | None => st
  | Some callback =>
      let itemLabel := default "main" (truthyLabel extendTemplateLabel) in
      match labelQuestions with
      | Some (_ :: _) =>
          let '(answers, w) := callback (questions templateConfig) (qworld st) in
          let '(currentProps, pendingExtendTemplateLabels) := answersParser answers in
          mkQuery (pendingTemplateLabels st
                   ++ map (fun l => EXTEND_TEMPLATE_LABEL_PREFIX +:+ l) pendingExtendTemplateLabels)
                  (templatePropsList st ++ [mkPropsItem currentProps itemLabel])
                  (targetedIds st) w
                  (asked st ++ [questions templateConfig])
      | _ =>
          mkQuery (pendingTemplateLabels st)
                  (templatePropsList st ++ [mkPropsItem emptyProps itemLabel])
                  (targetedIds st) (qworld st) (asked st)
      end
  end.

Definition shiftLabel (st : QueryState) (rest : list string) : QueryState :=
  mkQuery rest (templatePropsList st) (targetedIds st) (qworld st) (asked st).

Definition pushTargeted (templateId : string) (st : QueryState) : QueryState :=
  mkQuery (pendingTemplateLabels st) (templatePropsList st) (targetedIds st ++ [templateId])
          (qworld st) (asked st).

(** The loop of [queryAllTemplateProps]; [None] is the end of the fuel. *)
Fixpoint queryAllTemplateProps (fuel : nat) (st : QueryState) : option QueryState :=
  match pendingTemplateLabels st with
  | [] => Some st
  | currentPendingExtendTemplateLabel :: rest =>
      match fuel with
      | O => None
      | S fuel' =>
          let st := shiftLabel st rest in
          if String.eqb currentPendingExtendTemplateLabel "main" then
            queryAllTemplateProps fuel' (getTemplateProps None st)
          else if Js.startsWith currentPendingExtendTemplateLabel EXTEND_TEMPLATE_LABEL_PREFIX then
            queryAllTemplateProps fuel'
              (pushTargeted (Js.sliceFrom (String.length EXTEND_TEMPLATE_LABEL_PREFIX)
                                          currentPendingExtendTemplateLabel)
                            (getTemplateProps (Some currentPendingExtendTemplateLabel) st))
          else queryAllTemplateProps fuel' st
      end
  end.

(** [getTemplateProps] of the earlier revision: the two branches of the
    condition are the other way round, and nothing is recorded when no
    question is asked. *)
Definition earlierGetTemplateProps (extendTemplateLabel : option string) (st : QueryState)
  : QueryState :=
  let labelQuestions :=
    match truthyLabel extendTemplateLabel with
    | Some _ => Some (questions templateConfig)
    | None => equestions <$> getExtendTemplate templateConfig "null"
    end in
  match getTemplatePropsCallback, labelQuestions with
  | Some callback, Some (_ :: _) =>
      let '(answers, w) := callback (questions templateConfig) (qworld st) in
      let '(currentProps, pendingExtendTemplateLabels) := answersParser answers in
      mkQuery (pendingTemplateLabels st
               ++ map (fun l => EXTEND_TEMPLATE_LABEL_PREFIX +:+ l) pendingExtendTemplateLabels)
              (templatePropsList st
               ++ [mkPropsItem currentProps (default "main" (truthyLabel extendTemplateLabel))])
              (targetedIds st) w
              (asked st ++ [questions templateConfig])
  | _, _ => st
  end.

End TemplateProps.

(** *** Inputs, origins and pathnames *)

Inductive DollieError :=
  | InvalidInputError (message : string)
  | ContextError (message : string).

(** How a method that returns nothing ends: it returns, or it throws. *)
Inductive Completion :=
  | Returns
  | Throws (e : DollieError).

(** An origin of templates.  Its [handler] is read by [loadTemplate] only. *)
Record Origin := mkOrigin {
  oname : string
}.

(** The fields [templateOrigin] and [templateName] after [initialize].  The
    argument is [None] when [templateOriginName] is not a string: the fields
    keep the empty strings of the constructor.  A name of [None] is
    [undefined]. *)
Definition initialize (templateOriginName : option string) : string * option string :=
  match templateOriginName with
  | None => ("", Some "")
  | Some name =>
      if Js.includes name ":" then
        let parts := Js.split name ":" in
        (default "github" (parts !! 0%nat), parts !! 1%nat)
      else ("github", Some name)
  end.

Definition checkContext (origins : list Origin) : Completion :=
  let originIds := map oname origins in
  let uniqueOriginIds := uniq originIds in
  if (length uniqueOriginIds <? length originIds)%nat
  then Throws (ContextError "duplicated origin names")
  else Returns.

Definition TEMPLATE_CACHE_PATHNAME_PREFIX : string := "/template".
Definition EXTEND_TEMPLATE_PATHNAME_PREFIX : string := "/extends".
Definition MAIN_TEMPLATE_PATHNAME_PREFIX : string := "/main".
Definition TEMPLATE_FILE_PREFIX : string := "__template.".

(** [pathname ? `/${pathname}` : ''] *)
Definition subPathname (pathname : string) : string :=
  match pathname with
  | "" => ""
  | _ => "/" +:+ pathname
  end.

Definition mainTemplatePathname (pathname : string) : string :=
  TEMPLATE_CACHE_PATHNAME_PREFIX +:+ MAIN_TEMPLATE_PATHNAME_PREFIX +:+ subPathname pathname.

(** [None] is the [null] returned for an empty template id. *)
Definition extendTemplatePathname (templateId pathname : string) : option string :=
  let BASE_PATH := TEMPLATE_CACHE_PATHNAME_PREFIX +:+ EXTEND_TEMPLATE_PATHNAME_PREFIX in
  match templateId with
  | "" => None
  | _ => Some (BASE_PATH +:+ "/" +:+ templateId +:+ subPathname pathname)
  end.

(** *** Rendering the templates into the cache table *)

(** An entity of a template tree, as [readTemplateEntities] lists them. *)
Record TemplateEntity := mkEntity {
  absolutePathname : string;
  entityName : string;
  isBinary : bool;
  isDirectory : bool;
  relativeDirectoryPathname : string
}.

Section CopyTemplate.

(** Not among the sources: [diffLines]; [readTemplateEntities] of [./loader]
    and [readFileSync] of the volume, which this method only reads;
    [toString] of a buffer; [ejs.render], which may throw ([None]); and
    lodash's [_.merge], which writes the properties of a template into the
    object handed to [ejs.render].  That object is the item of the main
    template itself (or a new object when there is none) and it is written to
    again at every template file.  The properties are taken to have no key
    [label] or [props], so that the items of [templatePropsList] keep their
    labels and their properties while it is written to. *)
Variable diffLines : string -> string -> list Change.
Variables (Props Data : Type).
Variable dataOf : option (TemplatePropsItem Props) -> Data.
Variable lodashMerge : Data -> Props -> Data.
Variable ejsRender : string -> Data -> option string.
Variable readTemplateEntities : string -> list TemplateEntity.
Variable readFileSync : string -> Buffer.
Variable bufferToString : Buffer -> string.

(** The two tables and the object [mainTemplateProps]. *)
Record CopyState := mkCopy {
  copiedCacheTable : gmap string (list (list DiffChange));
  copiedBinaryTable : gmap string Buffer;
  mainTemplateProps : Data
}.

(** The body of the loop over the entities of one template. *)
Definition copyEntity (props : Props) (st : CopyState) (entity : TemplateEntity)
  : option CopyState :=
  if isDirectory entity then Some st
  else if isBinary entity then
    Some (mkCopy (copiedCacheTable st)
                 (<[relativeDirectoryPathname entity +:+ "/" +:+ entityName entity
                    := readFileSync (absolutePathname entity)]> (copiedBinaryTable st))
                 (mainTemplateProps st))
  else
    let fileRawContent := bufferToString (readFileSync (absolutePathname entity)) in
    let isTemplateFile := Js.startsWith (entityName entity) TEMPLATE_FILE_PREFIX in
    let data :=
      if isTemplateFile then lodashMerge (mainTemplateProps st) props
      else mainTemplateProps st in
    match (if isTemplateFile then ejsRender fileRawContent data else Some fileRawContent) with
    | None => None
    | Some currentFileContent =>
        let currentFileName :=
          if isTemplateFile
          then Js.sliceFrom (String.length TEMPLATE_FILE_PREFIX) (entityName entity)
          else entityName entity in
        let currentFileRelativePathname :=
          match relativeDirectoryPathname entity with
          | "" => ""
          | relativePathname => relativePathname +:+ "/"
          end +:+ currentFileName in
        let cacheTable := copiedCacheTable st in
        let '(written, currentFileDiffChanges) :=
          match cacheTable !! currentFileRelativePathname with
          | Some (originalFileDiffChanges :: others) =>
              let originalFileContent := Js.join (map dvalue originalFileDiffChanges) in
              (originalFileDiffChanges :: others,
               diff diffLines originalFileContent (Some currentFileContent))
          | _ => ([], diff diffLines currentFileContent None)
          end in
        Some (mkCopy (<[currentFileRelativePathname := written ++ [currentFileDiffChanges]]>
                        cacheTable)
                     (copiedBinaryTable st) data)
    end.

(** The body of the loop over the template ids. *)
Definition copyTemplate (templatePropsList : list (TemplatePropsItem Props))
                        (st : CopyState) (templateId : string) : option CopyState :=
  match List.find (fun item => String.eqb (label Props item) templateId) templatePropsList with
  | None => Some st
  | Some templatePropsItem =>
      let templateStartPathname :=
        if String.eqb (label Props templatePropsItem) "main"
        then Some (mainTemplatePathname "")
        else if Js.startsWith (label Props templatePropsItem) EXTEND_TEMPLATE_LABEL_PREFIX
        then extendTemplatePathname
               (Js.sliceFrom (String.length EXTEND_TEMPLATE_LABEL_PREFIX)
                             (label Props templatePropsItem)) ""
        else None in
      match templateStartPathname with
      | None => Some st
      | Some start =>
          foldOpt (copyEntity (props Props templatePropsItem)) (readTemplateEntities start) st
      end
  end.

(** [None] when [ejs.render] throws. *)
Definition copyTemplateFileToCacheTable
    (templatePropsList : list (TemplatePropsItem Props))
    (targetedExtendTemplateIds : list string)
    (cacheTable : gmap string (list (list DiffChange)))
    (binaryTable : gmap string Buffer)
  : option (gmap string (list (list DiffChange)) * gmap string Buffer) :=
  let mainTemplateProps :=
    dataOf (List.find (fun item => String.eqb (label Props item) "main") templatePropsList) in
  let templateIds :=
    "main" :: map (fun id => "extend:" +:+ id) targetedExtendTemplateIds in
  (fun st => (copiedCacheTable st, copiedBinaryTable st))
    <$> foldOpt (copyTemplate templatePropsList) templateIds
                (mkCopy cacheTable binaryTable mainTemplateProps).

End CopyTemplate.

(** ** Merger: the length of the arrays *)

(** [merge] makes its arrays longer with [push], [unshift] and [concat], and
    each of them throws a [RangeError] when the array would get more than
    [2^32 - 1] slots.  [Bounded.merge] is [merge] with these errors, [None]
    being the [RangeError]; when it returns, it returns the list of [merge]. *)
Module Bounded.

(** The body of the inner loop: [changes.push(change)] can throw. *)
Definition applyChange (st : list Slot * Patch.t) (change : DiffChange)
  : option (list Slot * Patch.t) :=
  let '(originalDiff, patchTable) := st in
  if dadded change then
    let patchTable := Patch.ensure patchTable (lineNumber change) in
    currentPatchItem ← Patch.get patchTable (lineNumber change);
    _ ← Js.push (changes currentPatchItem) change;
    Some (originalDiff, Patch.update patchTable (lineNumber change) (pushChange change))
  else if dremoved change then
    Some (setRemoved originalDiff (lineNumber change), patchTable)
  else Some (originalDiff, patchTable).

(** The body of the outer loop; [filter], [map] and [_.uniq] make arrays no
    longer than [currentDiff]. *)
Definition applyDiff (st : list Slot * Patch.t) (currentDiff : list DiffChange)
  : option (list Slot * Patch.t) :=
  '(originalDiff, patchTable) ← foldOpt applyChange currentDiff st;
  let addedChangeLineNumbers :=
    map lineNumber (filter (fun change => Is_true (dadded change)) currentDiff) in
  Some (originalDiff,
        fold_left (fun pt matchedLineNumber => Patch.update pt matchedLineNumber bumpModifyLength)
                  (uniq addedChangeLineNumbers) patchTable).

(** The final [reduce], [currentResult] being the accumulator: both calls of
    [concat] can throw. *)
Fixpoint reduceBlocks (blocks : list (list Slot)) (patches : list PatchItem)
                      (currentResult : list Slot) : option (list Slot) :=
  match blocks with
  | [] => Some currentResult
  | currentBlock :: blocks' =>
      result ← Js.concat currentResult currentBlock;
      match patches with
      | [] => reduceBlocks blocks' [] result
      | currentPatchItem :: patches' =>
          result' ← Js.concat result (map Line (changes currentPatchItem));
          reduceBlocks blocks' patches' result'
      end
  end.

(** [merge]: [lineNumbers.unshift(-1)] can throw; [blocks] gets one entry for
    each of the [lineNumbers]. *)
Definition merge (originalChanges : option (list DiffChange))
                 (diffList : option (list (list DiffChange))) : option (list Slot) :=
  match originalChanges with
  | None => Some []
  | Some originalChanges =>
      match diffList with
      | None | Some [] => Some (map Line originalChanges)
      | Some diffList =>
          '(originalDiff, patchTable) ←
            foldOpt applyDiff diffList (map Line originalChanges, []);
          let patchTable := markConflicts patchTable in
          let patches := omap (Patch.get patchTable) (Patch.keys patchTable) in
          lineNumbers ← Js.unshift (-1) (Patch.keys patchTable);
          reduceBlocks (sliceBlocks originalDiff lineNumbers) patches []
      end
  end.

End Bounded.

(** ** Vocabulary of the statements *)

Definition nonAdded (c : DiffChange) : Prop := dadded c = false.

#[global] Instance nonAdded_dec c : Decision (nonAdded c).
Proof. unfold nonAdded. apply _. Defined.

(** The counter when the line at position [k] is reached. *)
Definition counterAt (cl : list DiffChange) (k : nat) : Z :=
  Z.of_nat (length (filter nonAdded (take k cl))).

Definition okBlock (vs : list string) : MergeBlock := mkBlock OK (mkValues [] vs) false.

Definition conflictBlock (vs : list string) : MergeBlock :=
  mkBlock CONFLICT (mkValues [] vs) false.

(** The blocks of a run of lines without conflict: none, or one [OK] block. *)
Definition okBlocks (vs : list string) : list MergeBlock :=
  match vs with
  | [] => []
  | _ => [okBlock vs]
  end.

Definition addCurrent (vs : list string) (b : MergeBlock) : MergeBlock :=
  mkBlock (status b) (mkValues (vformer (values b)) (vcurrent (values b) ++ vs)) (ignored b).

(** What a run of lines of one kind does to the blocks read so far. *)
Definition appendRun (s : Status) (bs : list MergeBlock) (vs : list string) : list MergeBlock :=
  match vs with
  | [] => bs
  | _ => if lastIs s bs then onLast (addCurrent vs) bs
         else bs ++ [mkBlock s (mkValues [] vs) false]
  end.

(** The line a slot contributes to the text, if any. *)
Definition visible (s : Slot) : option DiffChange :=
  match s with
  | Line c => if dremoved c then None else Some c
  | Hole | Stub => None
  end.

Definition linesOf (l : list Slot) : list string := map dvalue (omap visible l).

(** A slot that is read without error and opens no conflict. *)
Definition calm (s : Slot) : Prop :=
  match s with
  | Line c => dremoved c = true \/ conflicted c = false
  | Hole => False
  | Stub => True
  end.

(** The added changes of the overlays that are anchored at line [k], in the
    order the overlays give them. *)
Definition changesAt (k : Z) (diffList : list (list DiffChange)) : list DiffChange :=
  filter (fun c => dadded c = true /\ lineNumber c = k) (concat diffList).

(** An overlay inserts at line [k]. *)
Definition insertsAt (k : Z) (currentDiff : list DiffChange) : Prop :=
  Exists (fun c => dadded c = true /\ lineNumber c = k) currentDiff.

(** The number of overlays that insert at line [k]. *)
Definition countAt (k : Z) (diffList : list (list DiffChange)) : Z :=
  Z.of_nat (length (filter (insertsAt k) diffList)).

(** The line numbers an overlay marks as removed, in order. *)
Definition removalsOf (currentDiff : list DiffChange) : list Z :=
  map lineNumber (filter (fun c => dadded c = false /\ dremoved c = true) currentDiff).

(** One step of the inner loop on the patch table alone. *)
Definition pushAdded (patchTable : Patch.t) (change : DiffChange) : Patch.t :=
  Patch.update (Patch.ensure patchTable (lineNumber change)) (lineNumber change)
               (pushChange change).

(** The keys of a table with their entries. *)
Definition entriesOf (patchTable : Patch.t) (ks : list Z) : list (Z * PatchItem) :=
  omap (fun k => pair k <$> Patch.get patchTable k) ks.

(** The merged list: the baseline cut after each patched line, each cut
    followed by the patch of that line; [n] is the line before the first cut. *)
Fixpoint assemble (originalDiff : list Slot) (n : Z) (entries : list (Z * PatchItem)) : list Slot :=
  match entries with
  | [] => Js.slice originalDiff (n + 1) None
  | (k, p) :: rest =>
      Js.slice originalDiff (n + 1) (Some (k + 1)) ++ map Line (changes p)
      ++ assemble originalDiff k rest
  end.


(** A slot that holds an inserted line. *)
Definition inserted (s : Slot) : Prop :=
  match s with
  | Line c => dadded c = true
  | Hole | Stub => False
  end.

#[global] Instance inserted_dec s : Decision (inserted s).
Proof. destruct s; simpl; apply _. Defined.

(** A slot that holds the baseline change [c], marked removed or not. *)
Definition sameLine (s : Slot) (c : DiffChange) : Prop :=
  s = Line c \/ s = markRemoved (Line c).

(** An entry of the patch table after more changes were pushed on it. *)
Definition extend (o : option PatchItem) (new : list DiffChange) : option PatchItem :=
  match new with
  | [] => o
  | _ => Some (mkPatch (changes (default (mkPatch [] 0) o) ++ new)
                       (modifyLength (default (mkPatch [] 0) o)))
  end.

(** The entry of line [k] once all the overlays are read. *)
Definition entryAt (k : Z) (diffList : list (list DiffChange)) : option PatchItem :=
  match changesAt k diffList with
  | [] => None
  | cs => Some (mkPatch cs (countAt k diffList))
  end.

(** The patch table and the working array when the loop over the overlays ends. *)
Definition patched (originalDiff : list Slot) (diffList : list (list DiffChange)) : list Slot * Patch.t :=
  fold_left applyDiff diffList (originalDiff, []).

(** The merged list of a working array and a patch table. *)
Definition merged (originalDiff : list Slot) (patchTable : Patch.t) : list Slot :=
  assemble originalDiff (-1) (entriesOf patchTable (Patch.keys patchTable)).

(** An overlay change that leaves the working array and the patch table as
    they are. *)
Definition inert (c : DiffChange) : Prop :=
  dadded c = false /\ (dremoved c = false \/ Js.isArrayIndex (lineNumber c) = false).


(** A change of an overlay computed against the baseline [b]: it carries no
    conflict mark, it is not both added and removed, and the line it removes
    is a line of the baseline. *)
Definition overlayChange (b : list DiffChange) (c : DiffChange) : Prop :=
  conflicted c = false
  /\ (dadded c = true -> dremoved c = false)
  /\ (dadded c = false -> dremoved c = true -> 0 <= lineNumber c < Z.of_nat (length b)).

#[global] Instance overlayChange_dec b c : Decision (overlayChange b c).
Proof. unfold overlayChange. apply _. Defined.

(** The added changes of one overlay that are anchored at line [a]. *)
Definition insertedAt (a : Z) (currentDiff : list DiffChange) : list DiffChange :=
  filter (fun c => dadded c = true /\ lineNumber c = a) currentDiff.

(** A cleanup call that adds the file [p]. *)
Definition addsFile (p : string) (op : CleanupOp) : Prop :=
  match op with
  | AddFile pathname _ => pathname = p
  | AddBinaryFile pathname _ => pathname = p
  | DeleteFiles _ => False
  end.

(** The conflict fence of two groups of lines. *)
Definition fence (formerLines currentLines : list string) : string :=
  ("<<<<<<< former" +:+ Js.NL) +:+ Js.join formerLines +:+ ("=======" +:+ Js.NL)
  +:+ Js.join currentLines +:+ (">>>>>>> current" +:+ Js.NL).

(** The file [p] has no entry, or a [null] one, in the cloned tables. *)
Definition noEntry (tables : ClonedTables) (p : string) : Prop :=
  clonedMergeTable tables !! p ≫= id = None /\ clonedBinaryTable tables !! p ≫= id = None.

(** *** The changes of the line differ *)

(** One line: a text without newline, followed by a newline. *)
Definition oneLine (v : string) : Prop :=
  exists item, v = item +:+ Js.NL /\ Js.includes item Js.nl = false.

(** A text with its final newline, added when it has none. *)
Definition terminated (v : string) : string :=
  if Js.endsWithNl v then v else v +:+ Js.NL.

(** A change without conflict mark. *)
Definition unmarked (c : DiffChange) : Prop := conflicted c = false /\ conflictGroup c = None.

#[global] Instance unmarked_dec c : Decision (unmarked c).
Proof. unfold unmarked. apply _. Defined.

(** A line of a baseline as [diff] makes them. *)
Definition plain (c : DiffChange) : Prop :=
  dadded c = false /\ dremoved c = false /\ conflicted c = false.

#[global] Instance plain_dec c : Decision (plain c).
Proof. unfold plain. apply _. Defined.

(** A list of runs that does not begin with an added one. *)
Definition keptFirst (l : list Change) : Prop :=
  match l with
  | x :: _ => added x = false
  | [] => True
  end.

(** The text a run of the overlay shows where the baseline has its line. *)
Definition keptText (x : Change) : option string :=
  if removed x then None else Some (value x).

(** *** The blocks of the parser *)

(** A slot on which [parseDiffToMergeBlocks] throws: a hole of the array, or
    a conflicted line that is kept and names no group. *)
Definition unreadable (s : Slot) : Prop :=
  match s with
  | Line c => dremoved c = false /\ conflicted c = true /\ conflictGroup c = None
  | Hole => True
  | Stub => False
  end.

#[global] Instance unreadable_dec s : Decision (unreadable s).
Proof. destruct s; simpl; apply _. Defined.

(** Blocks of which no two neighbours have the same status. *)
Definition alternating (blocks : list MergeBlock) : Prop :=
  forall i b1 b2, blocks !! i = Some b1 -> blocks !! S i = Some b2 -> status b1 <> status b2.

(** A block as [parseDiffToMergeBlocks] builds them: it holds a line, it is
    not ignored, and its [former] group is used in a conflict only. *)
Definition parsedBlock (b : MergeBlock) : Prop :=
  (vformer (values b) <> [] \/ vcurrent (values b) <> [])
  /\ ignored b = false
  /\ (status b = OK -> vformer (values b) = []).

(** The text a slot shows. *)
Definition shown (s : Slot) : option string := dvalue <$> visible s.

(** *** The overlays of the merger *)

(** The line numbers the overlays mark as removed. *)
Definition removedBy (diffList : list (list DiffChange)) : list Z :=
  concat (map removalsOf diffList).

(** An overlay change that adds nothing and removes a line of the baseline
    [b], if it removes one. *)
Definition removalOf (b : list DiffChange) (c : DiffChange) : Prop :=
  dadded c = false /\ (dremoved c = true -> 0 <= lineNumber c < Z.of_nat (length b)).

#[global] Instance removalOf_dec b c : Decision (removalOf b c).
Proof. unfold removalOf. apply _. Defined.

(** An overlay change that touches the baseline [b] within its lines: when
    it is added or removed, its number is that of a line of [b]. *)
Definition anchored (b : list DiffChange) (c : DiffChange) : Prop :=
  dadded c = true \/ dremoved c = true -> 0 <= lineNumber c < Z.of_nat (length b).

#[global] Instance anchored_dec b c : Decision (anchored b c).
Proof. unfold anchored. apply _. Defined.

(** The entry of the patch table at line [k] when the conflicts are marked:
    what all the overlays insert there, marked when more than one does. *)
Definition insertionsAt (diffList : list (list DiffChange)) (k : Z) : list DiffChange :=
  if 1 <? countAt k diffList
  then map markConflicted (changesAt k diffList)
  else changesAt k diffList.

(** The working array with the insertions of each line put after that line;
    [i] is the number of the first line of [od]. *)
Fixpoint weaveFrom (i : nat) (od : list Slot) (ins : Z -> list DiffChange) : list Slot :=
  match od with
  | [] => []
  | s :: r => s :: map Line (ins (Z.of_nat i)) ++ weaveFrom (S i) r ins
  end.

(** *** The tables of the generator *)

(** A conflict block that is neither solved nor ignored. *)
Definition openConflict (b : MergeBlock) : Prop := status b = CONFLICT /\ ignored b = false.

#[global] Instance openConflict_dec b : Decision (openConflict b).
Proof. unfold openConflict. apply _. Defined.

(** The block a work item names. *)
Definition blockAt (mergeTable : gmap string (list MergeBlock)) (item : ConflictBlockMetadata)
  : option MergeBlock :=
  mergeTable !! cpathname item ≫= fun blocks => blocks !! cindex item.

(** A solver that never skips a conflict. *)
Definition decisive {World : Type}
    (solver : ConflictSolverData -> World -> ConflictSolverResult * World) : Prop :=
  forall data w, (solver data w).1 <> Null.

(** A solver whose answers are never empty. *)
Definition outspoken {World : Type}
    (solver : ConflictSolverData -> World -> ConflictSolverResult * World) : Prop :=
  forall data w, (solver data w).1 <> Blank.

(** A solver that answers every conflict with a block. *)
Definition solving {World : Type}
    (solver : ConflictSolverData -> World -> ConflictSolverResult * World) : Prop :=
  forall data w, exists result, (solver data w).1 = Solved result.

(** A state of the resolver loop in which every block is [Good] or still on
    the list, and the list names blocks of the table. *)
Definition settled {World : Type} (Good : MergeBlock -> Prop) (st : ResolverState World) : Prop :=
  (forall item, item ∈ remainedConflictedFileDataList World st ->
                is_Some (blockAt (rmergeTable World st) item))
  /\ (forall item blk, blockAt (rmergeTable World st) item = Some blk ->
                       Good blk \/ item ∈ remainedConflictedFileDataList World st).

(** A state of the resolver loop, started on the table [mt0], that has left
    alone the blocks that were no open conflict and the number of blocks of
    every file. *)
Definition framed {World : Type} (mt0 : gmap string (list MergeBlock))
                  (st : ResolverState World) : Prop :=
  (forall item, item ∈ remainedConflictedFileDataList World st ->
                exists blk, blockAt mt0 item = Some blk /\ openConflict blk)
  /\ (forall item blk, blockAt mt0 item = Some blk -> ~ openConflict blk ->
                       blockAt (rmergeTable World st) item = Some blk)
  /\ (forall p, length <$> rmergeTable World st !! p = length <$> mt0 !! p).

(** A cleanup call that deletes the file [p]. *)
Definition deletesFile (p : string) (op : CleanupOp) : Prop :=
  match op with
  | DeleteFiles pathnameList => p ∈ pathnameList
  | AddFile _ _ | AddBinaryFile _ _ => False
  end.

(** The extend template a pending label names: the label without its prefix. *)
Definition targetOf (pendingLabel : string) : string :=
  Js.sliceFrom (String.length EXTEND_TEMPLATE_LABEL_PREFIX) pendingLabel.

(** Every targeted extend template has an item of properties under its label. *)
Definition answered {Props World : Type} (st : QueryState Props World) : Prop :=
  forall templateId, templateId ∈ targetedIds Props World st ->
    exists item, item ∈ templatePropsList Props World st
                 /\ label Props item = EXTEND_TEMPLATE_LABEL_PREFIX +:+ templateId.

(** The change lists of one file: the first is the self-diff of the text the
    first template wrote, and each of the others is the diff of the text a
    later template wrote against the lines of the first. *)
Definition baselineFirst (diffLines : string -> string -> list Change)
                         (diffs : list (list DiffChange)) : Prop :=
  exists content overlays,
    diffs = diff diffLines content None :: overlays
    /\ Forall (fun d => exists current,
                 d = diff diffLines (Js.join (map dvalue (diff diffLines content None)))
                          (Some current))
              overlays.

(** A cache table [ct] that the rendering reaches from [ct0]: its entries
    are well formed if those of [ct0] are, and they are those of [ct0] with
    more change lists at the end. *)
Definition reached (diffLines : string -> string -> list Change)
                   (ct0 ct : gmap string (list (list DiffChange))) : Prop :=
  ((forall p diffs, ct0 !! p = Some diffs -> baselineFirst diffLines diffs) ->
   forall p diffs, ct !! p = Some diffs -> baselineFirst diffLines diffs)
  /\ (forall p diffs, ct0 !! p = Some diffs -> exists more, ct !! p = Some (diffs ++ more)).

(** *** The arrays of the merger *)

(** An overlay change that, when it is added, has a line number below [10^21]
    in size: its key in [patchTable] is written without an exponent, and
    [parseInt] gives the line number back. *)
Definition decimalKey (c : DiffChange) : Prop :=
  dadded c = true -> Z.abs (lineNumber c) < 10 ^ 21.

#[global] Instance decimalKey_dec c : Decision (decimalKey c).
Proof. unfold decimalKey. apply _. Defined.

(** A patch table whose entries hold no more changes than an array can. *)
Definition roomy (patchTable : Patch.t) : Prop :=
  forall k p, Patch.get patchTable k = Some p ->
              Z.of_nat (length (changes p)) <= 2 ^ 32 - 1.

(** A patch table whose entries have got more changes, and may have got more
    entries. *)
Definition grown (patchTable patchTable' : Patch.t) : Prop :=
  forall k p, Patch.get patchTable k = Some p ->
              exists p', Patch.get patchTable' k = Some p'
                         /\ (length (changes p) <= length (changes p'))%nat.

(** ** Examples *)

Definition lineA : DiffChange := mkDiffChange ("A" +:+ Js.NL) false false 0 false None.
Definition lineB : DiffChange := mkDiffChange ("B" +:+ Js.NL) false false 1 false None.

(** An insertion anchored at line [n]. *)
Definition insertion (v : string) (n : Z) : DiffChange :=
  mkDiffChange (v +:+ Js.NL) true false n false None.

(** A removal of line [n]. *)
Definition removal (v : string) (n : Z) : DiffChange :=
  mkDiffChange (v +:+ Js.NL) false true n false None.

Definition exampleBlocks : list MergeBlock :=
  [okBlock ["A" +:+ Js.NL]; conflictBlock ["X" +:+ Js.NL; "Y" +:+ Js.NL]; okBlock ["B" +:+ Js.NL]].

Definition exampleTable : gmap string (list MergeBlock) := {[ "a.txt" := exampleBlocks ]}.

(** A solver that ignores every conflict. *)
Definition ignoringSolver : ConflictSolverData -> unit -> ConflictSolverResult * unit :=
  fun _ w => (Ignored, w).

(** A matcher whose delete policy is [**/*.tmp] on two pathnames. *)
Definition tmpMatcher (pathname : string) (kind : PatternKind) : bool :=
  match kind with
  | deleteKind => String.eqb pathname "x.tmp" || String.eqb pathname "y.tmp"
  | mergeKind => false
  end.

Definition noCleanups : TemplateConfig := mkConfig [] ∅ [].

(** A cleanup that adds the text file [y.tmp]. *)
Definition addingCleanup : TemplateCleanUpFunction :=
  fun _ => Some [AddFile "y.tmp" ("tmp" +:+ Js.NL)].

Definition mainQuestions : list Question := [mkQuestion "framework"].
Definition reactQuestions : list Question := [mkQuestion "typescript"].

(** The extend template [react] under its id. *)
Definition configById : TemplateConfig :=
  mkConfig mainQuestions {[ "react" := mkExtend reactQuestions [] ]} [].

(** The extend template under its label instead. *)
Definition configByLabel : TemplateConfig :=
  mkConfig mainQuestions {[ "extend:react" := mkExtend reactQuestions [] ]} [].

(** The user picks the extend template [react] on the first query. *)
Definition pickReact (asked : list Question) (calls : nat) : list string * nat :=
  (match calls with O => ["react"] | S _ => [] end, S calls).

Definition answersAsLabels (answers : list string) : unit * list string := (tt, answers).

Definition initialQuery : QueryState unit nat := mkQuery unit nat ["main"] [] [] 0%nat [].

(** A template with one cleanup, which adds [y.tmp]. *)
Definition configWithCleanup : TemplateConfig := mkConfig [] ∅ [addingCleanup].

(** The tables after rendering a template with the files [a.txt] and [x.tmp]. *)
Definition exampleCache : gmap string (list (list DiffChange)) :=
  {[ "a.txt" := [[lineA; lineB]]; "x.tmp" := [[lineA]] ]}.

(** The merge table of these files under a delete policy on [x.tmp]. *)
Definition exampleMerged : gmap string (list MergeBlock) :=
  {[ "a.txt" := [okBlock ["A" +:+ Js.NL; "B" +:+ Js.NL]] ]}.

(** Two overlays of the baseline [lineA; lineB], both inserting after line 0. *)
Definition overlayX : list DiffChange := [lineA; insertion "X" 0; lineB].
Definition overlayY : list DiffChange := [lineA; insertion "Y" 0; lineB].


(** The runs of an overlay that adds a line after the first line of
    [lineA; lineB]. *)
Definition runsX : list Change :=
  [mkChange ("A" +:+ Js.NL) false false; mkChange ("X" +:+ Js.NL) true false;
   mkChange ("B" +:+ Js.NL) false false].

(** A solver whose answer is always empty. *)
Definition blankSolver : ConflictSolverData -> unit -> ConflictSolverResult * unit :=
  fun _ w => (Blank, w).

(** A solver that keeps the lines of the second group. *)
Definition keepCurrent : ConflictSolverData -> unit -> ConflictSolverResult * unit :=
  fun data w => (Solved (mkBlock OK (mkValues [] (vcurrent (values (sblock data)))) false), w).

(** A matcher whose merge policy holds every pathname. *)
Definition mergeAll (pathname : string) (kind : PatternKind) : bool :=
  match kind with
  | mergeKind => true
  | deleteKind => false
  end.

(** A template whose only cleanup deletes [a.txt]. *)
Definition configDeleting : TemplateConfig := mkConfig [] ∅ [fun _ => Some [DeleteFiles ["a.txt"]]].

(** A merge table that holds the file the cleanup of [configWithCleanup] adds. *)
Definition tableWithTmp : gmap string (list MergeBlock) :=
  {[ "y.tmp" := [okBlock ["old" +:+ Js.NL]] ]}.

(** A volume with the file [a.txt] in the main template and in the extend
    template [react]. *)
Definition exampleEntities (start : string) : list TemplateEntity :=
  if String.eqb start "/template/main"
  then [mkEntity "/template/main/src" "src" false true "";
        mkEntity "/template/main/a.txt" "a.txt" false false ""]
  else if String.eqb start "/template/extends/react"
  then [mkEntity "/template/extends/react/a.txt" "a.txt" false false ""]
  else [].

Definition exampleVolume (pathname : string) : Buffer :=
  if String.eqb pathname "/template/main/a.txt"
  then list_byte_of_string ("A" +:+ Js.NL +:+ "B" +:+ Js.NL)
  else list_byte_of_string ("A" +:+ Js.NL +:+ "X" +:+ Js.NL +:+ "B" +:+ Js.NL).

(** The properties [queryAllTemplateProps] records when the user picks the
    extend template [react]. *)
Definition examplePropsList : list (TemplatePropsItem unit) :=
  [mkPropsItem unit tt "main"; mkPropsItem unit tt "extend:react"].

(** The cache table of these templates. *)
Definition exampleCopied : gmap string (list (list DiffChange)) :=
  {[ "a.txt" := [[lineA; lineB]; overlayX] ]}.

(** * Properties *)

(** ** Strings *)

Section StringFacts.

Lemma append_nil_l (s : string) : "" +:+ s = s.
Proof. reflexivity. Qed.

Lemma append_cons (c : ascii) (s t : string) : String c s +:+ t = String c (s +:+ t).
Proof. reflexivity. Qed.

Lemma append_empty_r (s : string) : s +:+ "" = s.
Proof.
  induction s as [|c s IH]; [reflexivity|]. now rewrite append_cons, IH.
Qed.

Lemma append_assoc (a b c : string) : (a +:+ b) +:+ c = a +:+ (b +:+ c).
Proof.
  induction a as [|x a IH]; [reflexivity|]. now rewrite !append_cons, IH.
Qed.

Lemma join_nil : Js.join [] = "".
Proof. reflexivity. Qed.

Lemma join_cons (x : string) (l : list string) : Js.join (x :: l) = x +:+ Js.join l.
Proof. reflexivity. Qed.

Lemma join_app (l1 l2 : list string) : Js.join (l1 ++ l2) = Js.join l1 +:+ Js.join l2.
Proof.
  induction l1 as [|x l1 IH]; [reflexivity|].
  rewrite <- app_comm_cons, !join_cons, IH. now rewrite append_assoc.
Qed.

Lemma splitNl_nonempty (s : string) : Js.splitNl s <> [].
Proof.
  destruct s as [|c r]; simpl; [discriminate|].
  destruct (Ascii.eqb c Js.nl); [discriminate|].
  destruct (Js.splitNl r); discriminate.
Qed.

(** Re-terminating every piece of [split('\n')] gives the string back, with
    one newline more. *)
Lemma join_splitNl (s : string) :
  Js.join (map (fun item => item +:+ Js.NL) (Js.splitNl s)) = s +:+ Js.NL.
Proof.
  induction s as [|c r IH]; [reflexivity|].
  simpl. destruct (Ascii.eqb_spec c Js.nl) as [->|Hc].
  - rewrite map_cons, join_cons, IH. reflexivity.
  - pose proof (splitNl_nonempty r) as Hne.
    destruct (Js.splitNl r) as [|h t]; [contradiction|].
    rewrite map_cons, join_cons in *. rewrite !append_cons. f_equal.
    rewrite <- IH. reflexivity.
Qed.

Lemma dropLast_endsWithNl (s : string) :
  Js.endsWithNl s = true -> Js.dropLast s +:+ Js.NL = s.
Proof.
  induction s as [|c r IH]; simpl; [discriminate|].
  destruct r as [|c' r'].
  - intros H. apply Ascii.eqb_eq in H. now subst.
  - intros H. rewrite append_cons. f_equal. now apply IH.
Qed.

Lemma endsWithNl_app (s : string) : Js.endsWithNl (s +:+ Js.NL) = true.
Proof.
  induction s as [|c r IH]; [reflexivity|].
  rewrite append_cons. simpl. destruct (r +:+ Js.NL) eqn:E; [|exact IH].
  destruct r; discriminate.
Qed.

End StringFacts.

(** ** LineDiffer *)

Section LineDifferFacts.

Variable diffLines : string -> string -> list Change.

Lemma splitChanges_from (acc changes : list Change) :
  fold_left (fun result currentItem => result ++ splitLines currentItem) changes acc
  = acc ++ flat_map splitLines changes.
Proof.
  revert acc. induction changes as [|c cs IH]; intros acc; simpl.
  - now rewrite app_nil_r.
  - now rewrite IH, <- app_assoc.
Qed.

Lemma splitChanges_flat_map (changes : list Change) :
  splitChanges changes = flat_map splitLines changes.
Proof. unfold splitChanges. now rewrite splitChanges_from. Qed.

(** The text of the lines of one run: the run's text, newline-terminated. *)
Lemma join_splitLines (c : Change) :
  Js.join (map value (splitLines c))
  = if Js.endsWithNl (value c) then value c else value c +:+ Js.NL.
Proof.
  unfold splitLines. rewrite map_map. simpl.
  rewrite join_splitNl.
  destruct (Js.endsWithNl (value c)) eqn:E; [|reflexivity].
  now apply dropLast_endsWithNl.
Qed.

Lemma splitLines_flags (c x : Change) :
  x ∈ splitLines c -> added x = added c /\ removed x = removed c.
Proof.
  unfold splitLines. intros H. apply list_elem_of_fmap in H as (y & -> & _). now simpl.
Qed.

Lemma splitLines_nonempty (c : Change) : splitLines c <> [].
Proof.
  unfold splitLines. intros H. apply map_eq_nil in H. now apply splitNl_nonempty in H.
Qed.

Lemma numberLines_lookup (n : Z) (l : list Change) (k : nat) (c : DiffChange) :
  numberLines n l !! k = Some c ->
  lineNumber c = n + counterAt (numberLines n l) k - (if dadded c then 1 else 0).
Proof.
  revert n k. induction l as [|x l IH]; intros n k; simpl; [now rewrite lookup_nil|].
  unfold counterAt.
  destruct (added x) eqn:Ex; destruct k as [|k]; simpl.
  - intros [= <-]. simpl. rewrite Ex. lia.
  - intros H. rewrite filter_cons_False by (unfold nonAdded; simpl; congruence).
    now apply IH in H.
  - intros [= <-]. simpl. rewrite Ex. lia.
  - intros H. rewrite filter_cons_True by (unfold nonAdded; simpl; congruence).
    apply IH in H. unfold counterAt in H. simpl. lia.
Qed.

Lemma counterAt_mono (cl : list DiffChange) (i j : nat) (ci : DiffChange) :
  (i < j)%nat -> cl !! i = Some ci ->
  counterAt cl i + (if dadded ci then 0 else 1) <= counterAt cl j.
Proof.
  revert i j. induction cl as [|c cl IH]; intros i j Hij Hi; [now rewrite lookup_nil in Hi|].
  destruct j as [|j]; [lia|]. unfold counterAt in *.
  destruct i as [|i]; simpl in Hi.
  - injection Hi as ->. simpl. destruct (dadded ci) eqn:E.
    + rewrite filter_cons_False by (unfold nonAdded; congruence). lia.
    + rewrite filter_cons_True by exact E. simpl. lia.
  - specialize (IH i j ltac:(lia) Hi). simpl.
    destruct (decide (nonAdded c)).
    + rewrite !filter_cons_True by assumption. simpl. lia.
    + rewrite !filter_cons_False by assumption. lia.
Qed.

End LineDifferFacts.

Section NumberingFacts.

Lemma numberLines_elem (n : Z) (l : list Change) (c : DiffChange) :
  c ∈ numberLines n l ->
  exists x, x ∈ l /\ dvalue c = value x /\ dadded c = added x /\ dremoved c = removed x
            /\ conflicted c = false.
Proof.
  revert n. induction l as [|x l IH]; intros n; simpl.
  - intros H. now apply elem_of_nil in H.
  - destruct (added x) eqn:Ex; intros H; apply elem_of_cons in H as [->|H].
    + exists x. split; [left|]. now simpl.
    + apply IH in H as (y & Hy & ?). exists y. split; [now right | assumption].
    + exists x. split; [left|]. now simpl.
    + apply IH in H as (y & Hy & ?). exists y. split; [now right | assumption].
Qed.

Lemma numberLines_values (n : Z) (l : list Change) :
  map dvalue (numberLines n l) = map value l.
Proof.
  revert n. induction l as [|x l IH]; intros n; simpl; [reflexivity|].
  destruct (added x); simpl; now rewrite IH.
Qed.

End NumberingFacts.

(** ** BlockParser *)

Section BlockParserFacts.

Lemma onLast_snoc {A} (f : A -> A) (l : list A) (x : A) : onLast f (l ++ [x]) = l ++ [f x].
Proof.
  induction l as [|y l IH]; [reflexivity|].
  simpl. rewrite IH. destruct (l ++ [x]) eqn:E; [|reflexivity].
  now destruct l.
Qed.

Lemma lastIs_nil (s : Status) : lastIs s [] = false.
Proof. reflexivity. Qed.

Lemma lastIs_snoc (s : Status) (l : list MergeBlock) (b : MergeBlock) :
  lastIs s (l ++ [b]) = bool_decide (status b = s).
Proof. unfold lastIs. now rewrite last_snoc. Qed.

Lemma appendRun_nil (s : Status) (bs : list MergeBlock) : appendRun s bs [] = bs.
Proof. reflexivity. Qed.

Lemma lastIs_true_inv (s : Status) (bs : list MergeBlock) :
  lastIs s bs = true -> exists pre b, bs = pre ++ [b] /\ status b = s.
Proof.
  destruct bs as [|b0 bs0 _] using rev_ind; [discriminate|].
  rewrite lastIs_snoc. intros H. apply bool_decide_eq_true in H. eauto.
Qed.

Lemma appendRun_cons (s : Status) (bs : list MergeBlock) (v : string) (vs : list string) :
  appendRun s (appendRun s bs [v]) vs = appendRun s bs (v :: vs).
Proof.
  destruct vs as [|w vs]; [reflexivity|].
  unfold appendRun. destruct (lastIs s bs) eqn:E.
  - apply lastIs_true_inv in E as (pre & b & -> & Hb).
    rewrite !onLast_snoc, lastIs_snoc, bool_decide_eq_true_2 by exact Hb.
    unfold addCurrent. simpl. now rewrite <- app_assoc.
  - rewrite lastIs_snoc. simpl. rewrite bool_decide_eq_true_2 by reflexivity.
    rewrite onLast_snoc. reflexivity.
Qed.

Lemma parseLine_plain (bs : list MergeBlock) (c : DiffChange) :
  dremoved c = false -> conflicted c = false ->
  parseLine bs (Line c) = Some (appendRun OK bs [dvalue c]).
Proof.
  intros Hr Hc. unfold parseLine, appendRun. rewrite Hr, Hc.
  destruct (lastIs OK bs) eqn:E; [reflexivity|].
  rewrite onLast_snoc. reflexivity.
Qed.



Lemma linesOf_cons (s : Slot) (l : list Slot) :
  linesOf (s :: l)
  = match visible s with Some c => dvalue c :: linesOf l | None => linesOf l end.
Proof. unfold linesOf. simpl. now destruct (visible s). Qed.

Lemma linesOf_app (l1 l2 : list Slot) : linesOf (l1 ++ l2) = linesOf l1 ++ linesOf l2.
Proof. unfold linesOf. now rewrite omap_app, map_app. Qed.

(** A run of calm slots adds its visible lines to an [OK] block. *)
Lemma parseFrom_calm (bs : list MergeBlock) (l : list Slot) :
  Forall calm l -> parseFrom bs l = Some (appendRun OK bs (linesOf l)).
Proof.
  intros H. revert bs. induction H as [|s l Hs Hl IH]; intros bs; [reflexivity|].
  rewrite linesOf_cons. destruct s as [c| |]; simpl in Hs.
  - simpl visible. destruct (dremoved c) eqn:Er.
    + simpl. rewrite Er. apply IH.
    + destruct Hs as [Hs|Hs]; [congruence|].
      change (parseFrom bs (Line c :: l))
        with (match parseLine bs (Line c) with
              | Some bs' => parseFrom bs' l
              | None => None
              end).
      rewrite (parseLine_plain bs c Er Hs), IH. now rewrite appendRun_cons.
  - contradiction.
  - apply IH.
Qed.


Lemma toText_from (acc : string) (blocks : list MergeBlock) :
  fold_left (fun result currentBlock => result +:+ renderBlock currentBlock) blocks acc
  = acc +:+ Js.join (map renderBlock blocks).
Proof.
  revert acc. induction blocks as [|b bs IH]; intros acc; cbn [fold_left map].
  - now rewrite join_nil, append_empty_r.
  - now rewrite IH, join_cons, append_assoc.
Qed.

Lemma toText_join (blocks : list MergeBlock) :
  parseMergeBlocksToText blocks = Js.join (map renderBlock blocks).
Proof. unfold parseMergeBlocksToText. now rewrite toText_from. Qed.

End BlockParserFacts.

(** ** Claims on the line differ and the block parser *)

Lemma calm_plain_lines (cl : list DiffChange) :
  Forall (fun c => dremoved c = false /\ conflicted c = false) cl ->
  Forall calm (map Line cl) /\ linesOf (map Line cl) = map dvalue cl.
Proof.
  induction 1 as [|c cl [Hr Hc] _ [IH1 IH2]]; [split; [constructor | reflexivity]|].
  split.
  - constructor; [right; exact Hc | exact IH1].
  - rewrite map_cons, linesOf_cons. simpl. rewrite Hr. simpl. now rewrite IH2.
Qed.

Lemma renderBlock_okBlock (vs : list string) : renderBlock (okBlock vs) = Js.join vs.
Proof. reflexivity. Qed.

(** Reading back the self-diff of a text whose line differ returns the text as
    one unchanged run. *)
Lemma self_diff_text (diffLines : string -> string -> list Change) (t : string) :
  diffLines t t = [mkChange t false false] ->
  parseMergeBlocksToText <$> parseDiffToMergeBlocks (map Line (diff diffLines t None))
  = Some (if Js.endsWithNl t then t else t +:+ Js.NL).
Proof.
  intros Hself. unfold diff. simpl Js.orElse. rewrite Hself.
  rewrite splitChanges_flat_map. simpl flat_map. rewrite app_nil_r.
  set (c := mkChange t false false).
  assert (Hplain : Forall (fun d => dremoved d = false /\ conflicted d = false)
                          (numberLines 0 (splitLines c))).
  { apply Forall_forall. intros d Hd.
    apply numberLines_elem in Hd as (x & Hx & _ & _ & Hr & Hc).
    apply splitLines_flags in Hx as [_ Hx]. rewrite Hr, Hx. now split. }
  apply calm_plain_lines in Hplain as [Hcalm Hlines].
  unfold parseDiffToMergeBlocks. rewrite (parseFrom_calm [] _ Hcalm), Hlines.
  rewrite numberLines_values.
  pose proof (splitLines_nonempty c) as Hne.
  pose proof (join_splitLines c) as Hjoin.
  destruct (splitLines c) as [|x l] eqn:E; [contradiction|].
  simpl fmap. f_equal.
  change (parseMergeBlocksToText [okBlock (map value (x :: l))]
          = (if Js.endsWithNl (value c) then value c else value c +:+ Js.NL)).
  rewrite toText_join. simpl map. rewrite join_cons, join_nil, append_empty_r.
  rewrite renderBlock_okBlock. exact Hjoin.
Qed.

(** C1 (as amended): for every text [t] whose self-diff is one unchanged run,
    serialising the blocks of [diff(t)] gives [t] back when [t] ends with a
    newline, and [t] followed by a newline otherwise. *)
Theorem self_diff_roundtrip (diffLines : string -> string -> list Change) (t : string) :
  diffLines t t = [mkChange t false false] ->
  (Js.endsWithNl t = true ->
   parseMergeBlocksToText <$> parseDiffToMergeBlocks (map Line (diff diffLines t None)) = Some t)
  /\ (Js.endsWithNl t = false ->
      parseMergeBlocksToText <$> parseDiffToMergeBlocks (map Line (diff diffLines t None))
      = Some (t +:+ Js.NL)).
Proof.
  intros Hself. pose proof (self_diff_text diffLines t Hself) as H.
  split; intros E; now rewrite E in H.
Qed.

Lemma self_diff_roundtrip_witness :
  parseMergeBlocksToText <$>
    parseDiffToMergeBlocks
      (map Line (diff LineDiff.diffLines ("a" +:+ Js.NL +:+ "b" +:+ Js.NL) None))
  = Some ("a" +:+ Js.NL +:+ "b" +:+ Js.NL).
Proof.
  exact (proj1 (self_diff_roundtrip LineDiff.diffLines ("a" +:+ Js.NL +:+ "b" +:+ Js.NL)
                                    eq_refl) eq_refl).
Defined.

(** C1 (as stated) fails on a text without a final newline: the differ
    re-terminates every line, so ["a"] reads back as ["a\n"]. *)
Lemma self_diff_adds_newline :
  parseMergeBlocksToText <$>
    parseDiffToMergeBlocks (map Line (diff LineDiff.diffLines "a" None))
  = Some ("a" +:+ Js.NL)
  /\ "a" +:+ Js.NL <> "a".
Proof. split; [reflexivity | discriminate]. Qed.

(** C9: in every change list [diff] produces, a change that is not [added]
    gets the counter (the number of earlier changes that are not [added]) and
    an [added] change gets the counter minus one; so line numbers never
    decrease, and a line number is repeated by [added] changes only. *)
Theorem diff_lineNumbers (diffLines : string -> string -> list Change)
                         (a : string) (b : option string) :
  let cl := diff diffLines a b in
  (forall k c, cl !! k = Some c ->
     lineNumber c = counterAt cl k - (if dadded c then 1 else 0))
  /\ (forall i j ci cj, (i < j)%nat -> cl !! i = Some ci -> cl !! j = Some cj ->
        lineNumber ci <= lineNumber cj
        /\ (lineNumber ci = lineNumber cj -> dadded cj = true)).
Proof.
  intros cl.
  assert (Hnum : forall k c, cl !! k = Some c ->
                 lineNumber c = counterAt cl k - (if dadded c then 1 else 0)).
  { intros k c Hk. subst cl. unfold diff in *.
    apply numberLines_lookup in Hk. lia. }
  split; [exact Hnum|].
  intros i j ci cj Hij Hi Hj.
  pose proof (Hnum i ci Hi) as Ei. pose proof (Hnum j cj Hj) as Ej.
  pose proof (counterAt_mono cl i j ci Hij Hi) as Hmono.
  destruct (dadded ci), (dadded cj); split; intros; try reflexivity; lia.
Qed.

(** C10: an empty string given as the current content is the same as none
    ([diff] falls back on the original content), and when the line differ
    reports a text against itself as unchanged the result has no [added] and
    no [removed] change. *)
Theorem diff_empty_current (diffLines : string -> string -> list Change) (a : string) :
  diff diffLines a (Some "") = diff diffLines a None
  /\ ((forall c, c ∈ diffLines a a -> added c = false /\ removed c = false) ->
      forall c, c ∈ diff diffLines a (Some "") -> dadded c = false /\ dremoved c = false).
Proof.
  split; [reflexivity|].
  intros Hself c Hc. unfold diff in Hc. simpl Js.orElse in Hc.
  apply numberLines_elem in Hc as (x & Hx & _ & Ha & Hr & _).
  rewrite splitChanges_flat_map in Hx. apply list_elem_of_In, in_flat_map in Hx as (y & Hy & Hx).
  apply list_elem_of_In in Hy, Hx. apply splitLines_flags in Hx as [Hxa Hxr].
  destruct (Hself y Hy) as [Hya Hyr]. split; congruence.
Qed.

Lemma diff_empty_current_witness :
  forallb (fun c => negb (dadded c) && negb (dremoved c))
          (diff LineDiff.diffLines ("a" +:+ Js.NL +:+ "b") (Some "")) = true.
Proof.
  apply forallb_forall. intros c Hc. apply list_elem_of_In in Hc.
  destruct (proj2 (diff_empty_current LineDiff.diffLines ("a" +:+ Js.NL +:+ "b"))
                  ltac:(intros x Hx; vm_compute in Hx; apply list_elem_of_singleton in Hx;
                        subst x; split; reflexivity) c Hc) as [-> ->].
  reflexivity.
Defined.

(** ** Merger: the patch table *)

Section PatchFacts.

Implicit Types (pt : Patch.t) (k : Z) (p : PatchItem).

Lemma get_Some_elem pt k p : Patch.get pt k = Some p -> (k, p) ∈ pt.
Proof.
  induction pt as [|[k' p'] pt IH]; simpl; [discriminate|].
  destruct (decide (k' = k)) as [->|Hne].
  - intros [= ->]. left.
  - intros H. right. now apply IH.
Qed.

Lemma get_is_Some pt k : is_Some (Patch.get pt k) <-> k ∈ pt.*1.
Proof.
  induction pt as [|[k' p'] pt IH]; simpl.
  - split; [intros [? [=]] | intros H; now apply elem_of_nil in H].
  - destruct (decide (k' = k)) as [->|Hne].
    + split; [intros _; left | intros _; eauto].
    + rewrite IH. split; [intros H; now right|].
      intros H. apply elem_of_cons in H as [->|H]; [contradiction | exact H].
Qed.

Lemma get_None pt k : Patch.get pt k = None <-> k ∉ pt.*1.
Proof. rewrite <- get_is_Some, eq_None_not_Some. reflexivity. Qed.

Lemma get_app pt1 pt2 k :
  Patch.get (pt1 ++ pt2) k
  = match Patch.get pt1 k with Some p => Some p | None => Patch.get pt2 k end.
Proof.
  induction pt1 as [|[k' p'] pt1 IH]; simpl; [reflexivity|].
  now destruct (decide (k' = k)).
Qed.

Lemma update_keys pt k f : (Patch.update pt k f).*1 = pt.*1.
Proof.
  induction pt as [|[k' p'] pt IH]; [reflexivity|].
  cbn [Patch.update]. destruct (decide (k' = k)); rewrite !fmap_cons; [reflexivity|].
  now rewrite IH.
Qed.

Lemma get_update pt k k' f :
  Patch.get (Patch.update pt k f) k'
  = if decide (k = k') then f <$> Patch.get pt k' else Patch.get pt k'.
Proof.
  induction pt as [|[k0 p0] pt IH]; simpl; [now destruct (decide (k = k'))|].
  destruct (decide (k0 = k)) as [->|Hne]; simpl.
  - destruct (decide (k = k')) as [->|Hne']; [reflexivity|].
    reflexivity.
  - destruct (decide (k0 = k')) as [->|Hne'].
    + destruct (decide (k = k')); [congruence | reflexivity].
    + exact IH.
Qed.

Lemma ensure_keys pt k :
  (Patch.ensure pt k).*1 = if decide (k ∈ pt.*1) then pt.*1 else pt.*1 ++ [k].
Proof.
  unfold Patch.ensure. destruct (Patch.get pt k) as [p|] eqn:E.
  - rewrite decide_True; [reflexivity|]. apply get_is_Some. eauto.
  - apply get_None in E. rewrite decide_False by exact E. now rewrite fmap_app.
Qed.

Lemma get_ensure pt k k' :
  Patch.get (Patch.ensure pt k) k'
  = match Patch.get pt k' with
    | Some p => Some p
    | None => if decide (k = k') then Some (mkPatch [] 0) else None
    end.
Proof.
  unfold Patch.ensure. destruct (Patch.get pt k) as [p|] eqn:E.
  - destruct (Patch.get pt k') eqn:E'; [reflexivity|].
    destruct (decide (k = k')); [congruence | reflexivity].
  - rewrite get_app. simpl. destruct (Patch.get pt k'); reflexivity.
Qed.

(** The entry of a line after one insertion. *)
Lemma get_pushAdded pt c k :
  Patch.get (pushAdded pt c) k
  = if decide (lineNumber c = k)
    then Some (pushChange c (default (mkPatch [] 0) (Patch.get pt k)))
    else Patch.get pt k.
Proof.
  unfold pushAdded. rewrite get_update, get_ensure.
  destruct (decide (lineNumber c = k)) as [E|Hne];
    destruct (Patch.get pt k); reflexivity.
Qed.

Lemma pushAdded_keys pt c :
  (pushAdded pt c).*1
  = if decide (lineNumber c ∈ pt.*1) then pt.*1 else pt.*1 ++ [lineNumber c].
Proof. unfold pushAdded. now rewrite update_keys, ensure_keys. Qed.

Lemma pushAdded_NoDup pt c : NoDup pt.*1 -> NoDup (pushAdded pt c).*1.
Proof.
  intros H. rewrite pushAdded_keys. case_decide as Hin; [exact H|].
  apply NoDup_app. split; [exact H|]. split.
  - intros x Hx Hx'. apply list_elem_of_singleton in Hx'. now subst.
  - apply NoDup_singleton.
Qed.

End PatchFacts.

(** ** Merger: the loop over the overlays *)

Section LoopFacts.

Implicit Types (pt : Patch.t) (k : Z) (d : list DiffChange) (od : list Slot).

Lemma uniq_elem `{EqDecision A} (l : list A) (x : A) : x ∈ uniq l <-> x ∈ l.
Proof.
  induction l as [|y l IH]; simpl; [reflexivity|].
  rewrite !elem_of_cons, list_elem_of_filter, IH.
  destruct (decide (x = y)); tauto.
Qed.

Lemma uniq_NoDup `{EqDecision A} (l : list A) : NoDup (uniq l).
Proof.
  induction l as [|y l IH]; simpl; [constructor|].
  constructor.
  - rewrite list_elem_of_filter. intros [Hne _]. now apply Hne.
  - now apply NoDup_filter.
Qed.

Lemma extend_nil o : extend o [] = o.
Proof. reflexivity. Qed.

Lemma extend_app o l1 l2 : extend (extend o l1) l2 = extend o (l1 ++ l2).
Proof.
  destruct l1 as [|x l1]; [reflexivity|].
  destruct l2 as [|y l2]; [now rewrite app_nil_r|].
  unfold extend. simpl. now rewrite <- app_assoc.
Qed.

(** The inner loop, component by component. *)
Lemma fold_applyChange d od pt :
  fold_left applyChange d (od, pt)
  = (fold_left setRemoved (removalsOf d) od,
     fold_left pushAdded (filter (fun c => Is_true (dadded c)) d) pt).
Proof.
  revert od pt. induction d as [|c d IH]; intros od pt; [reflexivity|].
  cbn [fold_left]. unfold applyChange at 2. unfold removalsOf.
  set (isAdded := fun c : DiffChange => Is_true (dadded c)).
  set (isRemoved := fun c : DiffChange => dadded c = false /\ dremoved c = true).
  destruct (dadded c) eqn:Ea.
  - rewrite IH. rewrite (filter_cons_True isAdded c) by (unfold isAdded; now rewrite Ea).
    rewrite (filter_cons_False isRemoved c) by (intros [? ?]; congruence). reflexivity.
  - rewrite (filter_cons_False isAdded c) by (unfold isAdded; now rewrite Ea).
    destruct (dremoved c) eqn:Er.
    + rewrite IH. rewrite (filter_cons_True isRemoved c) by (now split). reflexivity.
    + rewrite IH. rewrite (filter_cons_False isRemoved c) by (intros [? ?]; congruence).
      reflexivity.
Qed.

Lemma get_pushAll (l : list DiffChange) pt k :
  Patch.get (fold_left pushAdded l pt) k
  = extend (Patch.get pt k) (filter (fun c => lineNumber c = k) l).
Proof.
  revert pt. induction l as [|c l IH]; intros pt; [reflexivity|].
  cbn [fold_left]. rewrite IH, get_pushAdded.
  destruct (decide (lineNumber c = k)) as [E|Hne].
  - rewrite (filter_cons_True _ c) by exact E.
    change (c :: filter (fun c0 => lineNumber c0 = k) l)
      with ([c] ++ filter (fun c0 => lineNumber c0 = k) l).
    now rewrite <- extend_app.
  - now rewrite (filter_cons_False _ c) by exact Hne.
Qed.

Lemma pushAll_NoDup (l : list DiffChange) pt :
  NoDup pt.*1 -> NoDup (fold_left pushAdded l pt).*1.
Proof.
  revert pt. induction l as [|c l IH]; intros pt H; [exact H|].
  cbn [fold_left]. apply IH. now apply pushAdded_NoDup.
Qed.

Lemma pushAll_keys (l : list DiffChange) pt k :
  k ∈ (fold_left pushAdded l pt).*1 <-> k ∈ pt.*1 \/ k ∈ map lineNumber l.
Proof.
  revert pt. induction l as [|c l IH]; intros pt.
  - simpl. rewrite elem_of_nil. tauto.
  - cbn [fold_left]. rewrite IH, pushAdded_keys, map_cons, elem_of_cons.
    case_decide as Hin.
    + split; [tauto|]. intros [?|[->|?]]; tauto.
    + rewrite elem_of_app, list_elem_of_singleton. tauto.
Qed.

Lemma get_bumpAll (ks : list Z) pt k :
  NoDup ks ->
  Patch.get (fold_left (fun pt n => Patch.update pt n bumpModifyLength) ks pt) k
  = if decide (k ∈ ks) then bumpModifyLength <$> Patch.get pt k else Patch.get pt k.
Proof.
  intros H. revert pt. induction H as [|n ks Hn Hks IH]; intros pt.
  - cbn [fold_left]. destruct (decide (k ∈ [])) as [Hk|_]; [|reflexivity].
    now apply elem_of_nil in Hk.
  - cbn [fold_left]. rewrite IH, get_update.
    destruct (decide (n = k)) as [->|Hne].
    + rewrite decide_False by exact Hn. rewrite decide_True by left. reflexivity.
    + destruct (decide (k ∈ ks)) as [Hin|Hout].
      * rewrite decide_True by (now right). reflexivity.
      * rewrite decide_False; [reflexivity|].
        intros Hc. apply elem_of_cons in Hc as [->|?]; congruence.
Qed.

Lemma bumpAll_keys (ks : list Z) pt :
  (fold_left (fun pt n => Patch.update pt n bumpModifyLength) ks pt).*1 = pt.*1.
Proof.
  revert pt. induction ks as [|n ks IH]; intros pt; [reflexivity|].
  cbn [fold_left]. now rewrite IH, update_keys.
Qed.

(** One overlay: the array gets its removals, the table its insertions. *)
Lemma applyDiff_fst od pt d :
  (applyDiff (od, pt) d).1 = fold_left setRemoved (removalsOf d) od.
Proof. unfold applyDiff. now rewrite fold_applyChange. Qed.

Lemma insertsAt_anchors k d :
  insertsAt k d <-> k ∈ map lineNumber (filter (fun c => Is_true (dadded c)) d).
Proof.
  unfold insertsAt. rewrite Exists_exists, list_elem_of_fmap. split.
  - intros (c & Hc & Ha & <-). exists c. split; [reflexivity|].
    apply list_elem_of_filter. split; [now rewrite Ha | exact Hc].
  - intros (c & -> & Hc). apply list_elem_of_filter in Hc as [Ha Hc].
    exists c. split; [exact Hc|]. split; [now destruct (dadded c) | reflexivity].
Qed.

Lemma insertsAt_filter k d :
  insertsAt k d <-> filter (fun c => dadded c = true /\ lineNumber c = k) d <> [].
Proof.
  unfold insertsAt. rewrite Exists_exists. split.
  - intros (c & Hc & HP) E.
    assert (Hin : c ∈ filter (fun c => dadded c = true /\ lineNumber c = k) d)
      by (apply list_elem_of_filter; tauto).
    rewrite E in Hin. now apply elem_of_nil in Hin.
  - intros Hne. destruct (filter _ d) as [|c l] eqn:E; [contradiction|].
    assert (Hin : c ∈ filter (fun c => dadded c = true /\ lineNumber c = k) d)
      by (rewrite E; left).
    apply list_elem_of_filter in Hin. exists c. tauto.
Qed.

Lemma get_applyDiff od pt d k :
  Patch.get (applyDiff (od, pt) d).2 k
  = let o := extend (Patch.get pt k)
                    (filter (fun c => dadded c = true /\ lineNumber c = k) d) in
    if decide (insertsAt k d) then bumpModifyLength <$> o else o.
Proof.
  unfold applyDiff. rewrite fold_applyChange. cbn [snd].
  rewrite get_bumpAll by apply uniq_NoDup. rewrite get_pushAll, list_filter_filter.
  rewrite (list_filter_iff (fun c => lineNumber c = k /\ Is_true (dadded c))
                           (fun c => dadded c = true /\ lineNumber c = k)).
  2:{ intros c. cbn beta. split.
      - intros [Hl Ha]. split; [now destruct (dadded c) | exact Hl].
      - intros [Ha Hl]. split; [exact Hl | now rewrite Ha]. }
  cbn zeta. destruct (decide (insertsAt k d)) as [Hi|Hni].
  - rewrite decide_True; [reflexivity|]. now apply uniq_elem, insertsAt_anchors.
  - rewrite decide_False; [reflexivity|]. rewrite uniq_elem, <- insertsAt_anchors. exact Hni.
Qed.

Lemma applyDiff_NoDup od pt d : NoDup pt.*1 -> NoDup (applyDiff (od, pt) d).2.*1.
Proof.
  intros H. unfold applyDiff. rewrite fold_applyChange. cbn [snd].
  rewrite bumpAll_keys. now apply pushAll_NoDup.
Qed.

Lemma changesAt_snoc k (ds : list (list DiffChange)) d :
  changesAt k (ds ++ [d])
  = changesAt k ds ++ filter (fun c => dadded c = true /\ lineNumber c = k) d.
Proof. unfold changesAt. now rewrite concat_app, filter_app, concat_cons, app_nil_r. Qed.

Lemma countAt_snoc k (ds : list (list DiffChange)) d :
  countAt k (ds ++ [d]) = countAt k ds + (if decide (insertsAt k d) then 1 else 0).
Proof.
  unfold countAt. rewrite filter_app, length_app.
  destruct (decide (insertsAt k d)) as [Hi|Hni].
  - rewrite (filter_cons_True _ d) by exact Hi. simpl. lia.
  - rewrite (filter_cons_False _ d) by exact Hni. simpl. lia.
Qed.

Lemma changesAt_nil_countAt k (ds : list (list DiffChange)) :
  changesAt k ds = [] -> countAt k ds = 0.
Proof.
  induction ds as [|d ds IH] using rev_ind; [reflexivity|].
  rewrite changesAt_snoc, countAt_snoc. intros H. apply app_eq_nil in H as [H1 H2].
  rewrite IH by exact H1. rewrite decide_False; [reflexivity|].
  rewrite insertsAt_filter. now rewrite H2.
Qed.

(** The patch table when the loop ends: the insertions anchored at each line,
    and the number of overlays that insert there. *)
Lemma patched_spec od (ds : list (list DiffChange)) :
  NoDup (patched od ds).2.*1
  /\ forall k, Patch.get (patched od ds).2 k = entryAt k ds.
Proof.
  unfold patched. induction ds as [|d ds [IHn IHg]] using rev_ind.
  - split; [constructor | reflexivity].
  - rewrite fold_left_app. cbn [fold_left].
    destruct (fold_left applyDiff ds (od, [])) as [od' pt'] eqn:E. cbn [snd] in *.
    split; [now apply applyDiff_NoDup|].
    intros k. rewrite get_applyDiff, IHg. unfold entryAt.
    rewrite changesAt_snoc, countAt_snoc. cbn zeta.
    destruct (decide (insertsAt k d)) as [Hi|Hni].
    + apply insertsAt_filter in Hi.
      destruct (filter (fun c => dadded c = true /\ lineNumber c = k) d) as [|c l] eqn:Ef;
        [contradiction|].
      destruct (changesAt k ds) as [|c0 l0] eqn:Ec.
      * rewrite (changesAt_nil_countAt k ds Ec). reflexivity.
      * reflexivity.
    + assert (Ef : filter (fun c => dadded c = true /\ lineNumber c = k) d = []).
      { destruct (filter _ d) eqn:Ef; [reflexivity|].
        exfalso. apply Hni, insertsAt_filter. now rewrite Ef. }
      rewrite Ef, app_nil_r, extend_nil, Z.add_0_r. reflexivity.
Qed.

Lemma patched_fst od (ds : list (list DiffChange)) :
  (patched od ds).1 = fold_left setRemoved (concat (map removalsOf ds)) od.
Proof.
  unfold patched. induction ds as [|d ds IH] using rev_ind; [reflexivity|].
  rewrite fold_left_app. cbn [fold_left].
  destruct (fold_left applyDiff ds (od, [])) as [od' pt'] eqn:E. cbn [fst] in IH.
  rewrite applyDiff_fst, IH, map_app, concat_app, fold_left_app.
  simpl. now rewrite app_nil_r.
Qed.

End LoopFacts.

(** ** Merger: cutting and weaving *)

Section AssemblyFacts.

Implicit Types (pt : Patch.t) (k n : Z) (od : list Slot) (es : list (Z * PatchItem)).

Lemma interleave_sliceBlocks od n es :
  interleave (sliceBlocks od (n :: es.*1)) (es.*2) = assemble od n es.
Proof.
  revert n. induction es as [|[k p] es IH]; intros n.
  - simpl. now rewrite app_nil_r.
  - rewrite !fmap_cons. cbn [fst snd sliceBlocks interleave assemble].
    do 2 f_equal. apply IH.
Qed.

Lemma entriesOf_present pt (ks : list Z) :
  Forall (fun k => k ∈ pt.*1) ks ->
  (entriesOf pt ks).*1 = ks /\ (entriesOf pt ks).*2 = omap (Patch.get pt) ks.
Proof.
  induction 1 as [|k ks Hk _ [IH1 IH2]]; [split; reflexivity|].
  apply get_is_Some in Hk as [p Hp]. unfold entriesOf in *.
  cbn [omap list_omap]. rewrite Hp. cbn [fmap option_fmap option_map].
  rewrite !fmap_cons, IH1, IH2. split; reflexivity.
Qed.

Lemma keys_elem pt k : k ∈ Patch.keys pt <-> k ∈ pt.*1.
Proof.
  unfold Patch.keys. rewrite elem_of_app, merge_sort_Permutation, !list_elem_of_filter.
  destruct (Js.isArrayIndex k); simpl; tauto.
Qed.

Lemma keys_NoDup pt : NoDup pt.*1 -> NoDup (Patch.keys pt).
Proof.
  intros H. unfold Patch.keys. apply NoDup_app. split; [|split].
  - rewrite merge_sort_Permutation. now apply NoDup_filter.
  - intros k. rewrite merge_sort_Permutation, !list_elem_of_filter. tauto.
  - now apply NoDup_filter.
Qed.

Lemma markConflicts_keys pt : (markConflicts pt).*1 = pt.*1.
Proof.
  unfold markConflicts. induction pt as [|[k p] pt IH]; [reflexivity|].
  rewrite map_cons, !fmap_cons. cbn [fst]. now rewrite IH.
Qed.

Lemma get_markConflicts pt k :
  Patch.get (markConflicts pt) k = markPatch <$> Patch.get pt k.
Proof.
  unfold markConflicts. induction pt as [|[k' p] pt IH]; [reflexivity|].
  rewrite map_cons. cbn [Patch.get]. destruct (decide (k' = k)); [reflexivity | exact IH].
Qed.

(** [merge] on a baseline and at least one overlay. *)
Lemma merge_cons (b : list DiffChange) (d : list DiffChange) (ds : list (list DiffChange)) :
  merge (Some b) (Some (d :: ds))
  = merged (patched (map Line b) (d :: ds)).1 (markConflicts (patched (map Line b) (d :: ds)).2).
Proof.
  unfold merge, merged. fold (patched (map Line b) (d :: ds)).
  destruct (patched (map Line b) (d :: ds)) as [od pt]. cbn [fst snd].
  destruct (entriesOf_present (markConflicts pt) (Patch.keys (markConflicts pt))) as [E1 E2].
  { apply Forall_forall. intros k. apply keys_elem. }
  rewrite <- E2.
  set (es := entriesOf (markConflicts pt) (Patch.keys (markConflicts pt))) in *.
  rewrite <- E1. apply interleave_sliceBlocks.
Qed.

(** Every change of every entry is in the merged list. *)
Lemma assemble_patch od n es k p c :
  (k, p) ∈ es -> c ∈ changes p -> Line c ∈ assemble od n es.
Proof.
  revert n. induction es as [|[k' p'] es IH]; intros n Hin Hc.
  - now apply elem_of_nil in Hin.
  - cbn [assemble]. rewrite !elem_of_app. apply elem_of_cons in Hin as [[= <- <-]|Hin].
    + right. left. apply list_elem_of_fmap. eauto.
    + right. right. now apply IH.
Qed.

Lemma entriesOf_elem pt (ks : list Z) k p :
  k ∈ ks -> Patch.get pt k = Some p -> (k, p) ∈ entriesOf pt ks.
Proof.
  intros Hk Hp. unfold entriesOf. apply list_elem_of_omap. exists k.
  split; [exact Hk|]. now rewrite Hp.
Qed.

Lemma merged_patch od pt k p c :
  Patch.get pt k = Some p -> c ∈ changes p -> Line c ∈ merged od pt.
Proof.
  intros Hp Hc. unfold merged. apply (assemble_patch od (-1) _ k p c); [|exact Hc].
  apply entriesOf_elem; [|exact Hp]. apply keys_elem, get_is_Some. eauto.
Qed.

End AssemblyFacts.

(** ** Claims on the merger *)

Section MergerFacts.

Implicit Types (b d : list DiffChange) (ds : list (list DiffChange)) (c : DiffChange).

Lemma applyChange_inert (st : list Slot * Patch.t) c : inert c -> applyChange st c = st.
Proof.
  intros [Ha Hr]. destruct st as [od pt]. unfold applyChange. rewrite Ha.
  destruct (dremoved c); [|reflexivity].
  destruct Hr as [Hr|Hr]; [discriminate|]. unfold setRemoved. now rewrite Hr.
Qed.

(** An inert change can be taken out of its overlay. *)
Lemma applyDiff_drop (st : list Slot * Patch.t) (d1 d2 : list DiffChange) c :
  inert c -> applyDiff st (d1 ++ c :: d2) = applyDiff st (d1 ++ d2).
Proof.
  intros Hc. unfold applyDiff. rewrite !fold_left_app. cbn [fold_left].
  rewrite (applyChange_inert _ c Hc). rewrite !filter_app.
  rewrite (filter_cons_False _ c); [reflexivity|].
  destruct Hc as [Ha _]. now rewrite Ha.
Qed.

Lemma applyDiff_inert (st : list Slot * Patch.t) d : Forall inert d -> applyDiff st d = st.
Proof.
  intros H. destruct st as [od pt]. unfold applyDiff. rewrite fold_applyChange.
  assert (Ea : filter (fun c => Is_true (dadded c)) d = []).
  { induction H as [|c d [Ha _] _ IH]; [reflexivity|].
    rewrite filter_cons_False by (now rewrite Ha). exact IH. }
  assert (Er : fold_left setRemoved (removalsOf d) od = od).
  { clear Ea. revert od. induction H as [|c d Hc _ IH]; intros od; [reflexivity|].
    unfold removalsOf in *. destruct Hc as [Ha [Hr|Hr]].
    - rewrite filter_cons_False by (intros [_ ?]; congruence). apply IH.
    - destruct (dremoved c) eqn:E.
      + rewrite filter_cons_True by (now split). cbn [map fold_left].
        unfold setRemoved at 2. rewrite Hr. apply IH.
      + rewrite filter_cons_False by (intros [_ ?]; congruence). apply IH. }
  rewrite Ea, Er. reflexivity.
Qed.

Lemma patched_inert (od : list Slot) ds : Forall (Forall inert) ds -> patched od ds = (od, []).
Proof.
  unfold patched. generalize (@nil (Z * PatchItem)). intros pt H. revert od pt.
  induction H as [|d ds Hd _ IH]; intros od pt; [reflexivity|].
  cbn [fold_left]. rewrite (applyDiff_inert _ d Hd). apply IH.
Qed.

Lemma merge_drop b (pre post : list (list DiffChange)) (d1 d2 : list DiffChange) c :
  inert c ->
  merge (Some b) (Some (pre ++ (d1 ++ c :: d2) :: post))
  = merge (Some b) (Some (pre ++ (d1 ++ d2) :: post)).
Proof.
  intros Hc.
  assert (E : forall st, fold_left applyDiff (pre ++ (d1 ++ c :: d2) :: post) st
                         = fold_left applyDiff (pre ++ (d1 ++ d2) :: post) st).
  { intros st. rewrite !fold_left_app. cbn [fold_left]. now rewrite applyDiff_drop. }
  unfold merge. destruct pre as [|d0 pre]; cbn [app] in *; now rewrite E.
Qed.

Lemma merge_keeps b ds d c :
  d ∈ ds -> c ∈ d -> dadded c = true ->
  Line c ∈ merge (Some b) (Some ds) \/ Line (markConflicted c) ∈ merge (Some b) (Some ds).
Proof.
  intros Hd Hc Ha. destruct ds as [|d0 ds0]; [now apply elem_of_nil in Hd|].
  rewrite merge_cons.
  destruct (patched_spec (map Line b) (d0 :: ds0)) as [_ Hget].
  specialize (Hget (lineNumber c)).
  assert (Hin : c ∈ changesAt (lineNumber c) (d0 :: ds0)).
  { unfold changesAt. apply list_elem_of_filter. split; [now split|].
    apply list_elem_of_In, in_concat. exists d. split; now apply list_elem_of_In. }
  unfold entryAt in Hget. destruct (changesAt (lineNumber c) (d0 :: ds0)) as [|c0 cs] eqn:E.
  { now apply elem_of_nil in Hin. }
  pose proof (get_markConflicts (patched (map Line b) (d0 :: ds0)).2 (lineNumber c)) as Hm.
  rewrite Hget in Hm. cbn [fmap option_fmap option_map] in Hm.
  unfold markPatch in Hm. cbn [modifyLength changes] in Hm.
  destruct (1 <? countAt (lineNumber c) (d0 :: ds0)).
  - right. eapply merged_patch; [exact Hm|]. cbn [changes].
    apply list_elem_of_fmap. eauto.
  - left. eapply merged_patch; [exact Hm|]. exact Hin.
Qed.

End MergerFacts.

(** ** Merger: the length of the arrays *)

Section BoundedFacts.

Implicit Types (b d : list DiffChange) (ds : list (list DiffChange)) (c : DiffChange)
               (pt : Patch.t) (od : list Slot).

Lemma array_Some {A} (l l' : list A) :
  Js.array l = Some l' -> l' = l /\ Z.of_nat (length l) <= 2 ^ 32 - 1.
Proof. unfold Js.array. case_decide; [intros [= <-]; now split | discriminate]. Qed.

Lemma array_fits {A} (l : list A) : Z.of_nat (length l) <= 2 ^ 32 - 1 -> Js.array l = Some l.
Proof. intros H. unfold Js.array. now rewrite decide_True. Qed.

Lemma array_long {A} (l : list A) : 2 ^ 32 - 1 < Z.of_nat (length l) -> Js.array l = None.
Proof. intros H. unfold Js.array. rewrite decide_False; [reflexivity | lia]. Qed.

Lemma array_None {A} (l : list A) : Js.array l = None -> 2 ^ 32 - 1 < Z.of_nat (length l).
Proof. unfold Js.array. case_decide; [discriminate | lia]. Qed.

Lemma succ_fits (k m : nat) :
  Z.of_nat m < 2 ^ 32 - 1 -> (k <= m)%nat -> Z.of_nat (S k) <= 2 ^ 32 - 1.
Proof. lia. Qed.

Lemma foldOpt_app {A B} (f : A -> B -> option A) (l1 l2 : list B) (a : A) :
  foldOpt f (l1 ++ l2) a = foldOpt f l1 a ≫= foldOpt f l2.
Proof.
  revert a. induction l1 as [|x l1 IH]; intros a; [reflexivity|].
  cbn [app foldOpt]. destruct (f a x); [apply IH | reflexivity].
Qed.

Lemma foldOpt_agrees {A B} (f : A -> B -> option A) (g : A -> B -> A) (l : list B) (a r : A) :
  (forall a x r, f a x = Some r -> r = g a x) ->
  foldOpt f l a = Some r -> r = fold_left g l a.
Proof.
  intros Hfg. revert a. induction l as [|x l IH]; intros a; cbn [foldOpt fold_left].
  - now intros [= <-].
  - destruct (f a x) as [a'|] eqn:E; [|discriminate].
    apply Hfg in E as ->. apply IH.
Qed.

(** When a loop of [Bounded.merge] ends, its state is that of [merge]. *)
Lemma bounded_applyChange st c st' :
  Bounded.applyChange st c = Some st' -> st' = applyChange st c.
Proof.
  destruct st as [od pt]. unfold Bounded.applyChange, applyChange. destruct (dadded c).
  - destruct (Patch.get _ _) as [p|]; [|discriminate]. cbn [mbind option_bind].
    destruct (Js.push _ _); [|discriminate]. cbn [mbind option_bind]. now intros [= <-].
  - destruct (dremoved c); now intros [= <-].
Qed.

Lemma bounded_applyDiff st d st' :
  Bounded.applyDiff st d = Some st' -> st' = applyDiff st d.
Proof.
  unfold Bounded.applyDiff, applyDiff.
  destruct (foldOpt Bounded.applyChange d st) as [[od pt]|] eqn:E; [|discriminate].
  apply (foldOpt_agrees _ applyChange) in E; [|apply bounded_applyChange].
  rewrite <- E. cbn [mbind option_bind]. now intros [= <-].
Qed.

(** The final [reduce] returns the list of [interleave], if it has the
    length of an array. *)
Lemma reduceBlocks_interleave (blocks : list (list Slot)) (patches : list PatchItem)
                              (acc : list Slot) :
  Z.of_nat (length acc) <= 2 ^ 32 - 1 ->
  Bounded.reduceBlocks blocks patches acc = Js.array (acc ++ interleave blocks patches).
Proof.
  revert patches acc. induction blocks as [|blk blocks IH]; intros patches acc Hacc.
  - cbn [Bounded.reduceBlocks interleave]. rewrite app_nil_r. now rewrite array_fits.
  - cbn [Bounded.reduceBlocks]. unfold Js.concat.
    destruct (Js.array (acc ++ blk)) as [r|] eqn:E; cbn [mbind option_bind].
    + apply array_Some in E as [-> H1]. destruct patches as [|p ps]; cbn [interleave].
      * rewrite IH by exact H1. now rewrite <- app_assoc.
      * destruct (Js.array ((acc ++ blk) ++ map Line (changes p))) as [r'|] eqn:E';
          cbn [mbind option_bind].
        -- apply array_Some in E' as [-> H2]. rewrite IH by exact H2.
           now rewrite <- !app_assoc.
        -- apply array_None in E'. symmetry. apply array_long.
           rewrite !length_app in *. lia.
    + apply array_None in E. symmetry. apply array_long.
      destruct patches; cbn [interleave]; rewrite !length_app in *; lia.
Qed.

Lemma grown_refl pt : grown pt pt.
Proof. intros k p Hp. eauto. Qed.

Lemma grown_trans pt1 pt2 pt3 : grown pt1 pt2 -> grown pt2 pt3 -> grown pt1 pt3.
Proof.
  intros H1 H2 k p Hp. destruct (H1 k p Hp) as (p' & Hp' & Hl).
  destruct (H2 k p' Hp') as (p'' & Hp'' & Hl'). exists p''. split; [exact Hp'' | lia].
Qed.

Lemma roomy_grown pt pt' : grown pt pt' -> roomy pt' -> roomy pt.
Proof.
  intros Hg Hr k p Hp. destruct (Hg k p Hp) as (p' & Hp' & Hl).
  specialize (Hr k p' Hp'). lia.
Qed.

Lemma grown_pushAdded pt c : grown pt (pushAdded pt c).
Proof.
  intros k p Hp. rewrite get_pushAdded, Hp. destruct (decide (lineNumber c = k)).
  - eexists. split; [reflexivity|]. cbn. rewrite length_app. lia.
  - eauto.
Qed.

Lemma grown_pushAll (l : list DiffChange) pt : grown pt (fold_left pushAdded l pt).
Proof.
  revert pt. induction l as [|c l IH]; intros pt; [apply grown_refl|].
  cbn [fold_left]. eapply grown_trans; [apply grown_pushAdded | apply IH].
Qed.

Lemma grown_bumpAll (ks : list Z) pt :
  NoDup ks -> grown pt (fold_left (fun pt n => Patch.update pt n bumpModifyLength) ks pt).
Proof.
  intros Hks k p Hp. rewrite (get_bumpAll ks pt k Hks), Hp.
  destruct (decide (k ∈ ks)); eexists; (split; [reflexivity|]); cbn; lia.
Qed.

Lemma grown_applyDiff od pt d : grown pt (applyDiff (od, pt) d).2.
Proof.
  unfold applyDiff. rewrite fold_applyChange. cbn [snd].
  eapply grown_trans; [apply grown_pushAll | apply grown_bumpAll, uniq_NoDup].
Qed.

Lemma grown_patched ds od pt : grown pt (fold_left applyDiff ds (od, pt)).2.
Proof.
  revert od pt. induction ds as [|d ds IH]; intros od pt; [apply grown_refl|].
  cbn [fold_left]. pose proof (grown_applyDiff od pt d) as H.
  destruct (applyDiff (od, pt) d) as [od' pt']. cbn [snd] in H.
  eapply grown_trans; [exact H | apply IH].
Qed.

(** The loops of [Bounded.merge] end when no entry of the patch table gets
    too long. *)
Lemma bounded_applyChange_roomy od pt c :
  roomy (applyChange (od, pt) c).2 ->
  Bounded.applyChange (od, pt) c = Some (applyChange (od, pt) c).
Proof.
  unfold Bounded.applyChange, applyChange.
  destruct (dadded c); [|destruct (dremoved c); reflexivity].
  cbn [snd]. intros Hroomy.
  pose proof (get_ensure pt (lineNumber c) (lineNumber c)) as Hg.
  rewrite decide_True in Hg by reflexivity.
  destruct (Patch.get (Patch.ensure pt (lineNumber c)) (lineNumber c)) as [p0|] eqn:E0.
  2: { destruct (Patch.get pt (lineNumber c)); discriminate. }
  cbn [mbind option_bind]. unfold Js.push. rewrite array_fits; [reflexivity|].
  specialize (Hroomy (lineNumber c) (pushChange c p0)).
  rewrite get_update, decide_True, E0 in Hroomy by reflexivity.
  exact (Hroomy eq_refl).
Qed.

Lemma bounded_fold_applyChange_roomy d od pt :
  roomy (fold_left applyChange d (od, pt)).2 ->
  foldOpt Bounded.applyChange d (od, pt) = Some (fold_left applyChange d (od, pt)).
Proof.
  revert od pt. induction d as [|c d IH]; intros od pt H; [reflexivity|].
  cbn [foldOpt fold_left] in *.
  destruct (applyChange (od, pt) c) as [od' pt'] eqn:E.
  rewrite bounded_applyChange_roomy; rewrite E.
  - now apply IH.
  - cbn [snd]. eapply roomy_grown; [|exact H].
    rewrite fold_applyChange. cbn [snd]. apply grown_pushAll.
Qed.

Lemma bounded_applyDiff_roomy od pt d :
  roomy (applyDiff (od, pt) d).2 ->
  Bounded.applyDiff (od, pt) d = Some (applyDiff (od, pt) d).
Proof.
  intros H. unfold Bounded.applyDiff. rewrite bounded_fold_applyChange_roomy.
  - unfold applyDiff. destruct (fold_left applyChange d (od, pt)). reflexivity.
  - eapply roomy_grown; [|exact H]. unfold applyDiff.
    destruct (fold_left applyChange d (od, pt)) as [od' pt']. cbn [snd].
    apply grown_bumpAll, uniq_NoDup.
Qed.

Lemma bounded_patched_roomy ds od pt :
  roomy (fold_left applyDiff ds (od, pt)).2 ->
  foldOpt Bounded.applyDiff ds (od, pt) = Some (fold_left applyDiff ds (od, pt)).
Proof.
  revert od pt. induction ds as [|d ds IH]; intros od pt H; [reflexivity|].
  cbn [foldOpt fold_left] in *.
  destruct (applyDiff (od, pt) d) as [od' pt'] eqn:E.
  rewrite bounded_applyDiff_roomy; rewrite E.
  - now apply IH.
  - cbn [snd]. eapply roomy_grown; [apply grown_patched | exact H].
Qed.

(** Every entry of the patch table is in the merged list. *)
Lemma assemble_length od (n : Z) (es : list (Z * PatchItem)) (k : Z) (p : PatchItem) :
  (k, p) ∈ es -> (length (changes p) <= length (assemble od n es))%nat.
Proof.
  revert n. induction es as [|[k' p'] es IH]; intros n Hin.
  - now apply elem_of_nil in Hin.
  - cbn [assemble]. rewrite !length_app, length_map.
    apply elem_of_cons in Hin as [[= <- <-]|Hin]; [lia|].
    specialize (IH k' Hin). lia.
Qed.

Lemma assemble_count od (n : Z) (es : list (Z * PatchItem)) :
  Forall (fun e => changes e.2 <> []) es -> (length es <= length (assemble od n es))%nat.
Proof.
  intros H. revert n. induction H as [|[k p] es Hp _ IH]; intros n; [cbn; lia|].
  cbn [assemble length]. rewrite !length_app, length_map. cbn [snd] in Hp.
  specialize (IH k). destruct (changes p); [contradiction|]. cbn [length]. lia.
Qed.

Lemma length_markPatch (p : PatchItem) : length (changes (markPatch p)) = length (changes p).
Proof. unfold markPatch. destruct (1 <? modifyLength p); [apply length_map | reflexivity]. Qed.

Lemma merged_roomy od pt :
  Z.of_nat (length (merged od (markConflicts pt))) <= 2 ^ 32 - 1 -> roomy pt.
Proof.
  intros H k p Hp. pose proof (get_markConflicts pt k) as Hm. rewrite Hp in Hm.
  cbn [fmap option_fmap option_map] in Hm.
  assert (Hin : (k, markPatch p)
                ∈ entriesOf (markConflicts pt) (Patch.keys (markConflicts pt))).
  { apply entriesOf_elem; [|exact Hm]. apply keys_elem, get_is_Some. eauto. }
  apply (assemble_length od (-1)) in Hin. rewrite length_markPatch in Hin.
  unfold merged in H. lia.
Qed.

(** The merged list holds a line for every key of the patch table. *)
Lemma merged_keys od od' ds :
  (length (Patch.keys (markConflicts (patched od ds).2))
   <= length (merged od' (markConflicts (patched od ds).2)))%nat.
Proof.
  destruct (patched_spec od ds) as [_ Hget].
  set (pt := (patched od ds).2) in *.
  destruct (entriesOf_present (markConflicts pt) (Patch.keys (markConflicts pt))) as [E1 _].
  { apply Forall_forall. intros k. apply keys_elem. }
  rewrite <- E1 at 1. rewrite length_fmap. unfold merged. apply assemble_count.
  apply Forall_forall. intros [k p] Hin. cbn [snd].
  unfold entriesOf in Hin. apply list_elem_of_omap in Hin as (k' & _ & Hk').
  rewrite get_markConflicts, Hget in Hk'. unfold entryAt in Hk'.
  destruct (changesAt k' ds) as [|c0 cs]; [discriminate|].
  cbn [fmap option_fmap option_map] in Hk'. injection Hk' as _ <-.
  intros E. apply (f_equal (@length _)) in E. rewrite length_markPatch in E. discriminate.
Qed.

(** What [Bounded.merge] returns. *)
Lemma bounded_merge_Some b (diffList : option (list (list DiffChange))) (l : list Slot) :
  Bounded.merge (Some b) diffList = Some l ->
  l = merge (Some b) diffList
  /\ (Z.of_nat (length b) <= 2 ^ 32 - 1 -> Z.of_nat (length l) <= 2 ^ 32 - 1).
Proof.
  unfold Bounded.merge, merge.
  destruct diffList as [[|d ds]|];
    [intros [= <-]; now rewrite length_map| |intros [= <-]; now rewrite length_map].
  destruct (foldOpt Bounded.applyDiff (d :: ds) (map Line b, [])) as [[od pt]|] eqn:E;
    [|discriminate].
  apply (foldOpt_agrees _ applyDiff) in E; [|apply bounded_applyDiff]. rewrite <- E.
  cbn [mbind option_bind]. unfold Js.unshift.
  destruct (Js.array (-1 :: Patch.keys (markConflicts pt))) as [ln|] eqn:E1; [|discriminate].
  apply array_Some in E1 as [-> _]. cbn [mbind option_bind].
  rewrite reduceBlocks_interleave by (cbn; lia). cbn [app].
  intros H. apply array_Some in H as [-> H]. now split.
Qed.

Lemma bounded_merge_fits b (diffList : option (list (list DiffChange))) :
  Z.of_nat (length (merge (Some b) diffList)) < 2 ^ 32 - 1 ->
  Bounded.merge (Some b) diffList = Some (merge (Some b) diffList).
Proof.
  destruct diffList as [[|d ds]|]; [reflexivity| |reflexivity].
  rewrite merge_cons. intros H.
  pose proof (merged_keys (map Line b) (patched (map Line b) (d :: ds)).1 (d :: ds)) as Hk.
  unfold Bounded.merge. rewrite bounded_patched_roomy.
  2: { apply (merged_roomy (patched (map Line b) (d :: ds)).1). apply Z.lt_le_incl. exact H. }
  cbn [mbind option_bind].
  change (fold_left applyDiff (d :: ds) (map Line b, [])) with (patched (map Line b) (d :: ds)).
  destruct (patched (map Line b) (d :: ds)) as [od pt]. cbn [fst snd] in *.
  unfold Js.unshift. rewrite array_fits by (cbn [length]; exact (succ_fits _ _ H Hk)).
  cbn [mbind option_bind]. rewrite reduceBlocks_interleave by (cbn; lia). cbn [app].
  assert (E : interleave (sliceBlocks od (-1 :: Patch.keys (markConflicts pt)))
                         (omap (Patch.get (markConflicts pt)) (Patch.keys (markConflicts pt)))
              = merged od (markConflicts pt)).
  { unfold merged.
    destruct (entriesOf_present (markConflicts pt) (Patch.keys (markConflicts pt))) as [E1 E2].
    { apply Forall_forall. intros k. apply keys_elem. }
    rewrite <- E2.
    set (es := entriesOf (markConflicts pt) (Patch.keys (markConflicts pt))) in *.
    rewrite <- E1. apply interleave_sliceBlocks. }
  rewrite E. apply array_fits. lia.
Qed.

Lemma bounded_merge_long b (diffList : option (list (list DiffChange))) :
  Z.of_nat (length b) <= 2 ^ 32 - 1 ->
  2 ^ 32 - 1 < Z.of_nat (length (merge (Some b) diffList)) ->
  Bounded.merge (Some b) diffList = None.
Proof.
  intros Hb H. destruct (Bounded.merge (Some b) diffList) as [l|] eqn:E; [|reflexivity].
  apply bounded_merge_Some in E as [-> Hl]. specialize (Hl Hb). lia.
Qed.

(** An inert change can be taken out of its overlay. *)
Lemma bounded_applyChange_inert (st : list Slot * Patch.t) c :
  inert c -> Bounded.applyChange st c = Some st.
Proof.
  intros [Ha Hr]. destruct st as [od pt]. unfold Bounded.applyChange. rewrite Ha.
  destruct (dremoved c); [|reflexivity].
  destruct Hr as [Hr|Hr]; [discriminate|]. unfold setRemoved. now rewrite Hr.
Qed.

Lemma bounded_applyDiff_drop (st : list Slot * Patch.t) (d1 d2 : list DiffChange) c :
  inert c -> Bounded.applyDiff st (d1 ++ c :: d2) = Bounded.applyDiff st (d1 ++ d2).
Proof.
  intros Hc. unfold Bounded.applyDiff. rewrite !foldOpt_app. cbn [foldOpt].
  rewrite !filter_app. rewrite (filter_cons_False _ c) by (destruct Hc as [Ha _]; now rewrite Ha).
  destruct (foldOpt Bounded.applyChange d1 st) as [st1|]; [|reflexivity].
  cbn [mbind option_bind]. now rewrite (bounded_applyChange_inert st1 c Hc).
Qed.

Lemma bounded_merge_drop b (pre post : list (list DiffChange)) (d1 d2 : list DiffChange) c :
  inert c ->
  Bounded.merge (Some b) (Some (pre ++ (d1 ++ c :: d2) :: post))
  = Bounded.merge (Some b) (Some (pre ++ (d1 ++ d2) :: post)).
Proof.
  intros Hc.
  assert (E : forall st, foldOpt Bounded.applyDiff (pre ++ (d1 ++ c :: d2) :: post) st
                         = foldOpt Bounded.applyDiff (pre ++ (d1 ++ d2) :: post) st).
  { intros st. rewrite !foldOpt_app.
    destruct (foldOpt Bounded.applyDiff pre st) as [st1|]; [|reflexivity].
    cbn [mbind option_bind foldOpt]. now rewrite bounded_applyDiff_drop. }
  unfold Bounded.merge. destruct pre as [|d0 pre]; cbn [app] in *; now rewrite E.
Qed.

End BoundedFacts.

(** C5 (as amended): [merge] returns the baseline as it is when there is no
    overlay, and nothing when the baseline is [null]; on an empty baseline it
    returns nothing when no overlay change is added or removed. *)
Theorem merge_guards :
  (forall b, merge (Some b) None = map Line b /\ merge (Some b) (Some []) = map Line b)
  /\ (forall diffList, merge None diffList = [])
  /\ (forall diffList,
        Forall (Forall (fun c => dadded c = false /\ dremoved c = false)) diffList ->
        merge (Some []) (Some diffList) = []).
Proof.
  split; [intros b; split; reflexivity|]. split; [reflexivity|].
  intros ds H. destruct ds as [|d ds]; [reflexivity|].
  rewrite merge_cons, patched_inert; [reflexivity|].
  eapply Forall_impl; [exact H|]. intros d' Hd'. eapply Forall_impl; [exact Hd'|].
  intros c [Ha Hr]. split; [exact Ha | now left].
Qed.

Lemma merge_guards_witness : merge (Some []) (Some [[lineA; lineB]]) = [].
Proof.
  apply (proj2 (proj2 merge_guards)).
  repeat constructor.
Defined.

(** C5 (as stated) fails on an empty baseline: the insertions of the overlays
    are returned. *)
Lemma merge_empty_baseline :
  merge (Some []) (Some [[insertion "X" (-1)]]) = [Line (insertion "X" (-1))].
Proof. reflexivity. Qed.

(** C6 (as amended): on change lists, the added line numbers being below
    [10^21] in size, [merge] throws nothing but the [RangeError] of an array
    that would get more than [2^32 - 1] slots.  When it returns, it returns
    the merged list; it returns whenever that list has fewer than [2^32 - 1]
    slots, and it throws whenever that list has more.  An overlay change that
    is neither added nor removed, or that is removed with a line number below
    zero (or too large for an array index), is dropped: the result, or the
    error, is the one obtained without it.  An added change is never dropped,
    whatever its line number: it is in the merged list, marked as a conflict
    or not. *)
Theorem merge_out_of_range (b : list DiffChange) :
  (forall diffList,
     Forall (Forall decimalKey) diffList ->
     (forall l, Bounded.merge (Some b) (Some diffList) = Some l ->
                l = merge (Some b) (Some diffList))
     /\ (Z.of_nat (length (merge (Some b) (Some diffList))) < 2 ^ 32 - 1 ->
         Bounded.merge (Some b) (Some diffList) = Some (merge (Some b) (Some diffList)))
     /\ (Z.of_nat (length b) <= 2 ^ 32 - 1 ->
         2 ^ 32 - 1 < Z.of_nat (length (merge (Some b) (Some diffList))) ->
         Bounded.merge (Some b) (Some diffList) = None))
  /\ (forall pre post d1 d2 c,
        dadded c = false ->
        (dremoved c = false \/ lineNumber c < 0 \/ 2 ^ 32 - 1 <= lineNumber c) ->
        merge (Some b) (Some (pre ++ (d1 ++ c :: d2) :: post))
        = merge (Some b) (Some (pre ++ (d1 ++ d2) :: post))
        /\ Bounded.merge (Some b) (Some (pre ++ (d1 ++ c :: d2) :: post))
           = Bounded.merge (Some b) (Some (pre ++ (d1 ++ d2) :: post)))
  /\ (forall diffList d c,
        d ∈ diffList -> c ∈ d -> dadded c = true ->
        Line c ∈ merge (Some b) (Some diffList)
        \/ Line (markConflicted c) ∈ merge (Some b) (Some diffList)).
Proof.
  split; [|split].
  - intros diffList _. split; [|split].
    + intros l H. now apply bounded_merge_Some in H.
    + apply bounded_merge_fits.
    + apply bounded_merge_long.
  - intros pre post d1 d2 c Ha Hr.
    assert (Hc : inert c).
    { split; [exact Ha|]. destruct Hr as [Hr|Hr]; [now left | right].
      unfold Js.isArrayIndex. apply andb_false_iff.
      destruct Hr as [Hr|Hr]; [left; lia | right; lia]. }
    split; [now apply merge_drop | now apply bounded_merge_drop].
  - intros ds d c. apply merge_keeps.
Qed.

Lemma merge_out_of_range_witness :
  Bounded.merge (Some [lineA]) (Some [[lineA; insertion "X" 7]])
  = Some (merge (Some [lineA]) (Some [[lineA; insertion "X" 7]]))
  /\ merge (Some [lineA]) (Some [[lineA; removal "Q" (-3)]])
     = merge (Some [lineA]) (Some [[lineA]])
  /\ Bounded.merge (Some [lineA]) (Some [[lineA; removal "Q" (-3)]])
     = Bounded.merge (Some [lineA]) (Some [[lineA]])
  /\ (Line (insertion "X" 7) ∈ merge (Some [lineA]) (Some [[lineA; insertion "X" 7]])
      \/ Line (markConflicted (insertion "X" 7))
           ∈ merge (Some [lineA]) (Some [[lineA; insertion "X" 7]])).
Proof.
  split; [|split; [|split]].
  - apply (proj1 (proj2 (proj1 (merge_out_of_range [lineA])
                                [[lineA; insertion "X" 7]]
                                ltac:(apply (bool_decide_unpack _); vm_compute; exact I)))).
    vm_compute. reflexivity.
  - apply (proj1 (proj2 (merge_out_of_range [lineA])) [] [] [lineA] [] (removal "Q" (-3)));
      [reflexivity | right; left; reflexivity].
  - apply (proj1 (proj2 (merge_out_of_range [lineA])) [] [] [lineA] [] (removal "Q" (-3)));
      [reflexivity | right; left; reflexivity].
  - apply (proj2 (proj2 (merge_out_of_range [lineA])) [[lineA; insertion "X" 7]]
                 [lineA; insertion "X" 7] (insertion "X" 7));
      [left | right; left | reflexivity].
Defined.

(** C6 (as stated) fails: an insertion anchored past the end of the baseline
    is appended, and a removal past the end makes the result longer. *)
Lemma merge_keeps_out_of_range :
  merge (Some [lineA]) (Some [[insertion "X" 7]]) = [Line lineA; Line (insertion "X" 7)]
  /\ merge (Some [lineA]) (Some [[removal "Q" 2]]) = [Line lineA; Hole; Stub]
  /\ merge (Some [lineA]) (Some [[]]) = [Line lineA].
Proof. repeat split; reflexivity. Qed.

(** ** Merger: slices of the working array *)

Section SliceFacts.

Context {A : Type}.
Implicit Types (l : list A).

Lemma slice_nat l (s e : nat) :
  (s <= e)%nat ->
  Js.slice l (Z.of_nat s) (Some (Z.of_nat e)) = take (e - s) (drop s l).
Proof.
  intros Hse. unfold Js.slice, Js.relIndex.
  destruct (Z.ltb_spec (Z.of_nat s) 0) as [?|_]; [lia|].
  destruct (Z.ltb_spec (Z.of_nat e) 0) as [?|_]; [lia|].
  destruct (decide (length l <= s)%nat) as [Hs|Hs].
  - rewrite (drop_ge l s) by exact Hs. rewrite take_nil.
    replace (Z.to_nat (Z.of_nat s `min` Z.of_nat (length l))) with (length l) by lia.
    rewrite drop_ge by lia. now rewrite take_nil.
  - replace (Z.to_nat (Z.of_nat s `min` Z.of_nat (length l))) with s by lia.
    destruct (decide (length l <= e)%nat) as [He|He].
    + rewrite !take_ge; [reflexivity | rewrite length_drop; lia | rewrite length_drop; lia].
    + f_equal. lia.
Qed.

Lemma slice_to_end l (s : nat) : Js.slice l (Z.of_nat s) None = drop s l.
Proof.
  unfold Js.slice, Js.relIndex.
  destruct (Z.ltb_spec (Z.of_nat s) 0) as [?|_]; [lia|].
  destruct (decide (length l <= s)%nat) as [Hs|Hs].
  - rewrite (drop_ge l s) by exact Hs.
    replace (Z.to_nat (Z.of_nat s `min` Z.of_nat (length l))) with (length l) by lia.
    rewrite drop_ge by lia. now rewrite take_nil.
  - replace (Z.to_nat (Z.of_nat s `min` Z.of_nat (length l))) with s by lia.
    apply take_ge. rewrite length_drop. lia.
Qed.


Lemma slice_prefix l (e : Z) : 0 <= e -> Js.slice l 0 (Some e) = take (Z.to_nat e) l.
Proof.
  intros He. rewrite <- (Z2Nat.id e) at 1 by lia.
  change 0 with (Z.of_nat 0). rewrite slice_nat by lia.
  rewrite Nat.sub_0_r. reflexivity.
Qed.


Lemma filter_all (P : A -> Prop) `{!forall x, Decision (P x)} l :
  Forall P l -> filter P l = l.
Proof.
  induction 1 as [|x l Hx _ IH]; [reflexivity|].
  rewrite filter_cons_True by exact Hx. now rewrite IH.
Qed.

Lemma filter_none (P : A -> Prop) `{!forall x, Decision (P x)} l :
  Forall (fun x => ~ P x) l -> filter P l = [].
Proof.
  induction 1 as [|x l Hx _ IH]; [reflexivity|].
  rewrite filter_cons_False by exact Hx. exact IH.
Qed.

End SliceFacts.

(** A removal past the end makes the working array longer: an overlay that
    inserts a line after the first one and removes line [n] gives the first
    line, the insertion, and then holes up to the entry [{removed: true}] at
    index [n]. *)
Lemma merge_removal_past_the_end (n : Z) :
  Js.isArrayIndex n = true -> 1 <= n ->
  merge (Some [lineA]) (Some [[insertion "X" 0; removal "Q" n]])
  = [Line lineA; Line (insertion "X" 0)] ++ replicate (Z.to_nat n - 1) Hole ++ [Stub].
Proof.
  intros Hn Hle.
  assert (E : merge (Some [lineA]) (Some [[insertion "X" 0; removal "Q" n]])
              = Js.slice (setRemoved [Line lineA] n) 0 (Some 1)
                ++ [Line (insertion "X" 0)]
                ++ Js.slice (setRemoved [Line lineA] n) (Z.of_nat 1) None ++ [])
    by reflexivity.
  rewrite E, app_nil_r, slice_prefix, slice_to_end by lia.
  unfold setRemoved. rewrite Hn. rewrite decide_False by (cbn [length]; lia).
  reflexivity.
Qed.

(** With the removal at the last index an array can have, the working array
    is as long as an array can be, and the merged list is one slot longer:
    the last [concat] of [merge] throws a [RangeError]. *)
Example merge_throws_past_the_longest_array :
  Bounded.merge (Some [lineA]) (Some [[insertion "X" 0; removal "Q" 4294967294]]) = None.
Proof.
  apply bounded_merge_long; [cbn [length]; lia|].
  rewrite (merge_removal_past_the_end 4294967294 eq_refl) by lia.
  rewrite length_app, length_app, length_replicate. cbn [length]. lia.
Qed.

Section WeavingFacts.

Implicit Types (od : list Slot) (es : list (Z * PatchItem)) (n k a : Z).





End WeavingFacts.

(** ** Merger: two overlays on one anchor *)

Section ConflictFacts.

Implicit Types (b d : list DiffChange) (ds : list (list DiffChange)) (c : DiffChange)
               (od : list Slot) (pt : Patch.t) (k a : Z).

Lemma sameLine_markRemoved (s : Slot) c : sameLine s c -> sameLine (markRemoved s) c.
Proof. intros [->| ->]; right; reflexivity. Qed.

Lemma setRemoved_sameLine od b k :
  Z.of_nat (length b) <= 2 ^ 32 - 1 -> 0 <= k < Z.of_nat (length b) ->
  Forall2 sameLine od b -> Forall2 sameLine (setRemoved od k) b.
Proof.
  intros Hlen Hk H. unfold setRemoved, Js.isArrayIndex.
  destruct (Z.leb_spec 0 k) as [_|?]; [|lia].
  destruct (Z.ltb_spec k (2 ^ 32 - 1)) as [_|?]; [|lia]. cbn [andb].
  pose proof (Forall2_length _ _ _ H) as El.
  rewrite decide_True by lia.
  apply Forall2_alter_l; [exact H|]. intros s c _ _. apply sameLine_markRemoved.
Qed.

Lemma fold_setRemoved_sameLine (ks : list Z) od b :
  Z.of_nat (length b) <= 2 ^ 32 - 1 ->
  Forall (fun k => 0 <= k < Z.of_nat (length b)) ks ->
  Forall2 sameLine od b -> Forall2 sameLine (fold_left setRemoved ks od) b.
Proof.
  intros Hlen Hks. revert od. induction Hks as [|k ks Hk _ IH]; intros od H; [exact H|].
  cbn [fold_left]. apply IH. now apply setRemoved_sameLine.
Qed.

Lemma removalsOf_range b d :
  Forall (overlayChange b) d ->
  Forall (fun k => 0 <= k < Z.of_nat (length b)) (removalsOf d).
Proof.
  intros H. unfold removalsOf. apply Forall_fmap, Forall_forall. intros c Hc.
  apply list_elem_of_filter in Hc as [[Ha Hr] Hc].
  rewrite Forall_forall in H. destruct (H c Hc) as (_ & _ & Hrange). now apply Hrange.
Qed.

(** The working array after the loop: the baseline, some lines marked removed. *)
Lemma patched_sameLine b ds :
  Z.of_nat (length b) <= 2 ^ 32 - 1 ->
  Forall (Forall (overlayChange b)) ds ->
  Forall2 sameLine (patched (map Line b) ds).1 b.
Proof.
  intros Hlen Hds. rewrite patched_fst. apply fold_setRemoved_sameLine; [exact Hlen| |].
  - induction Hds as [|d ds Hd _ IH]; [constructor|].
    rewrite map_cons, concat_cons, Forall_app. split; [now apply removalsOf_range | exact IH].
  - apply Forall2_fmap_l, Forall_Forall2_diag, Forall_forall. intros c _. now left.
Qed.

Lemma sameLine_calm od b :
  Forall (fun c => dadded c = false /\ conflicted c = false) b ->
  Forall2 sameLine od b ->
  Forall calm od /\ Forall (fun s => ~ inserted s) od.
Proof.
  intros Hb H. induction H as [|s c od b Hs _ IH]; [split; constructor|].
  apply Forall_cons in Hb as [[Ha Hc] Hb]. destruct (IH Hb) as [IH1 IH2].
  split; constructor; try assumption.
  - destruct Hs as [->| ->]; simpl; [now right | now left].
  - destruct Hs as [->| ->]; simpl; congruence.
Qed.

Lemma changesAt_elem k ds c :
  c ∈ changesAt k ds <-> dadded c = true /\ lineNumber c = k /\ exists d, d ∈ ds /\ c ∈ d.
Proof.
  unfold changesAt. rewrite list_elem_of_filter, list_elem_of_In, in_concat.
  split.
  - intros [[Ha Hk] (d & Hd & Hc)]. repeat split; try assumption.
    exists d. now rewrite !list_elem_of_In.
  - intros (Ha & Hk & d & Hd & Hc). split; [now split|].
    exists d. now rewrite <- !list_elem_of_In.
Qed.



(** An entry of the table after the conflicts are marked. *)
Lemma get_marked od ds k p :
  Patch.get (markConflicts (patched od ds).2) k = Some p ->
  changesAt k ds <> []
  /\ p = markPatch (mkPatch (changesAt k ds) (countAt k ds)).
Proof.
  rewrite get_markConflicts. destruct (patched_spec od ds) as [_ Hget].
  rewrite Hget. unfold entryAt. destruct (changesAt k ds) as [|c0 cs]; [discriminate|].
  intros [= <-]. split; [discriminate | reflexivity].
Qed.

Lemma entriesOf_inv pt (ks : list Z) k p :
  (k, p) ∈ entriesOf pt ks -> k ∈ ks /\ Patch.get pt k = Some p.
Proof.
  unfold entriesOf. rewrite list_elem_of_omap. intros (k' & Hk' & E).
  destruct (Patch.get pt k') as [p'|] eqn:Eg; [|discriminate].
  injection E as <- <-. now split.
Qed.


Lemma entriesOf_cons pt k (ks : list Z) p :
  Patch.get pt k = Some p -> entriesOf pt (k :: ks) = (k, p) :: entriesOf pt ks.
Proof. intros E. unfold entriesOf. cbn [omap list_omap]. now rewrite E. Qed.


End ConflictFacts.

Lemma okBlocks_OK (vs : list string) : Forall (fun blk => status blk = OK) (okBlocks vs).
Proof. destruct vs; repeat constructor. Qed.

Lemma appendRun_okBlocks (vs : list string) : appendRun OK [] vs = okBlocks vs.
Proof. now destruct vs. Qed.






(** Scenario 3 of the design, run: the conflict fence stands between the two
    baseline lines. *)
Example conflicting_overlays_text :
  parseMergeBlocksToText <$>
    parseDiffToMergeBlocks
      (merge (Some [lineA; lineB])
             (Some [[lineA; insertion "X" 0; lineB]; [lineA; insertion "Y" 0; lineB]]))
  = Some ("A" +:+ Js.NL +:+ "<<<<<<< former" +:+ Js.NL +:+ "=======" +:+ Js.NL
          +:+ "X" +:+ Js.NL +:+ "Y" +:+ Js.NL +:+ ">>>>>>> current" +:+ Js.NL
          +:+ "B" +:+ Js.NL).
Proof. reflexivity. Qed.

(** ** Claims on the generator *)

Section ReportFacts.

Implicit Types (mt : gmap string (list MergeBlock)) (bt : gmap string Buffer) (p : string).

Lemma conflict_pathnames mt p :
  p ∈ getIgnoredConflictedFilePathnameList mt
  <-> exists blocks blk, mt !! p = Some blocks /\ blk ∈ blocks /\ status blk = CONFLICT.
Proof.
  unfold getIgnoredConflictedFilePathnameList.
  rewrite uniq_elem, list_elem_of_In, in_flat_map. split.
  - intros ([q blocks] & Hin & Hp). cbn [fst snd] in Hp.
    apply in_flat_map in Hp as (blk & Hblk & Hq).
    case_bool_decide as Hs; [|contradiction].
    destruct Hq as [<-|[]]. exists blocks, blk.
    split; [now apply elem_of_map_to_list, list_elem_of_In|].
    split; [now apply list_elem_of_In | exact Hs].
  - intros (blocks & blk & Hp & Hblk & Hs). exists (p, blocks).
    split; [now apply list_elem_of_In, elem_of_map_to_list|].
    cbn [fst snd]. apply in_flat_map. exists blk.
    split; [now apply list_elem_of_In|]. rewrite bool_decide_eq_true_2 by exact Hs. now left.
Qed.

(** The earlier revision lists a pathname once for each of its conflict
    blocks that is marked ignored, and no other. *)
Lemma earlier_conflict_pathnames mt p :
  p ∈ Earlier.getIgnoredConflictedFilePathnameList mt
  <-> exists blocks blk, mt !! p = Some blocks /\ blk ∈ blocks
                         /\ status blk = CONFLICT /\ ignored blk = true.
Proof.
  unfold Earlier.getIgnoredConflictedFilePathnameList.
  rewrite list_elem_of_In, in_flat_map. split.
  - intros ([q blocks] & Hin & Hp). cbn [fst snd] in Hp.
    apply in_flat_map in Hp as (blk & Hblk & Hq).
    destruct (bool_decide (status blk = CONFLICT)) eqn:Hs; [|contradiction].
    destruct (ignored blk) eqn:Hi; [|contradiction].
    destruct Hq as [<-|[]]. exists blocks, blk.
    split; [now apply elem_of_map_to_list, list_elem_of_In|].
    split; [now apply list_elem_of_In|]. split; [now apply bool_decide_eq_true in Hs | exact Hi].
  - intros (blocks & blk & Hp & Hblk & Hs & Hi). exists (p, blocks).
    split; [now apply list_elem_of_In, elem_of_map_to_list|].
    cbn [fst snd]. apply in_flat_map. exists blk.
    split; [now apply list_elem_of_In|].
    rewrite bool_decide_eq_true_2 by exact Hs. rewrite Hi. now left.
Qed.

Lemma getResult_files mt bt p :
  files (getResult mt bt) !! p
  = match mt !! p with
    | Some blocks => Some (Text (parseMergeBlocksToText blocks))
    | None => Binary <$> bt !! p
    end.
Proof.
  unfold getResult. cbn [files]. rewrite lookup_union, !lookup_fmap.
  destruct (mt !! p) as [blocks|]; cbn.
  - now destruct (bt !! p).
  - now destruct (bt !! p).
Qed.

Lemma renderBlock_setIgnored (blk : MergeBlock) : renderBlock (setIgnored blk) = renderBlock blk.
Proof. reflexivity. Qed.

Lemma renderBlock_conflict (blk : MergeBlock) :
  status blk = CONFLICT ->
  renderBlock blk = fence (vformer (values blk)) (vcurrent (values blk)).
Proof. intros H. unfold renderBlock, fence. now rewrite H. Qed.

Lemma toText_insert_same (blocks : list MergeBlock) (i : nat) (blk blk' : MergeBlock) :
  blocks !! i = Some blk -> renderBlock blk' = renderBlock blk ->
  parseMergeBlocksToText (<[i := blk']> blocks) = parseMergeBlocksToText blocks.
Proof.
  intros Hi Hr. rewrite !toText_join. f_equal.
  change (map renderBlock (<[i:=blk']> blocks)) with (renderBlock <$> <[i:=blk']> blocks).
  rewrite list_fmap_insert, Hr. apply list_insert_id.
  now rewrite list_lookup_fmap, Hi.
Qed.

End ReportFacts.

(** C2 (as amended): a pathname is in [conflicts] of the result if and only
    if its entry of the merge table holds a [CONFLICT] block, ignored or not. *)
Theorem conflicts_report (mergeTable : gmap string (list MergeBlock))
                         (binaryTable : gmap string Buffer) (p : string) :
  p ∈ conflicts (getResult mergeTable binaryTable)
  <-> exists blocks blk, mergeTable !! p = Some blocks /\ blk ∈ blocks /\ status blk = CONFLICT.
Proof. apply conflict_pathnames. Qed.

(** C2 (as stated) fails: a file whose only conflict block is marked ignored
    is reported. *)
Lemma ignored_conflict_is_reported :
  conflicts (getResult {[ "a.txt" := [setIgnored (conflictBlock ["X" +:+ Js.NL])] ]} ∅)
  = ["a.txt"]
  /\ filter (fun blk => status blk = CONFLICT /\ ignored blk = false)
            [setIgnored (conflictBlock ["X" +:+ Js.NL])] = [].
Proof. split; reflexivity. Qed.

(** C4 (as amended): when the solver answers ['ignored'] for an item, the
    turn of the loop replaces the block by the same block with [ignored] set,
    status and lines kept; the file is in [conflicts]; and the block is
    rendered as before, as the conflict fence with its [former] and [current]
    lines, so the text of the file does not change. *)
Theorem ignored_verdict (World : Type)
    (solver : ConflictSolverData -> World -> ConflictSolverResult * World)
    (totalConflicts : list ConflictBlockMetadata) (item : ConflictBlockMetadata)
    (rest : list ConflictBlockMetadata) (mergeTable : gmap string (list MergeBlock))
    (w w' : World) (blocks : list MergeBlock) (block : MergeBlock) :
  mergeTable !! cpathname item = Some blocks ->
  blocks !! cindex item = Some block ->
  status block = CONFLICT ->
  solver (solverDataOf totalConflicts item blocks block) w = (Ignored, w') ->
  let blocks' := <[cindex item := setIgnored block]> blocks in
  let mergeTable' := <[cpathname item := blocks']> mergeTable in
  resolveStep World solver totalConflicts item rest mergeTable w
  = Some (mkResolver World rest mergeTable' w')
  /\ blocks' !! cindex item = Some (setIgnored block)
  /\ status (setIgnored block) = CONFLICT
  /\ values (setIgnored block) = values block
  /\ ignored (setIgnored block) = true
  /\ (forall binaryTable, cpathname item ∈ conflicts (getResult mergeTable' binaryTable))
  /\ renderBlock (setIgnored block) = fence (vformer (values block)) (vcurrent (values block))
  /\ (forall binaryTable,
        files (getResult mergeTable' binaryTable) !! cpathname item
        = Some (Text (parseMergeBlocksToText blocks))).
Proof.
  intros Hblocks Hblock Hstatus Hsolver blocks' mergeTable'.
  assert (Hlook : blocks' !! cindex item = Some (setIgnored block)).
  { apply list_lookup_insert_eq. now apply lookup_lt_Some in Hblock. }
  split; [|split; [exact Hlook|]].
  { unfold resolveStep. now rewrite Hblocks, Hblock, Hsolver. }
  split; [exact Hstatus|]. split; [reflexivity|]. split; [reflexivity|]. split; [|split].
  - intros bt. apply conflict_pathnames. exists blocks', (setIgnored block).
    split; [apply lookup_insert_eq|]. split; [|exact Hstatus].
    apply list_elem_of_lookup. eauto.
  - rewrite renderBlock_setIgnored. now apply renderBlock_conflict.
  - intros bt. rewrite getResult_files. unfold mergeTable'. rewrite lookup_insert_eq.
    do 2 f_equal. now apply (toText_insert_same blocks (cindex item) block).
Qed.

Lemma ignored_verdict_witness :
  resolveStep unit ignoringSolver [mkConflict "a.txt" 1] (mkConflict "a.txt" 1) [] exampleTable tt
  = Some (mkResolver unit []
            (<["a.txt" := <[1%nat := setIgnored (conflictBlock ["X" +:+ Js.NL; "Y" +:+ Js.NL])]>
                            exampleBlocks]> exampleTable) tt).
Proof.
  exact (proj1 (ignored_verdict unit ignoringSolver [mkConflict "a.txt" 1]
                  (mkConflict "a.txt" 1) [] exampleTable tt tt exampleBlocks
                  (conflictBlock ["X" +:+ Js.NL; "Y" +:+ Js.NL])
                  eq_refl eq_refl eq_refl eq_refl)).
Defined.

(** C4 (as stated) fails on the rendering: the ignored block keeps its fence,
    the text is not the one made of its [current] lines. *)
Lemma ignored_block_keeps_fence :
  (fun r => files (getResult r.1 ∅) !! "a.txt")
    <$> resolveConflicts unit (Some ignoringSolver) 1 exampleTable tt
  = Some (Some (Text (("A" +:+ Js.NL)
                      +:+ fence [] ["X" +:+ Js.NL; "Y" +:+ Js.NL]
                      +:+ ("B" +:+ Js.NL))))
  /\ ("A" +:+ Js.NL) +:+ fence [] ["X" +:+ Js.NL; "Y" +:+ Js.NL] +:+ ("B" +:+ Js.NL)
     <> ("A" +:+ Js.NL) +:+ Js.join ["X" +:+ Js.NL; "Y" +:+ Js.NL] +:+ ("B" +:+ Js.NL).
Proof. split; [reflexivity | discriminate]. Qed.

(** C8, the code at a failing input: with the extend template [react] under
    its id the callback is asked the main questions once and nothing for the
    label [extend:react]; with the template under the key [extend:react] it is
    asked the main questions again; and the earlier revision asks nothing for
    the label [main]. *)
Theorem extend_label_questions :
  asked unit nat
    <$> queryAllTemplateProps (list string) unit tt answersAsLabels nat (Some pickReact)
                              configById 5 initialQuery
  = Some [mainQuestions]
  /\ asked unit nat
       <$> queryAllTemplateProps (list string) unit tt answersAsLabels nat (Some pickReact)
                                 configByLabel 5 initialQuery
     = Some [mainQuestions; mainQuestions]
  /\ asked unit nat
       (earlierGetTemplateProps (list string) unit answersAsLabels nat (Some pickReact)
                                configById None initialQuery)
     = [].
Proof. repeat split; reflexivity. Qed.

Section DeleteFacts.

Variable diffLines : string -> string -> list Change.
Variable matcher : string -> PatternKind -> bool.
Variable World : Type.
Variable conflictsSolver : option (ConflictSolverData -> World -> ConflictSolverResult * World).
Variable templateConfig : TemplateConfig.
Variable targetedExtendTemplateIds : list string.

Implicit Types (mt : gmap string (list MergeBlock)) (bt : gmap string Buffer) (p : string).

Lemma foldOpt_inv {A B} (P : A -> Prop) (f : A -> B -> option A) (l : list B) (a r : A) :
  P a ->
  (forall a0 x a1, x ∈ l -> P a0 -> f a0 x = Some a1 -> P a1) ->
  foldOpt f l a = Some r -> P r.
Proof.
  revert a. induction l as [|x l IH]; intros a Ha Hstep; simpl.
  - now intros [= <-].
  - destruct (f a x) as [a1|] eqn:E; [|discriminate].
    apply IH.
    + eapply Hstep; [left | exact Ha | exact E].
    + intros a0 y a2 Hy. apply Hstep. now right.
Qed.

Lemma deleteFiles_lookup (ct : gmap string (list (list DiffChange))) p :
  matcher p deleteKind = true -> deleteFiles matcher ct !! p = None.
Proof.
  intros Hm. unfold deleteFiles. apply map_lookup_filter_None. right.
  intros diffs _. cbn [fst]. now rewrite Hm.
Qed.

Lemma mergeTemplateFiles_lookup (ct : gmap string (list (list DiffChange))) mt mt' p :
  ct !! p = None -> mt !! p = None ->
  mergeTemplateFiles matcher ct mt = Some mt' -> mt' !! p = None.
Proof.
  intros Hct Hmt. unfold mergeTemplateFiles.
  apply (foldOpt_inv (fun m : gmap string (list MergeBlock) => m !! p = None)); [exact Hmt|].
  intros m [q diffs] m' Hin Hm. cbn [fst snd].
  apply elem_of_map_to_list in Hin.
  assert (Hne : q <> p) by (intros ->; congruence).
  destruct diffs as [|d diffs']; [now intros [= <-]|].
  destruct (mergeEntry matcher q (d :: diffs')) as [blocks|]; [|discriminate].
  cbn. intros [= <-]. now rewrite lookup_insert_ne.
Qed.

Lemma resolveStep_lookup solver totalConflicts item rest mt (w : World) st p :
  mt !! p = None ->
  resolveStep World solver totalConflicts item rest mt w = Some st ->
  rmergeTable World st !! p = None.
Proof.
  intros Hp. unfold resolveStep.
  destruct (mt !! cpathname item) as [blocks|] eqn:Eb; [|discriminate].
  assert (Hne : cpathname item <> p) by (intros E; rewrite E in Eb; congruence).
  destruct (blocks !! cindex item) as [block|]; [|discriminate].
  destruct (solver _ w) as [[| |result|] w']; intros [= <-]; cbn [rmergeTable];
    [exact Hp | now rewrite lookup_insert_ne | now rewrite lookup_insert_ne | exact Hp].
Qed.

Lemma resolveLoop_lookup fuel solver totalConflicts (st st' : ResolverState World) p :
  rmergeTable World st !! p = None ->
  resolveLoop World fuel solver totalConflicts st = Some st' ->
  rmergeTable World st' !! p = None.
Proof.
  revert st. induction fuel as [|fuel IH]; intros st Hp; simpl.
  - destruct (remainedConflictedFileDataList World st); [now intros [= <-] | discriminate].
  - destruct (remainedConflictedFileDataList World st) as [|item rest]; [now intros [= <-]|].
    destruct (resolveStep World solver totalConflicts item rest _ _) as [st1|] eqn:E;
      [|discriminate].
    apply IH. now apply (resolveStep_lookup _ _ _ _ _ _ _ _ Hp E).
Qed.

Lemma resolveConflicts_lookup fuel mt (w : World) mt' w' p :
  mt !! p = None ->
  resolveConflicts World conflictsSolver fuel mt w = Some (mt', w') -> mt' !! p = None.
Proof.
  intros Hp. unfold resolveConflicts. destruct conflictsSolver as [solver|].
  - destruct (resolveLoop World fuel solver _ _) as [st|] eqn:E; [|discriminate].
    cbn. intros [= <- _]. apply (resolveLoop_lookup fuel solver _ _ st p) in E; [exact E|].
    exact Hp.
  - now intros [= <- _].
Qed.

Lemma applyOp_noEntry (tables tables' : ClonedTables) (op : CleanupOp) p :
  ~ addsFile p op -> noEntry tables p ->
  applyOp diffLines tables op = Some tables' -> noEntry tables' p.
Proof.
  intros Hop [H1 H2]. destruct op as [q txt|q buf|qs]; cbn [applyOp addsFile] in *.
  - destruct (clonedMergeTable tables !! q) as [[blocks|]|] eqn:E.
    + now intros [= <-].
    + destruct (parseFileTextToMergeBlocks diffLines txt); [|discriminate].
      cbn. intros [= <-]. split; cbn; [now rewrite lookup_insert_ne | exact H2].
    + destruct (parseFileTextToMergeBlocks diffLines txt); [|discriminate].
      cbn. intros [= <-]. split; cbn; [now rewrite lookup_insert_ne | exact H2].
  - destruct (clonedBinaryTable tables !! q) as [[b|]|] eqn:E.
    + now intros [= <-].
    + intros [= <-]. split; cbn; [exact H1 | now rewrite lookup_insert_ne].
    + intros [= <-]. split; cbn; [exact H1 | now rewrite lookup_insert_ne].
  - intros [= <-]. clear Hop. revert tables H1 H2.
    induction qs as [|q qs IH]; intros tables H1 H2; [now split|].
    cbn [fold_left]. apply IH; cbn.
    + destruct (decide (q = p)) as [->|Hne];
        [now rewrite lookup_insert_eq | now rewrite lookup_insert_ne].
    + destruct (decide (q = p)) as [->|Hne];
        [now rewrite lookup_insert_eq | now rewrite lookup_insert_ne].
Qed.

Lemma runCleanups_lookup mt bt mt' bt' p :
  mt !! p = None -> bt !! p = None ->
  (forall cleanup api ops,
     cleanup ∈ cleanupsOf templateConfig targetedExtendTemplateIds ->
     cleanup api = Some ops -> Forall (fun op => ~ addsFile p op) ops) ->
  runCleanups diffLines templateConfig targetedExtendTemplateIds mt bt = Some (mt', bt') ->
  mt' !! p = None /\ bt' !! p = None.
Proof.
  intros Hmt Hbt Hclean. unfold runCleanups.
  set (api := mkApi _ _ _).
  destruct (foldOpt _ _ _) as [tables|] eqn:E; [|discriminate].
  cbn. intros [= <- <-]. rewrite !lookup_omap.
  apply (foldOpt_inv (fun t => noEntry t p)) in E; [exact E| |].
  - split; cbn; rewrite lookup_fmap; [now rewrite Hmt | now rewrite Hbt].
  - intros t cleanup t' Hin Ht. destruct (cleanup api) as [ops|] eqn:Eo; [|discriminate].
    specialize (Hclean cleanup api ops Hin Eo). intros Hf.
    apply (foldOpt_inv (fun t => noEntry t p) (applyOp diffLines) ops t t' Ht); [|exact Hf].
    intros t0 op t1 Hop Ht0.
    apply applyOp_noEntry; [|exact Ht0]. rewrite Forall_forall in Hclean. now apply Hclean.
Qed.

End DeleteFacts.

(** C7 (as amended): let the methods run in the order of the pipeline --
    delete, merge into the empty merge table, resolve conflicts, run cleanups,
    emit.  A pathname that matches the delete policy has no entry in the cache
    table after the delete step, and it is not in [files] of the result unless
    the binary table holds it or a cleanup adds it. *)
Theorem deleted_pathname_absent
    (diffLines : string -> string -> list Change) (matcher : string -> PatternKind -> bool)
    (World : Type)
    (conflictsSolver : option (ConflictSolverData -> World -> ConflictSolverResult * World))
    (templateConfig : TemplateConfig) (targetedExtendTemplateIds : list string)
    (fuel : nat) (cacheTable : gmap string (list (list DiffChange)))
    (binaryTable binaryTable' : gmap string Buffer)
    (mergedTable resolvedTable cleanedTable : gmap string (list MergeBlock)) (w w' : World) (p : string) :
  mergeTemplateFiles matcher (deleteFiles matcher cacheTable) ∅ = Some mergedTable ->
  resolveConflicts World conflictsSolver fuel mergedTable w = Some (resolvedTable, w') ->
  runCleanups diffLines templateConfig targetedExtendTemplateIds resolvedTable binaryTable
  = Some (cleanedTable, binaryTable') ->
  matcher p deleteKind = true ->
  binaryTable !! p = None ->
  (forall cleanup api ops,
     cleanup ∈ cleanupsOf templateConfig targetedExtendTemplateIds ->
     cleanup api = Some ops -> Forall (fun op => ~ addsFile p op) ops) ->
  deleteFiles matcher cacheTable !! p = None
  /\ files (getResult cleanedTable binaryTable') !! p = None.
Proof.
  intros E1 E2 E3 Hm Hbt Hclean.
  pose proof (deleteFiles_lookup matcher cacheTable p Hm) as Hct.
  split; [exact Hct|].
  pose proof (mergeTemplateFiles_lookup matcher _ ∅ mergedTable p Hct (lookup_empty p) E1) as H1.
  pose proof (resolveConflicts_lookup World conflictsSolver fuel mergedTable w resolvedTable w' p H1 E2)
    as H2.
  destruct (runCleanups_lookup diffLines templateConfig targetedExtendTemplateIds
              resolvedTable binaryTable cleanedTable binaryTable' p H2 Hbt Hclean E3) as [H3 H4].
  rewrite getResult_files, H3, H4. reflexivity.
Qed.

Lemma deleted_pathname_absent_witness :
  deleteFiles tmpMatcher exampleCache !! "x.tmp" = None
  /\ files (getResult exampleMerged ∅) !! "x.tmp" = None.
Proof.
  apply (deleted_pathname_absent LineDiff.diffLines tmpMatcher unit None noCleanups [] 0
           exampleCache ∅ ∅ exampleMerged exampleMerged exampleMerged tt tt "x.tmp").
  - vm_compute. reflexivity.
  - reflexivity.
  - vm_compute. reflexivity.
  - reflexivity.
  - reflexivity.
  - intros cleanup api ops Hin. vm_compute in Hin. inversion Hin.
Defined.

(** C7 (as stated) fails: a binary file that matches the delete policy stays
    in [files] (no method removes it from the binary table), and so does a
    matching file that a cleanup adds. *)
Lemma delete_policy_leaves_files :
  tmpMatcher "x.tmp" deleteKind = true
  /\ mergeTemplateFiles tmpMatcher (deleteFiles tmpMatcher ∅) ∅ = Some ∅
  /\ resolveConflicts unit None 0 ∅ tt = Some (∅, tt)
  /\ runCleanups LineDiff.diffLines noCleanups [] ∅ {[ "x.tmp" := [Byte.x00] ]}
     = Some (∅, {[ "x.tmp" := [Byte.x00] ]})
  /\ files (getResult ∅ {[ "x.tmp" := [Byte.x00] ]}) !! "x.tmp" = Some (Binary [Byte.x00])
  /\ tmpMatcher "y.tmp" deleteKind = true
  /\ runCleanups LineDiff.diffLines configWithCleanup [] ∅ ∅
     = Some ({[ "y.tmp" := [okBlock ["tmp" +:+ Js.NL]] ]}, ∅)
  /\ files (getResult {[ "y.tmp" := [okBlock ["tmp" +:+ Js.NL]] ]} ∅) !! "y.tmp"
     = Some (Text ("tmp" +:+ Js.NL)).
Proof. repeat split; vm_compute; reflexivity. Qed.

(** For the label [main] the callback, when it is called, gets the questions
    of the main template. *)
Lemma main_label_questions (Answers Props World : Type) (emptyProps : Props)
    (answersParser : Answers -> Props * list string)
    (callback : list Question -> World -> Answers * World)
    (templateConfig : TemplateConfig) (st : QueryState Props World) :
  questions templateConfig <> [] ->
  asked Props World
    (getTemplateProps Answers Props emptyProps answersParser World (Some callback)
                      templateConfig None st)
  = asked Props World st ++ [questions templateConfig].
Proof.
  intros Hq. unfold getTemplateProps. cbn [truthyLabel].
  destruct (questions templateConfig) as [|q qs] eqn:E; [contradiction|].
  destruct (callback (q :: qs) (qworld Props World st)) as [answers w].
  destruct (answersParser answers) as [currentProps pending]. reflexivity.
Qed.

(** * Further properties of the code *)

(** ** LineDiffer: the changes of [diff] *)

Section DiffShape.

Variable diffLines : string -> string -> list Change.

Lemma splitNl_no_newline (s item : string) :
  item ∈ Js.splitNl s -> Js.includes item Js.nl = false.
Proof.
  revert item. induction s as [|x r IH]; intros item; cbn [Js.splitNl].
  - intros H. apply list_elem_of_singleton in H. now subst.
  - destruct (Ascii.eqb x Js.nl) eqn:Ex.
    + intros H. apply elem_of_cons in H as [->|H]; [reflexivity | now apply IH].
    + destruct (Js.splitNl r) as [|h t] eqn:Er.
      * intros H. apply list_elem_of_singleton in H. subst. cbn. now rewrite Ex.
      * intros H. apply elem_of_cons in H as [->|H].
        -- cbn. rewrite Ex. apply IH. left.
        -- apply IH. now right.
Qed.

Lemma splitLines_oneLine (c x : Change) : x ∈ splitLines c -> oneLine (value x).
Proof.
  unfold splitLines. intros H. apply list_elem_of_fmap in H as (item & -> & Hitem).
  exists item. split; [reflexivity|]. now apply splitNl_no_newline in Hitem.
Qed.

Lemma numberLines_unmarked (n : Z) (l : list Change) :
  Forall unmarked (numberLines n l).
Proof.
  revert n. induction l as [|x l IH]; intros n; cbn [numberLines]; [constructor|].
  destruct (added x); constructor; try apply IH; now split.
Qed.

Lemma join_flat_map (cs : list Change) :
  Js.join (map value (flat_map splitLines cs)) = Js.join (map (fun r => terminated (value r)) cs).
Proof.
  induction cs as [|c cs IH]; [reflexivity|].
  cbn [flat_map map]. rewrite map_app, join_app, join_cons, IH. f_equal. apply join_splitLines.
Qed.

End DiffShape.

(** X1: Every change [diff] returns holds one line, terminated by the only
    newline of its value, and carries no conflict mark. *)
Theorem diff_changes_are_lines (diffLines : string -> string -> list Change)
                               (originalContent : string) (currentContent : option string) :
  Forall (fun c => oneLine (dvalue c) /\ unmarked c)
         (diff diffLines originalContent currentContent).
Proof.
  apply Forall_forall. intros c Hc. split.
  - unfold diff in Hc. apply numberLines_elem in Hc as (x & Hx & -> & _).
    rewrite splitChanges_flat_map in Hx.
    apply list_elem_of_In, in_flat_map in Hx as (r & _ & Hx).
    now apply list_elem_of_In, splitLines_oneLine in Hx.
  - pose proof (numberLines_unmarked 0
                  (splitChanges (diffLines originalContent
                                           (Js.orElse currentContent originalContent)))) as H.
    rewrite Forall_forall in H. now apply H.
Qed.

(** X2: The values of the changes of [diff], put together, are the runs of the
    line differ in their order, each with its final newline: [diff] loses no
    text and adds at most a newline at the end of a run. *)
Theorem diff_keeps_the_text (diffLines : string -> string -> list Change)
                            (originalContent : string) (currentContent : option string) :
  Js.join (map dvalue (diff diffLines originalContent currentContent))
  = Js.join (map (fun r => terminated (value r))
                 (diffLines originalContent (Js.orElse currentContent originalContent))).
Proof.
  unfold diff. rewrite numberLines_values, splitChanges_flat_map. apply join_flat_map.
Qed.

(** ** BlockParser: errors and the shape of the blocks *)

Section ParserShape.

Implicit Types (bs : list MergeBlock) (s : Slot) (l : list Slot).

Lemma parseLine_None bs s : parseLine bs s = None <-> unreadable s.
Proof.
  destruct s as [c| |]; cbn [parseLine unreadable]; [|tauto|split; [discriminate | tauto]].
  destruct (dremoved c); [split; [discriminate | intros [? _]; discriminate]|].
  destruct (conflicted c).
  - destruct (conflictGroup c); [split; [discriminate | intros (_ & _ & ?); discriminate]|].
    tauto.
  - split; [discriminate | intros (_ & ? & _); discriminate].
Qed.

Lemma parseFrom_None bs l : parseFrom bs l = None <-> Exists unreadable l.
Proof.
  revert bs. induction l as [|s l IH]; intros bs; cbn [parseFrom].
  - split; [discriminate | intros H; inversion H].
  - rewrite Exists_cons. destruct (parseLine bs s) as [bs'|] eqn:E.
    + rewrite IH. split; [now right|]. intros [H|H]; [|exact H].
      apply parseLine_None with (bs := bs) in H. congruence.
    + split; [|reflexivity]. intros _. left. now apply (parseLine_None bs).
Qed.

Lemma alternating_nil : alternating [].
Proof. intros i b1 b2 H. now rewrite lookup_nil in H. Qed.

Lemma alternating_snoc bs b :
  alternating bs -> (forall b', last bs = Some b' -> status b' <> status b) ->
  alternating (bs ++ [b]).
Proof.
  intros Ha Hl i b1 b2 H1 H2.
  destruct (decide (S i < length bs)%nat) as [Hlt|Hge].
  - rewrite lookup_app_l in H1 by lia. rewrite lookup_app_l in H2 by lia. eauto.
  - assert (Ei : S i = length bs).
    { apply lookup_lt_Some in H2. rewrite length_app in H2. simpl in H2. lia. }
    rewrite lookup_app_l in H1 by lia.
    rewrite lookup_app_r, Ei, Nat.sub_diag in H2 by lia. injection H2 as <-.
    apply Hl. rewrite last_lookup. rewrite <- Ei. exact H1.
Qed.

(** Changing the last block without changing its status. *)
Lemma alternating_onLast bs (f : MergeBlock -> MergeBlock) :
  (forall b, status (f b) = status b) -> alternating bs -> alternating (onLast f bs).
Proof.
  intros Hf. destruct bs as [|b0 bs0 _] using rev_ind; [intros; apply alternating_nil|].
  rewrite onLast_snoc. intros Ha i b1 b2 H1 H2.
  assert (Hs : forall j x, (bs0 ++ [f b0]) !! j = Some x ->
                exists y, (bs0 ++ [b0]) !! j = Some y /\ status y = status x).
  { intros j x Hj. destruct (decide (j < length bs0)%nat).
    - rewrite lookup_app_l in Hj by lia. exists x. now rewrite lookup_app_l by lia.
    - rewrite lookup_app_r in Hj by lia. rewrite lookup_app_r by lia.
      destruct (j - length bs0)%nat; [|cbn in Hj; discriminate].
      injection Hj as <-. exists b0. now rewrite Hf. }
  apply Hs in H1 as (y1 & Hy1 & <-). apply Hs in H2 as (y2 & Hy2 & <-). eauto.
Qed.

Lemma lastIs_false bs st b' : lastIs st bs = false -> last bs = Some b' -> status b' <> st.
Proof.
  unfold lastIs. intros H E. rewrite E in H. now apply bool_decide_eq_false in H.
Qed.

Lemma Forall_onLast {A} (P : A -> Prop) (f : A -> A) (xs : list A) :
  (forall x, P x -> P (f x)) -> Forall P xs -> Forall P (onLast f xs).
Proof.
  intros Hf. destruct xs as [|x0 xs0 _] using rev_ind; [intros; constructor|].
  rewrite onLast_snoc, !Forall_app, !Forall_singleton. intros [? ?]. split; auto.
Qed.

(** Pushing a line on the last block, which has the status [st]. *)
Lemma parsedBlock_push bs st g v :
  (g = former -> st = CONFLICT) ->
  Forall parsedBlock bs -> lastIs st bs = true ->
  Forall parsedBlock (onLast (pushValue g v) bs).
Proof.
  intros Hg H Hl. apply lastIs_true_inv in Hl as (pre & b & -> & Hb).
  rewrite onLast_snoc. rewrite Forall_app, Forall_singleton in H. destruct H as [Hpre (Hv & Hi & Ho)].
  rewrite Forall_app, Forall_singleton. split; [exact Hpre|].
  destruct g; cbn [pushValue]; repeat split; cbn.
  - left. now destruct (vformer (values b)).
  - exact Hi.
  - intros E. specialize (Hg eq_refl). congruence.
  - right. now destruct (vcurrent (values b)).
  - exact Hi.
  - exact Ho.
Qed.

Lemma parseLine_shape bs s bs' :
  parseLine bs s = Some bs' ->
  alternating bs /\ Forall parsedBlock bs -> alternating bs' /\ Forall parsedBlock bs'.
Proof.
  intros E [Ha Hp]. destruct s as [c| |]; cbn [parseLine] in E;
    [|discriminate|injection E as <-; now split].
  destruct (dremoved c); [injection E as <-; now split|].
  assert (Hstep : forall st g,
            (g = former -> st = CONFLICT) ->
            let bs1 := if lastIs st bs then bs else bs ++ [emptyBlock st] in
            alternating (onLast (pushValue g (dvalue c)) bs1)
            /\ Forall parsedBlock (onLast (pushValue g (dvalue c)) bs1)).
  { intros st g Hg. cbn zeta. destruct (lastIs st bs) eqn:El.
    - split; [apply alternating_onLast; [now destruct g | exact Ha]|].
      now apply (parsedBlock_push bs st).
    - rewrite onLast_snoc. split.
      + apply alternating_snoc; [exact Ha|]. intros b' Hb'.
        replace (status (pushValue g (dvalue c) (emptyBlock st))) with st by now destruct g.
        now apply (lastIs_false bs).
      + rewrite Forall_app, Forall_singleton. split; [exact Hp|].
        destruct g; unfold parsedBlock; cbn; repeat split;
          try (now left); try (now right).
        intros E'. specialize (Hg eq_refl). congruence. }
  destruct (conflicted c).
  - destruct (conflictGroup c) as [g|]; [|discriminate]. injection E as <-.
    apply Hstep. now intros _.
  - injection E as <-. apply Hstep. discriminate.
Qed.

Lemma parseFrom_shape bs l bs' :
  parseFrom bs l = Some bs' ->
  alternating bs /\ Forall parsedBlock bs -> alternating bs' /\ Forall parsedBlock bs'.
Proof.
  revert bs. induction l as [|s l IH]; intros bs; cbn [parseFrom].
  - now intros [= <-].
  - destruct (parseLine bs s) as [bs1|] eqn:E; [|discriminate].
    intros H Hinv. apply (IH bs1 H). now apply (parseLine_shape bs s).
Qed.

(** Lines without conflict mark are read as [OK] blocks. *)
Lemma parse_unconflicted (l : list Slot) (blocks : list MergeBlock) :
  (forall c, Line c ∈ l -> conflicted c = false) ->
  parseDiffToMergeBlocks l = Some blocks ->
  blocks = okBlocks (linesOf l).
Proof.
  intros Hl E.
  assert (Hcalm : Forall calm l).
  { apply Forall_forall. intros s Hs. destruct s as [c| |]; cbn; [right; now apply Hl| |exact I].
    assert (Hex : Exists unreadable l) by (apply Exists_exists; exists Hole; now split).
    apply parseFrom_None with (bs := []) in Hex. unfold parseDiffToMergeBlocks in E. congruence. }
  unfold parseDiffToMergeBlocks in E. rewrite (parseFrom_calm [] l Hcalm), appendRun_okBlocks in E.
  now injection E.
Qed.

Lemma toText_okBlocks (vs : list string) : parseMergeBlocksToText (okBlocks vs) = Js.join vs.
Proof.
  destruct vs as [|v vs]; [reflexivity|]. cbn [okBlocks]. rewrite toText_join.
  cbn [map]. now rewrite join_cons, join_nil, append_empty_r, renderBlock_okBlock.
Qed.

End ParserShape.

(** X3: [parseDiffToMergeBlocks] throws exactly on the lists that hold a hole or a
    conflicted line, not removed, without a conflict group. *)
Theorem parse_throws_iff (changes : list Slot) :
  parseDiffToMergeBlocks changes = None <-> Exists unreadable changes.
Proof. apply parseFrom_None. Qed.

(** X4: The blocks [parseDiffToMergeBlocks] returns: neighbours differ in status,
    every block holds a line, none is ignored, and an [OK] block has no
    [former] line. *)
Theorem parse_block_shape (changes : list Slot) (blocks : list MergeBlock) :
  parseDiffToMergeBlocks changes = Some blocks ->
  alternating blocks /\ Forall parsedBlock blocks.
Proof.
  intros H. apply (parseFrom_shape [] changes blocks H).
  split; [apply alternating_nil | constructor].
Qed.

Lemma parse_block_shape_witness :
  alternating [okBlock ["A" +:+ Js.NL]; conflictBlock ["X" +:+ Js.NL]; okBlock ["B" +:+ Js.NL]]
  /\ Forall parsedBlock
            [okBlock ["A" +:+ Js.NL]; conflictBlock ["X" +:+ Js.NL]; okBlock ["B" +:+ Js.NL]].
Proof.
  apply (parse_block_shape [Line lineA; Line (markConflicted (insertion "X" 0)); Line lineB]).
  reflexivity.
Defined.

(** ** Merger: where the lines of the merged list come from *)

Section MergeOrigin.

Implicit Types (b d : list DiffChange) (ds : list (list DiffChange)) (c : DiffChange)
               (od : list Slot) (pt : Patch.t) (k n : Z).

Lemma slice_elem {A} (l : list A) (s : Z) (e : option Z) (x : A) : x ∈ Js.slice l s e -> x ∈ l.
Proof. unfold Js.slice. intros H. now apply subseteq_take, subseteq_drop in H. Qed.

Lemma assemble_elem od n (es : list (Z * PatchItem)) (s : Slot) :
  s ∈ assemble od n es ->
  s ∈ od \/ exists k p c, (k, p) ∈ es /\ c ∈ changes p /\ s = Line c.
Proof.
  revert n. induction es as [|[k p] es IH]; intros n; cbn [assemble].
  - intros H. left. now apply slice_elem in H.
  - rewrite !elem_of_app. intros [H|[H|H]].
    + left. now apply slice_elem in H.
    + apply list_elem_of_fmap in H as (c & -> & Hc). right. exists k, p, c.
      split; [left | now split].
    + apply IH in H as [H|(k' & p' & c & Hin & Hc & ->)]; [now left|].
      right. exists k', p', c. split; [now right | now split].
Qed.

Lemma setRemoved_elem od n c :
  Line c ∈ setRemoved od n -> exists s, s ∈ od /\ (Line c = s \/ Line c = markRemoved s).
Proof.
  unfold setRemoved. destruct (Js.isArrayIndex n); [|intros H; exists (Line c); auto].
  destruct (decide (Z.to_nat n < length od)%nat) as [Hlt|Hge].
  - intros H. apply list_elem_of_lookup in H as [j Hj].
    rewrite list_lookup_alter in Hj. destruct (decide (Z.to_nat n = j)) as [->|Hne].
    + destruct (od !! j) as [s|] eqn:E; [|discriminate]. injection Hj as Hj.
      exists s. split; [now apply list_elem_of_lookup_2 in E | now right].
    + exists (Line c). split; [now apply list_elem_of_lookup_2 in Hj | now left].
  - rewrite !elem_of_app. intros [H|[H|H]].
    + exists (Line c). auto.
    + apply elem_of_replicate_inv in H. discriminate.
    + apply list_elem_of_singleton in H. discriminate.
Qed.

(** A line of the working array is a line of the baseline, marked removed or not. *)
Lemma fold_setRemoved_elem (ks : list Z) od c :
  Line c ∈ fold_left setRemoved ks od -> exists c0, Line c0 ∈ od /\ sameLine (Line c) c0.
Proof.
  revert od. induction ks as [|k ks IH]; intros od; cbn [fold_left].
  - intros H. exists c. split; [exact H | now left].
  - intros H. apply IH in H as (c1 & H1 & Hs).
    apply setRemoved_elem in H1 as (s & Hs0 & [E|E]).
    + subst s. now exists c1.
    + destruct s as [c0| |]; cbn in E; try discriminate.
      exists c0. split; [exact Hs0|]. right.
      destruct Hs as [Hs|Hs]; rewrite Hs, E; reflexivity.
Qed.

(** A line of the merged list is a line of the baseline, marked removed or
    not, or an insertion of an overlay, marked as a conflict when more than
    one overlay inserts at its line. *)
Lemma merge_elem b ds c :
  Line c ∈ merge (Some b) (Some ds) ->
  (exists c0, c0 ∈ b /\ sameLine (Line c) c0)
  \/ (exists c0, c0 ∈ changesAt (lineNumber c0) ds
                 /\ c = if 1 <? countAt (lineNumber c0) ds then markConflicted c0 else c0).
Proof.
  destruct ds as [|d ds].
  { cbn [merge]. intros H. apply list_elem_of_fmap in H as (c0 & [= ->] & H0).
    left. exists c0. split; [exact H0 | now left]. }
  rewrite merge_cons. unfold merged. intros H.
  apply assemble_elem in H as [H|(k & p & c' & Hin & Hc & [= <-])].
  - left. rewrite patched_fst in H. apply fold_setRemoved_elem in H as (c0 & H0 & Hs).
    apply list_elem_of_fmap in H0 as (c1 & [= ->] & H1). now exists c1.
  - right. apply entriesOf_inv in Hin as [_ Hget].
    apply get_marked in Hget as [_ ->]. unfold markPatch in Hc. cbn [modifyLength changes] in Hc.
    destruct (1 <? countAt k (d :: ds)) eqn:E; cbn [changes] in Hc.
    + apply list_elem_of_fmap in Hc as (c0 & -> & H0). exists c0.
      pose proof H0 as H1. apply changesAt_elem in H1 as (_ & -> & _).
      split; [exact H0 | now rewrite E].
    + exists c. pose proof Hc as H1. apply changesAt_elem in H1 as (_ & -> & _).
      split; [exact Hc | now rewrite E].
Qed.

Lemma sameLine_fields c c0 :
  sameLine (Line c) c0 ->
  dvalue c = dvalue c0 /\ dadded c = dadded c0 /\ lineNumber c = lineNumber c0
  /\ conflicted c = conflicted c0 /\ conflictGroup c = conflictGroup c0.
Proof. intros [[= ->]|[= ->]]; repeat split. Qed.

Lemma linesOf_elem (l : list Slot) (v : string) :
  v ∈ linesOf l -> exists c, Line c ∈ l /\ dremoved c = false /\ dvalue c = v.
Proof.
  unfold linesOf. intros H. apply list_elem_of_fmap in H as (c & -> & Hc).
  apply list_elem_of_omap in Hc as (s & Hs & Hv). destruct s as [c'| |]; cbn in Hv; try discriminate.
  destruct (dremoved c') eqn:E; [discriminate|]. injection Hv as <-. now exists c'.
Qed.

(** The deciding step on a line number: more than one overlay inserts there. *)
Lemma merge_conflicted_inv b ds c :
  Forall unmarked b -> Forall (Forall unmarked) ds ->
  Line c ∈ merge (Some b) (Some ds) -> conflicted c = true ->
  dadded c = true /\ 1 < countAt (lineNumber c) ds.
Proof.
  intros Hb Hds Hin Hc. apply merge_elem in Hin as [(c0 & H0 & Hs)|(c0 & H0 & E)].
  - apply sameLine_fields in Hs as (_ & _ & _ & E & _).
    rewrite Forall_forall in Hb. destruct (Hb c0 H0) as [E0 _]. congruence.
  - pose proof H0 as H1. apply changesAt_elem in H1 as (Ha & _ & d & Hd & Hcd).
    destruct (1 <? countAt (lineNumber c0) ds) eqn:El.
    + subst c. cbn. split; [exact Ha|]. now apply Z.ltb_lt.
    + subst c. rewrite Forall_forall in Hds. specialize (Hds d Hd).
      rewrite Forall_forall in Hds. destruct (Hds c0 Hcd) as [E0 _]. congruence.
Qed.

Lemma merge_marks b ds d c :
  d ∈ ds -> c ∈ d -> dadded c = true -> 1 < countAt (lineNumber c) ds ->
  Line (markConflicted c) ∈ merge (Some b) (Some ds).
Proof.
  intros Hd Hc Ha Hn. destruct ds as [|d0 ds0]; [now apply elem_of_nil in Hd|].
  rewrite merge_cons.
  destruct (patched_spec (map Line b) (d0 :: ds0)) as [_ Hget].
  specialize (Hget (lineNumber c)).
  assert (Hin : c ∈ changesAt (lineNumber c) (d0 :: ds0)).
  { apply changesAt_elem. repeat split; [exact Ha|]. now exists d. }
  unfold entryAt in Hget. destruct (changesAt (lineNumber c) (d0 :: ds0)) as [|c0 cs] eqn:E.
  { now apply elem_of_nil in Hin. }
  pose proof (get_markConflicts (patched (map Line b) (d0 :: ds0)).2 (lineNumber c)) as Hm.
  rewrite Hget in Hm. cbn [fmap option_fmap option_map] in Hm.
  unfold markPatch in Hm. cbn [modifyLength changes] in Hm.
  apply Z.ltb_lt in Hn. rewrite Hn in Hm.
  eapply merged_patch; [exact Hm|]. cbn [changes]. apply list_elem_of_fmap. eauto.
Qed.

End MergeOrigin.

(** X5: Every line of the text of a merged list is the value of a change of the
    baseline or of an added change of an overlay: [merge] makes up no text. *)
Theorem merge_invents_no_text (b : list DiffChange) (ds : list (list DiffChange)) :
  Forall (fun v => v ∈ map dvalue b
                   \/ exists d c, d ∈ ds /\ c ∈ d /\ dadded c = true /\ v = dvalue c)
         (linesOf (merge (Some b) (Some ds))).
Proof.
  apply Forall_forall. intros v Hv. apply linesOf_elem in Hv as (c & Hc & _ & <-).
  apply merge_elem in Hc as [(c0 & H0 & Hs)|(c0 & H0 & E)].
  - left. apply sameLine_fields in Hs as (-> & _). apply list_elem_of_fmap. eauto.
  - right. apply changesAt_elem in H0 as (Ha & _ & d & Hd & Hcd).
    exists d, c0. repeat split; try assumption.
    destruct (1 <? countAt (lineNumber c0) ds); now subst c.
Qed.

(** X6: Among unmarked change lists, [merge] marks as conflicts the insertions at
    the lines where more than one overlay inserts, and nothing else. *)
Theorem merge_conflict_marks (b : list DiffChange) (ds : list (list DiffChange)) :
  Forall unmarked b -> Forall (Forall unmarked) ds ->
  (forall c, Line c ∈ merge (Some b) (Some ds) -> conflicted c = true ->
     dadded c = true /\ 1 < countAt (lineNumber c) ds)
  /\ (forall d c, d ∈ ds -> c ∈ d -> dadded c = true -> 1 < countAt (lineNumber c) ds ->
        Line (markConflicted c) ∈ merge (Some b) (Some ds)).
Proof.
  intros Hb Hds. split.
  - intros c. now apply merge_conflicted_inv.
  - intros d c. apply merge_marks.
Qed.

Lemma merge_conflict_marks_witness :
  (forall c, Line c ∈ merge (Some [lineA; lineB]) (Some [overlayX; overlayY]) ->
     conflicted c = true ->
     dadded c = true /\ 1 < countAt (lineNumber c) [overlayX; overlayY])
  /\ (forall d c, d ∈ [overlayX; overlayY] -> c ∈ d -> dadded c = true ->
        1 < countAt (lineNumber c) [overlayX; overlayY] ->
        Line (markConflicted c) ∈ merge (Some [lineA; lineB]) (Some [overlayX; overlayY])).
Proof.
  apply (merge_conflict_marks [lineA; lineB] [overlayX; overlayY]).
  - apply (bool_decide_unpack _). vm_compute. exact I.
  - apply (bool_decide_unpack _). vm_compute. exact I.
Defined.

Section FormerGroup.

Lemma parseLine_former (bs bs' : list MergeBlock) (s : Slot) :
  (forall c, s = Line c -> conflictGroup c <> Some former) ->
  parseLine bs s = Some bs' ->
  Forall (fun blk => vformer (values blk) = []) bs ->
  Forall (fun blk => vformer (values blk) = []) bs'.
Proof.
  intros Hs E H. destruct s as [c| |]; cbn [parseLine] in E;
    [|discriminate|now injection E as <-].
  specialize (Hs c eq_refl).
  destruct (dremoved c); [now injection E as <-|].
  assert (Hpush : forall st,
            Forall (fun blk => vformer (values blk) = [])
                   (onLast (pushValue current (dvalue c))
                           (if lastIs st bs then bs else bs ++ [emptyBlock st]))).
  { intros st. apply Forall_onLast; [now intros x|].
    destruct (lastIs st bs); [exact H|].
    rewrite Forall_app, Forall_singleton. now split. }
  destruct (conflicted c).
  - destruct (conflictGroup c) as [[|]|]; [contradiction| |discriminate].
    injection E as <-. apply Hpush.
  - injection E as <-. apply Hpush.
Qed.

Lemma parseFrom_former (bs bs' : list MergeBlock) (l : list Slot) :
  Forall (fun s => forall c, s = Line c -> conflictGroup c <> Some former) l ->
  parseFrom bs l = Some bs' ->
  Forall (fun blk => vformer (values blk) = []) bs ->
  Forall (fun blk => vformer (values blk) = []) bs'.
Proof.
  intros Hl. revert bs. induction Hl as [|s l Hs _ IH]; intros bs; cbn [parseFrom].
  - now intros [= <-].
  - destruct (parseLine bs s) as [bs1|] eqn:E; [|discriminate].
    intros H Hbs. apply (IH bs1 H). now apply (parseLine_former bs bs1 s).
Qed.

Lemma merge_group (b : list DiffChange) (ds : list (list DiffChange)) (c : DiffChange) :
  Forall unmarked b -> Forall (Forall unmarked) ds ->
  Line c ∈ merge (Some b) (Some ds) -> conflictGroup c <> Some former.
Proof.
  intros Hb Hds Hin. apply merge_elem in Hin as [(c0 & H0 & Hs)|(c0 & H0 & E)].
  - apply sameLine_fields in Hs as (_ & _ & _ & _ & ->).
    rewrite Forall_forall in Hb. destruct (Hb c0 H0) as [_ ->]. discriminate.
  - destruct (1 <? countAt (lineNumber c0) ds); subst c; [discriminate|].
    apply changesAt_elem in H0 as (_ & _ & d & Hd & Hcd).
    rewrite Forall_forall in Hds. specialize (Hds d Hd).
    rewrite Forall_forall in Hds. destruct (Hds c0 Hcd) as [_ ->]. discriminate.
Qed.

End FormerGroup.

(** X7: [merge] files every conflict under the group [current]: in the blocks of
    a merged list the [former] group is empty, so the first half of every
    conflict fence has no line. *)
Theorem merged_blocks_have_no_former (b : list DiffChange) (ds : list (list DiffChange))
                                     (blocks : list MergeBlock) :
  Forall unmarked b -> Forall (Forall unmarked) ds ->
  parseDiffToMergeBlocks (merge (Some b) (Some ds)) = Some blocks ->
  Forall (fun blk => vformer (values blk) = []
                     /\ (status blk = CONFLICT ->
                         renderBlock blk = fence [] (vcurrent (values blk))))
         blocks.
Proof.
  intros Hb Hds E.
  assert (H : Forall (fun blk => vformer (values blk) = []) blocks).
  { apply (parseFrom_former [] blocks (merge (Some b) (Some ds))); [|exact E|constructor].
    apply Forall_forall. intros s Hin c ->. now apply (merge_group b ds). }
  eapply Forall_impl; [exact H|]. intros blk Hf. split; [exact Hf|].
  intros Hs. rewrite (renderBlock_conflict blk Hs). now rewrite Hf.
Qed.

Lemma merged_blocks_have_no_former_witness :
  Forall (fun blk => vformer (values blk) = []
                     /\ (status blk = CONFLICT ->
                         renderBlock blk = fence [] (vcurrent (values blk))))
         [okBlock ["A" +:+ Js.NL]; conflictBlock ["X" +:+ Js.NL; "Y" +:+ Js.NL];
          okBlock ["B" +:+ Js.NL]].
Proof.
  apply (merged_blocks_have_no_former [lineA; lineB] [overlayX; overlayY]).
  - apply (bool_decide_unpack _). vm_compute. exact I.
  - apply (bool_decide_unpack _). vm_compute. exact I.
  - reflexivity.
Defined.

(** ** Merger: overlays that only remove lines *)

Section RemovalFacts.

Implicit Types (b d : list DiffChange) (ds : list (list DiffChange)) (od : list Slot).

Lemma markRemoved_idemp (s : Slot) : markRemoved (markRemoved s) = markRemoved s.
Proof. now destruct s. Qed.

Lemma setRemoved_in_range od (k : Z) :
  Z.of_nat (length od) <= 2 ^ 32 - 1 -> 0 <= k < Z.of_nat (length od) ->
  setRemoved od k = alter markRemoved (Z.to_nat k) od.
Proof.
  intros Hlen Hk. unfold setRemoved, Js.isArrayIndex.
  destruct (Z.leb_spec 0 k) as [_|?]; [|lia].
  destruct (Z.ltb_spec k (2 ^ 32 - 1)) as [_|?]; [|lia]. cbn [andb].
  now rewrite decide_True by lia.
Qed.

Lemma fold_setRemoved_lookup (ks : list Z) od (i : nat) :
  Z.of_nat (length od) <= 2 ^ 32 - 1 ->
  Forall (fun k => 0 <= k < Z.of_nat (length od)) ks ->
  fold_left setRemoved ks od !! i
  = if decide (Z.of_nat i ∈ ks) then markRemoved <$> od !! i else od !! i.
Proof.
  intros Hlen Hks. revert od Hlen Hks. induction ks as [|k ks IH]; intros od Hlen Hks.
  - cbn [fold_left]. rewrite decide_False; [reflexivity | apply not_elem_of_nil].
  - apply Forall_cons in Hks as [Hk Hks]. cbn [fold_left].
    rewrite (setRemoved_in_range od k Hlen Hk).
    rewrite IH; [|now rewrite length_alter|now rewrite length_alter].
    rewrite list_lookup_alter.
    destruct (decide (Z.to_nat k = i)) as [E|E].
    + subst i. rewrite (decide_True (P := Z.of_nat (Z.to_nat k) ∈ k :: ks))
        by (rewrite Z2Nat.id by lia; left).
      destruct (decide (Z.of_nat (Z.to_nat k) ∈ ks)); [|reflexivity].
      destruct (od !! Z.to_nat k); cbn; [|reflexivity]. now rewrite markRemoved_idemp.
    + destruct (decide (Z.of_nat i ∈ ks)) as [Hi|Hi].
      * rewrite decide_True by (now right). reflexivity.
      * rewrite decide_False; [reflexivity|].
        intros H. apply elem_of_cons in H as [H|H]; [|contradiction]. lia.
Qed.

Lemma table_empty (pt : Patch.t) : (forall k, Patch.get pt k = None) -> pt = [].
Proof.
  destruct pt as [|[k p] pt]; [reflexivity|]. intros H. specialize (H k).
  cbn [Patch.get] in H. now rewrite decide_True in H by reflexivity.
Qed.

Lemma patched_no_additions od ds :
  Forall (Forall (fun c => dadded c = false)) ds -> (patched od ds).2 = [].
Proof.
  intros H. apply table_empty. intros k.
  destruct (patched_spec od ds) as [_ ->]. unfold entryAt.
  assert (E : changesAt k ds = []); [|now rewrite E].
  unfold changesAt. apply filter_none, Forall_forall. intros c Hc [Ha _].
  apply list_elem_of_In, in_concat in Hc as (d & Hd & Hc).
  rewrite Forall_forall in H. specialize (H d ltac:(now apply list_elem_of_In)).
  rewrite Forall_forall in H. specialize (H c ltac:(now apply list_elem_of_In)). congruence.
Qed.

Lemma removedBy_range b ds :
  Forall (Forall (removalOf b)) ds ->
  Forall (fun k => 0 <= k < Z.of_nat (length b)) (removedBy ds).
Proof.
  intros H. unfold removedBy. induction H as [|d ds Hd _ IH]; [constructor|].
  rewrite map_cons, concat_cons, Forall_app. split; [|exact IH].
  unfold removalsOf. apply Forall_fmap, Forall_forall. intros c Hc.
  apply list_elem_of_filter in Hc as [[_ Hr] Hc].
  rewrite Forall_forall in Hd. destruct (Hd c Hc) as [_ Hrange]. now apply Hrange.
Qed.

End RemovalFacts.

(** X8: When the overlays add no line and remove lines of the baseline only, the
    merged list is the baseline, line for line, with the lines that some
    overlay removes marked as removed.  Removing a line in several overlays
    is no conflict. *)
Theorem merge_of_removals (b : list DiffChange) (ds : list (list DiffChange)) :
  Z.of_nat (length b) <= 2 ^ 32 - 1 ->
  Forall (Forall (removalOf b)) ds ->
  merge (Some b) (Some ds)
  = imap (fun i c => if decide (Z.of_nat i ∈ removedBy ds)
                     then markRemoved (Line c) else Line c) b.
Proof.
  intros Hlen Hds. apply list_eq. intros i. rewrite list_lookup_imap.
  assert (Hrange : Forall (fun k => 0 <= k < Z.of_nat (length (map Line b))) (removedBy ds))
    by (rewrite length_map; now apply removedBy_range).
  assert (E : merge (Some b) (Some ds) = fold_left setRemoved (removedBy ds) (map Line b)).
  { destruct ds as [|d ds]; [reflexivity|]. rewrite merge_cons.
    rewrite patched_no_additions.
    2:{ eapply Forall_impl; [exact Hds|]. intros d' Hd'. eapply Forall_impl; [exact Hd'|].
        now intros c [Ha _]. }
    rewrite patched_fst. unfold merged. cbn [markConflicts map Patch.keys].
    change (-1 + 1) with (Z.of_nat 0). cbn. apply (slice_to_end _ 0). }
  rewrite E, fold_setRemoved_lookup; [|now rewrite length_map|exact Hrange].
  rewrite list_lookup_fmap. destruct (b !! i); cbn; [|now destruct (decide _)].
  now destruct (decide _).
Qed.

Lemma merge_of_removals_witness :
  merge (Some [lineA; lineB]) (Some [[removal "A" 0; lineB]; [removal "A" 0; lineB]])
  = [markRemoved (Line lineA); Line lineB].
Proof.
  apply (merge_of_removals [lineA; lineB] [[removal "A" 0; lineB]; [removal "A" 0; lineB]]).
  - vm_compute. discriminate.
  - apply (bool_decide_unpack _). vm_compute. exact I.
Defined.

(** ** Merger: insertions before the first line *)

Section TopInsertion.

Implicit Types (b o : list DiffChange) (pt : Patch.t) (a k : Z).

Lemma NoDup_only {A} (l : list A) (x : A) : NoDup l -> (forall y, y ∈ l <-> y = x) -> l = [x].
Proof.
  intros Hnd H. destruct l as [|y l].
  - exfalso. apply (not_elem_of_nil x), H. reflexivity.
  - assert (y = x) as -> by (apply H; left). f_equal.
    destruct l as [|z l]; [reflexivity|]. exfalso.
    assert (z = x) as -> by (apply H; right; left).
    apply NoDup_cons in Hnd as [Hnd _]. apply Hnd. left.
Qed.

Lemma changesAt_one k o : changesAt k [o] = insertedAt k o.
Proof. unfold changesAt, insertedAt. cbn [concat]. now rewrite app_nil_r. Qed.

Lemma countAt_one k o : countAt k [o] = if decide (insertsAt k o) then 1 else 0.
Proof. change [o] with ([] ++ [o]). now rewrite countAt_snoc. Qed.

(** The entry of a line in the table of one overlay. *)
Lemma get_marked_one od o k :
  Patch.get (markConflicts (patched od [o]).2) k
  = match insertedAt k o with
    | [] => None
    | cs => Some (mkPatch cs 1)
    end.
Proof.
  rewrite get_markConflicts. destruct (patched_spec od [o]) as [_ ->].
  unfold entryAt. rewrite changesAt_one, countAt_one.
  destruct (insertedAt k o) as [|c cs] eqn:E; [reflexivity|].
  rewrite decide_True; [reflexivity|]. apply insertsAt_filter.
  unfold insertedAt in E. now rewrite E.
Qed.

Lemma slice_backwards {A} (l : list A) (s : Z) : 0 <= s -> Js.slice l s (Some 0) = [].
Proof.
  intros Hs. unfold Js.slice, Js.relIndex.
  destruct (Z.ltb_spec s 0) as [?|_]; [lia|]. cbn.
  replace (Z.to_nat (0 `min` Z.of_nat (length l) - s `min` Z.of_nat (length l))) with 0%nat by lia.
  reflexivity.
Qed.

End TopInsertion.

(** X9: An insertion before the first line has the key [-1], which
    [Object.keys] lists after the keys that are array indices.  So when one
    overlay inserts before the first line and after line [a] of the baseline,
    the merged list is the baseline up to line [a], the insertions at [a],
    the insertions at the top, and then the whole baseline once more. *)
Theorem top_insertion_repeats_baseline (b o : list DiffChange) (a : Z) :
  Z.of_nat (length b) <= 2 ^ 32 - 1 -> 0 <= a < Z.of_nat (length b) ->
  Forall (fun c => if dadded c then lineNumber c = -1 \/ lineNumber c = a
                   else dremoved c = false) o ->
  insertedAt (-1) o <> [] -> insertedAt a o <> [] ->
  merge (Some b) (Some [o])
  = map Line (take (S (Z.to_nat a)) b) ++ map Line (insertedAt a o)
    ++ map Line (insertedAt (-1) o) ++ map Line b.
Proof.
  intros Hlen Ha Ho Htop Hat. rewrite merge_cons.
  set (pt := markConflicts (patched (map Line b) [o]).2).
  assert (Hod : (patched (map Line b) [o]).1 = map Line b).
  { rewrite patched_fst. cbn [map concat]. rewrite app_nil_r.
    assert (E : removalsOf o = []); [|now rewrite E].
    unfold removalsOf. rewrite filter_none; [reflexivity|].
    eapply Forall_impl; [exact Ho|]. intros c Hc [E1 E2]. cbn beta in Hc.
    rewrite E1 in Hc. congruence. }
  rewrite Hod.
  assert (Hget : forall k, Patch.get pt k
                           = match insertedAt k o with [] => None | cs => Some (mkPatch cs 1) end)
    by (intros k; apply get_marked_one).
  assert (Hkeys : forall k, k ∈ pt.*1 <-> k = a \/ k = -1).
  { intros k. rewrite <- get_is_Some, Hget. split.
    - destruct (insertedAt k o) as [|c cs] eqn:E; [intros [? ?]; discriminate|]. intros _.
      assert (Hc : c ∈ insertedAt k o) by (rewrite E; left).
      apply list_elem_of_filter in Hc as [[Hadd Hk] Hc].
      rewrite Forall_forall in Ho. specialize (Ho c Hc). rewrite Hadd in Ho. lia.
    - intros [->| ->].
      + destruct (insertedAt a o); [contradiction | eauto].
      + destruct (insertedAt (-1) o); [contradiction | eauto]. }
  assert (Hnd : NoDup pt.*1).
  { unfold pt. rewrite markConflicts_keys. apply patched_spec. }
  assert (Hidx : Js.isArrayIndex a = true).
  { unfold Js.isArrayIndex. apply andb_true_iff. split; [apply Z.leb_le | apply Z.ltb_lt]; lia. }
  assert (Ek : Patch.keys pt = [a; -1]).
  { unfold Patch.keys.
    rewrite (NoDup_only (filter (fun k => Is_true (Js.isArrayIndex k)) pt.*1) a).
    - rewrite (NoDup_only (filter (fun k => ~ Is_true (Js.isArrayIndex k)) pt.*1) (-1));
        [reflexivity | now apply NoDup_filter |].
      intros k. rewrite list_elem_of_filter, Hkeys. split.
      + intros [Hn [->| ->]]; [|reflexivity]. rewrite Hidx in Hn. exfalso. now apply Hn.
      + intros ->. split; [now intros [] | now right].
    - now apply NoDup_filter.
    - intros k. rewrite list_elem_of_filter, Hkeys. split.
      + intros [Hi [->| ->]]; [reflexivity | now destruct Hi].
      + intros ->. split; [now rewrite Hidx | now left]. }
  unfold merged. rewrite Ek.
  pose proof (Hget a) as Ga. pose proof (Hget (-1)) as Gt.
  destruct (insertedAt a o) as [|ca csa] eqn:Ea; [contradiction|].
  destruct (insertedAt (-1) o) as [|ct cst] eqn:Et; [contradiction|].
  rewrite (entriesOf_cons pt a _ _ Ga), (entriesOf_cons pt (-1) _ _ Gt).
  cbn [entriesOf omap list_omap assemble changes].
  change (-1 + 1) with 0.
  rewrite slice_prefix by lia. rewrite (slice_backwards _ (a + 1)) by lia.
  change 0 with (Z.of_nat 0). rewrite slice_to_end. cbn [drop app].
  replace (Z.to_nat (a + 1)) with (S (Z.to_nat a)) by lia.
  now rewrite fmap_take.
Qed.

Lemma top_insertion_repeats_baseline_witness :
  merge (Some [lineA; lineB]) (Some [[insertion "X" (-1); lineA; insertion "Z" 0; lineB]])
  = [Line lineA; Line (insertion "Z" 0); Line (insertion "X" (-1)); Line lineA; Line lineB].
Proof.
  apply (top_insertion_repeats_baseline [lineA; lineB]
           [insertion "X" (-1); lineA; insertion "Z" 0; lineB] 0).
  - vm_compute. discriminate.
  - vm_compute. split; [discriminate | reflexivity].
  - repeat (constructor; [cbn; auto|]). constructor.
  - vm_compute. discriminate.
  - vm_compute. discriminate.
Defined.

(** ** Merger: one overlay *)

Section Weaving.

Implicit Types (od : list Slot) (ins : Z -> list DiffChange) (es : list (Z * PatchItem)).

Lemma weave_ext (i : nat) od ins ins' :
  (forall j, (i <= j)%nat -> ins (Z.of_nat j) = ins' (Z.of_nat j)) ->
  weaveFrom i od ins = weaveFrom i od ins'.
Proof.
  revert i. induction od as [|s r IH]; intros i H; [reflexivity|].
  cbn [weaveFrom]. rewrite (H i) by lia. do 2 f_equal. apply IH. intros j Hj. apply H. lia.
Qed.

Lemma weave_app (i : nat) (S1 S2 : list Slot) ins :
  weaveFrom i (S1 ++ S2) ins = weaveFrom i S1 ins ++ weaveFrom (i + length S1) S2 ins.
Proof.
  revert i. induction S1 as [|s r IH]; intros i.
  - cbn. now rewrite Nat.add_0_r.
  - cbn [app weaveFrom length]. rewrite IH, <- !app_assoc.
    do 3 f_equal. f_equal. lia.
Qed.

Lemma weave_none (i : nat) od ins :
  (forall j, (i <= j < i + length od)%nat -> ins (Z.of_nat j) = []) ->
  weaveFrom i od ins = od.
Proof.
  revert i. induction od as [|s r IH]; intros i H; [reflexivity|].
  cbn [weaveFrom]. rewrite (H i) by (cbn; lia). cbn. f_equal. apply IH.
  intros j Hj. apply H. cbn. lia.
Qed.

Lemma weave_calm (i : nat) od ins :
  Forall calm od -> (forall k, Forall (fun c => conflicted c = false) (ins k)) ->
  Forall calm (weaveFrom i od ins).
Proof.
  intros Hod Hins. revert i. induction Hod as [|s r Hs _ IH]; intros i; [constructor|].
  cbn [weaveFrom]. constructor; [exact Hs|]. apply Forall_app. split; [|apply IH].
  apply Forall_fmap. eapply Forall_impl; [apply Hins|]. intros c Hc. now right.
Qed.

(** The merged list when the keys are line numbers of the working array, in
    ascending order. *)
Lemma assemble_weave od (n : nat) es ins :
  StronglySorted Z.le es.*1 -> NoDup es.*1 ->
  Forall (fun k => Z.of_nat n <= k < Z.of_nat (length od)) es.*1 ->
  (forall k p, (k, p) ∈ es -> ins k = changes p) ->
  (forall j, (n <= j)%nat -> Z.of_nat j ∉ es.*1 -> ins (Z.of_nat j) = []) ->
  assemble od (Z.of_nat n - 1) es = weaveFrom n (drop n od) ins.
Proof.
  revert n. induction es as [|[k p] es IH]; intros n Hsort Hnd Hrange Hins Hnone.
  - cbn [assemble]. replace (Z.of_nat n - 1 + 1) with (Z.of_nat n) by lia.
    rewrite slice_to_end. symmetry. apply weave_none. intros j Hj. apply Hnone; [lia|].
    apply not_elem_of_nil.
  - rewrite fmap_cons in Hsort, Hnd, Hrange. cbn [fst] in *.
    apply StronglySorted_inv in Hsort as [Hsort Hk].
    apply NoDup_cons in Hnd as [Hnk Hnd]. apply Forall_cons in Hrange as [[Hnk1 Hnk2] Hrange].
    cbn [assemble]. replace (Z.of_nat n - 1 + 1) with (Z.of_nat n) by lia.
    set (k' := Z.to_nat k). assert (Ek : k = Z.of_nat k') by (unfold k'; lia).
    assert (Hlt : (k' < length od)%nat) by lia. assert (Hle : (n <= k')%nat) by lia.
    destruct (lookup_lt_is_Some_2 od k' Hlt) as [s Hs].
    replace (k + 1) with (Z.of_nat (S k')) by lia. rewrite slice_nat by lia.
    assert (E2 : assemble od k es = assemble od (Z.of_nat (S k') - 1) es) by (f_equal; lia).
    rewrite E2, (IH (S k') Hsort Hnd).
    + rewrite <- (take_drop (S k' - n) (drop n od)) at 2.
      rewrite weave_app, drop_drop, length_take, length_drop.
      replace (n + (S k' - n) `min` (length od - n))%nat with (S k') by lia.
      replace (n + (S k' - n))%nat with (S k') by lia.
      rewrite app_assoc. f_equal.
      replace (S k' - n)%nat with (S (k' - n)) by lia.
      rewrite (take_S_r (drop n od) (k' - n) s)
        by (rewrite lookup_drop; replace (n + (k' - n))%nat with k' by lia; exact Hs).
      rewrite weave_app, length_take, length_drop.
      replace (n + (k' - n) `min` (length od - n))%nat with k' by lia.
      rewrite weave_none.
      * cbn [weaveFrom]. rewrite <- Ek, (Hins k p) by left. now rewrite app_nil_r, <- app_assoc.
      * intros j Hj. rewrite length_take, length_drop in Hj. apply Hnone; [lia|].
        rewrite fmap_cons. cbn [fst]. intros Hin. apply elem_of_cons in Hin as [Hin|Hin]; [lia|].
        rewrite Forall_forall in Hk. specialize (Hk _ Hin). lia.
    + apply Forall_forall. intros k2 H2. rewrite Forall_forall in Hk, Hrange.
      specialize (Hk k2 H2). destruct (Hrange k2 H2) as [_ ?].
      assert (k2 <> k) by (intros ->; contradiction). lia.
    + intros k2 p2 H2. apply Hins. now right.
    + intros j Hj Hnin. apply Hnone; [lia|]. rewrite fmap_cons. cbn [fst].
      intros Hin. apply elem_of_cons in Hin as [Hin|Hin]; [lia | contradiction].
Qed.

End Weaving.

Section OverlayNumbers.

Implicit Types (l A : list Change) (m k : Z).

Lemma numberLines_added_run m A l :
  Forall (fun a => added a = true) A ->
  numberLines m (A ++ l) = map (fun a => withLineNumber a (m - 1)) A ++ numberLines m l.
Proof.
  induction 1 as [|a A Ha _ IH]; [reflexivity|].
  cbn [app numberLines map]. now rewrite Ha, IH.
Qed.

Lemma numberLines_from m l c : c ∈ numberLines m l -> m - 1 <= lineNumber c.
Proof.
  revert m. induction l as [|x l IH]; intros m; cbn [numberLines].
  - intros H. now apply elem_of_nil in H.
  - destruct (added x); intros H; apply elem_of_cons in H as [->|H]; cbn; try lia.
    + now apply IH.
    + apply IH in H. lia.
Qed.

Lemma numberLines_keptFirst m l c : keptFirst l -> c ∈ numberLines m l -> m <= lineNumber c.
Proof.
  destruct l as [|x l]; cbn [keptFirst numberLines].
  - intros _ H. now apply elem_of_nil in H.
  - intros ->. intros H. apply elem_of_cons in H as [->|H]; [cbn; lia|].
    apply numberLines_from in H. lia.
Qed.

Lemma numberLines_below m l c :
  c ∈ numberLines m l ->
  lineNumber c < m + Z.of_nat (length (filter (fun x => added x = false) l))
  \/ (dadded c = true /\ lineNumber c = m - 1).
Proof.
  revert m. induction l as [|x l IH]; intros m; cbn [numberLines].
  - intros H. now apply elem_of_nil in H.
  - destruct (added x) eqn:Ex; intros H; apply elem_of_cons in H as [->|H].
    + right. now split.
    + rewrite filter_cons_False by congruence. now apply IH.
    + left. rewrite filter_cons_True by exact Ex. cbn. lia.
    + rewrite filter_cons_True by exact Ex. cbn [length].
      apply IH in H as [H|[Ha H]]; left; lia.
Qed.

(** Every run splits into its kept line, the added lines that follow it, and
    the rest. *)
Lemma added_run_split l :
  exists A l2, l = A ++ l2 /\ Forall (fun a => added a = true) A /\ keptFirst l2
               /\ (length l2 <= length l)%nat.
Proof.
  induction l as [|a l (A & l2 & -> & HA & Hk & Hlen)].
  - exists [], []. repeat split; [constructor | reflexivity].
  - destruct (added a) eqn:Ea.
    + exists (a :: A), l2. repeat split; [now constructor | exact Hk | cbn; lia].
    + exists [], (a :: A ++ l2). repeat split; [constructor | exact Ea | reflexivity].
Qed.

Lemma keptFirst_ind (P : list Change -> Prop) :
  P [] ->
  (forall x A l2, added x = false -> Forall (fun a => added a = true) A -> keptFirst l2 ->
                  P l2 -> P (x :: A ++ l2)) ->
  forall l, keptFirst l -> P l.
Proof.
  intros Hnil Hstep l. remember (length l) as n eqn:En. revert l En.
  induction n as [n IH] using lt_wf_ind. intros l En Hk.
  destruct l as [|x l1]; [exact Hnil|]. cbn in Hk.
  destruct (added_run_split l1) as (A & l2 & -> & HA & Hk2 & Hlen).
  apply Hstep; try assumption. apply (IH (length l2)); [cbn in En; lia | reflexivity | exact Hk2].
Qed.

Lemma insertedAt_app k (o1 o2 : list DiffChange) :
  insertedAt k (o1 ++ o2) = insertedAt k o1 ++ insertedAt k o2.
Proof. apply filter_app. Qed.

Lemma insertedAt_run m A :
  Forall (fun a => added a = true) A ->
  insertedAt m (map (fun a => withLineNumber a m) A) = map (fun a => withLineNumber a m) A.
Proof.
  intros H. unfold insertedAt. apply filter_all, Forall_fmap.
  eapply Forall_impl; [exact H|]. intros a Ha. now split.
Qed.

Lemma insertedAt_none k (o : list DiffChange) :
  Forall (fun c => lineNumber c <> k) o -> insertedAt k o = [].
Proof.
  intros H. unfold insertedAt. apply filter_none. eapply Forall_impl; [exact H|].
  intros c Hc [_ ?]. contradiction.
Qed.

Lemma linesOf_added_run m A :
  linesOf (map Line (map (fun a => withLineNumber a m) A))
  = map value (filter (fun x => removed x = false) A).
Proof.
  induction A as [|a A IH]; [reflexivity|].
  rewrite !map_cons, linesOf_cons. cbn [visible withLineNumber dremoved dvalue].
  destruct (removed a) eqn:Er.
  - rewrite filter_cons_False by congruence. exact IH.
  - rewrite filter_cons_True by exact Er. cbn [map]. now rewrite IH.
Qed.

(** The lines shown by the working array with the insertions of an overlay:
    the lines the overlay keeps or adds, in the order of the overlay. *)
Lemma weave_overlay l :
  keptFirst l ->
  forall (n : nat) (od : list Slot) (ins : Z -> list DiffChange),
    Forall2 (fun s x => shown s = keptText x) od (filter (fun x => added x = false) l) ->
    (forall j, (n <= j)%nat ->
               ins (Z.of_nat j) = insertedAt (Z.of_nat j) (numberLines (Z.of_nat n) l)) ->
    linesOf (weaveFrom n od ins) = map value (filter (fun x => removed x = false) l).
Proof.
  intros Hk. induction Hk as [|x A l2 Hx HA Hk2 IH] using keptFirst_ind;
    intros n od ins Hod Hins.
  - cbn in Hod. apply Forall2_nil_inv_r in Hod as ->. reflexivity.
  - rewrite filter_cons_True in Hod by exact Hx.
    rewrite filter_app, (filter_none _ A) in Hod
      by (eapply Forall_impl; [exact HA|]; intros a Ha; cbn; congruence).
    cbn [app] in Hod. apply Forall2_cons_inv_r in Hod as (s & od' & Hs & Hod' & ->).
    assert (Enum : numberLines (Z.of_nat n) (x :: A ++ l2)
                   = withLineNumber x (Z.of_nat n)
                     :: map (fun a => withLineNumber a (Z.of_nat n)) A
                     ++ numberLines (Z.of_nat (S n)) l2).
    { cbn [numberLines]. rewrite Hx. f_equal.
      replace (Z.of_nat n + 1) with (Z.of_nat (S n)) by lia.
      rewrite (numberLines_added_run _ A l2 HA).
      now replace (Z.of_nat (S n) - 1) with (Z.of_nat n) by lia. }
    assert (Eins : forall k, insertedAt k (numberLines (Z.of_nat n) (x :: A ++ l2))
                             = insertedAt k (map (fun a => withLineNumber a (Z.of_nat n)) A)
                               ++ insertedAt k (numberLines (Z.of_nat (S n)) l2)).
    { intros k. rewrite Enum. unfold insertedAt at 1.
      rewrite filter_cons_False by (cbn; intros [? _]; congruence).
      apply filter_app. }
    assert (Ehead : ins (Z.of_nat n) = map (fun a => withLineNumber a (Z.of_nat n)) A).
    { rewrite (Hins n) by lia. rewrite Eins, (insertedAt_run _ A HA).
      rewrite (insertedAt_none _ (numberLines _ l2)); [now rewrite app_nil_r|].
      apply Forall_forall. intros c Hc.
      apply (numberLines_keptFirst _ l2 c Hk2) in Hc. lia. }
    cbn [weaveFrom]. rewrite linesOf_cons, Ehead, linesOf_app, linesOf_added_run.
    rewrite (IH (S n) od' ins Hod').
    + unfold shown, keptText in Hs. destruct (removed x) eqn:Er.
      * rewrite filter_cons_False by congruence. rewrite filter_app, map_app.
        now destruct (visible s).
      * rewrite filter_cons_True by exact Er. rewrite filter_app. cbn [map]. rewrite map_app.
        destruct (visible s) as [c|]; [|discriminate]. cbn in Hs. injection Hs as ->.
        reflexivity.
    + intros j Hj. rewrite (Hins j) by lia. rewrite Eins.
      rewrite (insertedAt_none _ (map _ A)); [reflexivity|].
      apply Forall_fmap, Forall_forall. intros a _. cbn. lia.
Qed.

End OverlayNumbers.

Section OneOverlay.

Implicit Types (b : list DiffChange) (l : list Change) (m k : Z).

Lemma removalsOf_numberLines m l k :
  k ∈ removalsOf (numberLines m l)
  <-> exists i x, k = m + Z.of_nat i
                  /\ filter (fun x => added x = false) l !! i = Some x /\ removed x = true.
Proof.
  revert m. induction l as [|x l IH]; intros m; cbn [numberLines].
  - split; [intros H; now apply elem_of_nil in H|]. intros (i & y & _ & H & _).
    cbn in H. discriminate.
  - destruct (added x) eqn:Ex.
    + unfold removalsOf. rewrite filter_cons_False by (cbn; intros [? _]; congruence).
      rewrite filter_cons_False by congruence. apply IH.
    + rewrite (filter_cons_True (fun x => added x = false)) by exact Ex.
      unfold removalsOf. destruct (removed x) eqn:Er.
      * rewrite filter_cons_True by (now split). cbn [map]. rewrite elem_of_cons.
        fold (removalsOf (numberLines (m + 1) l)). rewrite IH. split.
        -- intros [->|(i & y & -> & Hy & Hr)].
           ++ exists 0%nat, x. split; [cbn; lia|]. split; [reflexivity | exact Er].
           ++ exists (S i), y. split; [lia|]. split; [exact Hy | exact Hr].
        -- intros (i & y & -> & Hy & Hr). destruct i as [|i]; [left; cbn; lia|].
           right. exists i, y. split; [lia|]. split; [exact Hy | exact Hr].
      * rewrite filter_cons_False by (cbn; intros [_ ?]; congruence).
        fold (removalsOf (numberLines (m + 1) l)). rewrite IH. split.
        -- intros (i & y & -> & Hy & Hr). exists (S i), y.
           split; [lia|]. split; [exact Hy | exact Hr].
        -- intros (i & y & -> & Hy & Hr). destruct i as [|i].
           ++ cbn in Hy. injection Hy as <-. congruence.
           ++ exists i, y. split; [lia|]. split; [exact Hy | exact Hr].
Qed.

(** The working array of one overlay shows, line for line, what the overlay
    keeps of the baseline. *)
Lemma overlay_working_array b l :
  Z.of_nat (length b) <= 2 ^ 32 - 1 -> Forall plain b ->
  map value (filter (fun x => added x = false) l) = map dvalue b ->
  let od := fold_left setRemoved (removalsOf (numberLines 0 l)) (map Line b) in
  Forall2 sameLine od b
  /\ Forall2 (fun s x => shown s = keptText x) od (filter (fun x => added x = false) l).
Proof.
  intros Hlen Hb Hmap od.
  assert (Hnb : length (filter (fun x => added x = false) l) = length b).
  { apply (f_equal length) in Hmap. now rewrite !length_map in Hmap. }
  assert (Hrange : Forall (fun k => 0 <= k < Z.of_nat (length b)) (removalsOf (numberLines 0 l))).
  { apply Forall_forall. intros k Hk. apply removalsOf_numberLines in Hk as (i & x & -> & Hx & _).
    apply lookup_lt_Some in Hx. lia. }
  assert (Hsame : Forall2 sameLine od b).
  { apply fold_setRemoved_sameLine; [exact Hlen | exact Hrange|].
    apply Forall2_fmap_l, Forall_Forall2_diag, Forall_forall. intros c _. now left. }
  split; [exact Hsame|].
  apply Forall2_same_length_lookup_2; [rewrite (Forall2_length _ _ _ Hsame); now symmetry|].
  intros i s x Hs Hx. unfold od in Hs.
  rewrite fold_setRemoved_lookup in Hs;
    [|now rewrite length_map|now rewrite length_map].
  rewrite list_lookup_fmap in Hs.
  assert (Hc : exists c, b !! i = Some c /\ dvalue c = value x).
  { apply (f_equal (fun t => t !! i)) in Hmap. rewrite !list_lookup_fmap, Hx in Hmap.
    destruct (b !! i) as [c|]; [|discriminate]. cbn in Hmap. injection Hmap as Hv. eauto. }
  destruct Hc as (c & Hc & Hv). rewrite Hc in Hs. cbn in Hs.
  rewrite Forall_forall in Hb. destruct (Hb c (list_elem_of_lookup_2 _ _ _ Hc)) as (_ & Hr & _).
  unfold shown, keptText. destruct (decide (Z.of_nat i ∈ removalsOf (numberLines 0 l))) as [Hin|Hnin].
  - injection Hs as <-. apply removalsOf_numberLines in Hin as (i' & x' & Ei & Hx' & Hr').
    assert (i' = i) as -> by lia. rewrite Hx in Hx'. injection Hx' as <-. now rewrite Hr'.
  - injection Hs as <-. cbn. rewrite Hr. cbn. destruct (removed x) eqn:Er; [|now rewrite Hv].
    exfalso. apply Hnin, removalsOf_numberLines. exists i, x.
    split; [lia|]. split; [exact Hx | exact Er].
Qed.

(** The merged list when every overlay inserts after lines of the baseline
    and removes lines of the baseline: the working array with the insertions
    of each line after that line. *)
Lemma merge_weave b (ds : list (list DiffChange)) :
  Z.of_nat (length b) <= 2 ^ 32 - 1 ->
  Forall (Forall (anchored b)) ds ->
  merge (Some b) (Some ds)
  = weaveFrom 0 (fold_left setRemoved (removedBy ds) (map Line b)) (insertionsAt ds).
Proof.
  intros Hlen Hds. destruct ds as [|d ds'].
  { cbn [merge removedBy map concat fold_left]. symmetry. apply weave_none. now intros j _. }
  set (ds := d :: ds') in *.
  assert (Hrange : Forall (fun k => 0 <= k < Z.of_nat (length b)) (removedBy ds)).
  { unfold removedBy. clearbody ds. induction Hds as [|d0 ds0 Hd _ IH]; [constructor|].
    rewrite map_cons, concat_cons, Forall_app. split; [|exact IH].
    unfold removalsOf. apply Forall_fmap, Forall_forall. intros c Hc.
    apply list_elem_of_filter in Hc as [[_ Hr] Hc].
    rewrite Forall_forall in Hd. apply (Hd c Hc). now right. }
  assert (Hsame : Forall2 sameLine (fold_left setRemoved (removedBy ds) (map Line b)) b).
  { apply fold_setRemoved_sameLine; [exact Hlen | exact Hrange|].
    apply Forall2_fmap_l, Forall_Forall2_diag, Forall_forall. intros c _. now left. }
  unfold ds at 1. rewrite merge_cons. fold ds. rewrite patched_fst. fold (removedBy ds).
  set (od := fold_left setRemoved (removedBy ds) (map Line b)) in *.
  set (pt := markConflicts (patched (map Line b) ds).2).
  assert (Hod : length od = length b) by exact (Forall2_length _ _ _ Hsame).
  assert (Hget : forall k p, Patch.get pt k = Some p -> changesAt k ds <> []
                             /\ changes p = insertionsAt ds k).
  { intros k p Hp. apply get_marked in Hp as [Hne ->]. split; [exact Hne|].
    unfold markPatch, insertionsAt. cbn [modifyLength changes].
    now destruct (1 <? countAt k ds). }
  assert (Hnone : forall k, Patch.get pt k = None -> insertionsAt ds k = []).
  { intros k Hk. unfold pt in Hk. rewrite get_markConflicts in Hk.
    destruct (patched_spec (map Line b) ds) as [_ Hspec]. rewrite Hspec in Hk.
    unfold entryAt in Hk. unfold insertionsAt.
    destruct (changesAt k ds); [now destruct (1 <? countAt k ds) | discriminate]. }
  assert (Hnd : NoDup pt.*1).
  { unfold pt. rewrite markConflicts_keys. apply patched_spec. }
  assert (Hkeys : forall k, k ∈ pt.*1 -> 0 <= k < Z.of_nat (length b)).
  { intros k Hin. apply get_is_Some in Hin as [p Hp]. apply Hget in Hp as [Hne _].
    destruct (changesAt k ds) as [|c cs] eqn:E; [contradiction|].
    assert (Hc : c ∈ changesAt k ds) by (rewrite E; left).
    apply changesAt_elem in Hc as (Ha & <- & d0 & Hd0 & Hc).
    rewrite Forall_forall in Hds. specialize (Hds d0 Hd0).
    rewrite Forall_forall in Hds. apply (Hds c Hc). now left. }
  assert (Eks : Patch.keys pt = merge_sort Z.le pt.*1).
  { unfold Patch.keys. rewrite filter_all, filter_none; [apply app_nil_r| |].
    - apply Forall_forall. intros k Hin Hno. apply Hno. specialize (Hkeys k Hin).
      unfold Js.isArrayIndex. apply Is_true_true, andb_true_iff.
      split; [apply Z.leb_le | apply Z.ltb_lt]; lia.
    - apply Forall_forall. intros k Hin. specialize (Hkeys k Hin).
      unfold Js.isArrayIndex. apply Is_true_true, andb_true_iff.
      split; [apply Z.leb_le | apply Z.ltb_lt]; lia. }
  unfold merged.
  destruct (entriesOf_present pt (Patch.keys pt)) as [E1 _].
  { apply Forall_forall. intros k. apply keys_elem. }
  change (-1) with (Z.of_nat 0 - 1).
  rewrite (assemble_weave od 0 (entriesOf pt (Patch.keys pt)) (insertionsAt ds)).
  - reflexivity.
  - rewrite E1, Eks. apply (StronglySorted_merge_sort Z.le).
  - rewrite E1. now apply keys_NoDup.
  - rewrite E1. apply Forall_forall. intros k Hin. apply keys_elem in Hin.
    specialize (Hkeys k Hin). lia.
  - intros k p Hin. apply entriesOf_inv in Hin as [_ Hp]. now apply Hget in Hp as [_ ->].
  - intros j _ Hnin. rewrite E1, keys_elem in Hnin. apply get_None in Hnin. now apply Hnone.
Qed.

Lemma insertionsAt_one (o : list DiffChange) k : insertionsAt [o] k = insertedAt k o.
Proof.
  unfold insertionsAt. rewrite changesAt_one, countAt_one. now destruct (decide _).
Qed.

Lemma numberLines_anchored b l :
  length (filter (fun x => added x = false) l) = length b -> keptFirst l ->
  Forall (anchored b) (numberLines 0 l).
Proof.
  intros Hnb Hk. apply Forall_forall. intros c Hc _.
  pose proof (numberLines_keptFirst 0 l c Hk Hc).
  destruct (numberLines_below 0 l c Hc) as [?|[_ ?]]; lia.
Qed.

End OneOverlay.

(** X10: A file written by two templates gets the text of the second.  Let the
    baseline hold plain lines, and let the overlay, numbered as [diff]
    numbers its changes, keep or remove these lines in their order, and not
    begin with an added line.  Then the merged list shows the lines the
    overlay keeps or adds, in the order of the overlay, and it is read
    without error as that text. *)
Theorem one_overlay_gives_its_text (b : list DiffChange) (l : list Change) :
  Z.of_nat (length b) <= 2 ^ 32 - 1 -> Forall plain b ->
  map value (filter (fun x => added x = false) l) = map dvalue b ->
  keptFirst l ->
  linesOf (merge (Some b) (Some [numberLines 0 l]))
  = map value (filter (fun x => removed x = false) l)
  /\ parseMergeBlocksToText <$> parseDiffToMergeBlocks (merge (Some b) (Some [numberLines 0 l]))
     = Some (Js.join (map value (filter (fun x => removed x = false) l))).
Proof.
  intros Hlen Hb Hmap Hk.
  destruct (overlay_working_array b l Hlen Hb Hmap) as [Hsame Hshown].
  assert (Hnb : length (filter (fun x => added x = false) l) = length b).
  { apply (f_equal length) in Hmap. now rewrite !length_map in Hmap. }
  rewrite (merge_weave b [numberLines 0 l] Hlen)
    by (constructor; [now apply numberLines_anchored | constructor]).
  unfold removedBy. cbn [map concat]. rewrite app_nil_r.
  rewrite (weave_ext 0 _ _ (fun k => insertedAt k (numberLines 0 l)))
    by (intros j _; apply insertionsAt_one).
  set (od := fold_left setRemoved (removalsOf (numberLines 0 l)) (map Line b)) in *.
  set (ins := fun k => insertedAt k (numberLines 0 l)).
  assert (Hlines : linesOf (weaveFrom 0 od ins)
                   = map value (filter (fun x => removed x = false) l)).
  { apply (weave_overlay l Hk 0 od ins Hshown). intros j _. reflexivity. }
  split; [exact Hlines|].
  assert (Hcalm : Forall calm (weaveFrom 0 od ins)).
  { apply weave_calm.
    - apply (sameLine_calm od b); [|exact Hsame].
      eapply Forall_impl; [exact Hb|]. intros c (Ha & _ & Hc). now split.
    - intros k. apply Forall_forall. intros c Hc.
      apply list_elem_of_filter in Hc as [_ Hc].
      pose proof (numberLines_unmarked 0 l) as Hun. rewrite Forall_forall in Hun.
      now destruct (Hun c Hc). }
  unfold parseDiffToMergeBlocks. rewrite (parseFrom_calm [] _ Hcalm), appendRun_okBlocks.
  cbn. now rewrite toText_okBlocks, Hlines.
Qed.

Lemma one_overlay_gives_its_text_witness :
  linesOf (merge (Some [lineA; lineB]) (Some [numberLines 0 runsX]))
  = map value (filter (fun x => removed x = false) runsX)
  /\ parseMergeBlocksToText
       <$> parseDiffToMergeBlocks (merge (Some [lineA; lineB]) (Some [numberLines 0 runsX]))
     = Some (Js.join (map value (filter (fun x => removed x = false) runsX))).
Proof.
  apply (one_overlay_gives_its_text [lineA; lineB] runsX).
  - vm_compute. discriminate.
  - apply (bool_decide_unpack _). vm_compute. exact I.
  - reflexivity.
  - reflexivity.
Defined.

Lemma weave_baseline (i : nat) (od : list Slot) (ins : Z -> list DiffChange) :
  Forall (fun s => ~ inserted s) od ->
  (forall k, Forall (fun c => dadded c = true) (ins k)) ->
  filter (fun s => ~ inserted s) (weaveFrom i od ins) = od.
Proof.
  intros Hod Hins. revert i. induction Hod as [|s r Hs _ IH]; intros i; [reflexivity|].
  cbn [weaveFrom]. rewrite filter_cons_True by exact Hs. f_equal.
  rewrite filter_app, IH, filter_none; [reflexivity|].
  apply Forall_fmap. eapply Forall_impl; [apply Hins|]. intros c Hc Hno. now apply Hno.
Qed.

(** X11: When the overlays insert after lines of the baseline and remove lines of
    the baseline, the merged list is the baseline, each line followed by what
    the overlays insert after it, in the order of the overlays, marked as
    conflicts when more than one overlay inserts there.  Every line of the
    baseline is in it once, in its place, marked removed or not. *)
Theorem merge_weaves_the_insertions (b : list DiffChange) (ds : list (list DiffChange)) :
  Z.of_nat (length b) <= 2 ^ 32 - 1 ->
  Forall (fun c => dadded c = false) b ->
  Forall (Forall (anchored b)) ds ->
  merge (Some b) (Some ds)
  = weaveFrom 0 (fold_left setRemoved (removedBy ds) (map Line b)) (insertionsAt ds)
  /\ Forall2 sameLine (filter (fun s => ~ inserted s) (merge (Some b) (Some ds))) b.
Proof.
  intros Hlen Hb Hds. rewrite (merge_weave b ds Hlen Hds). split; [reflexivity|].
  assert (Hsame : Forall2 sameLine (fold_left setRemoved (removedBy ds) (map Line b)) b).
  { apply fold_setRemoved_sameLine; [exact Hlen| |].
    - unfold removedBy. induction Hds as [|d0 ds0 Hd _ IH]; [constructor|].
      rewrite map_cons, concat_cons, Forall_app. split; [|exact IH].
      unfold removalsOf. apply Forall_fmap, Forall_forall. intros c Hc.
      apply list_elem_of_filter in Hc as [[_ Hr] Hc].
      rewrite Forall_forall in Hd. apply (Hd c Hc). now right.
    - apply Forall2_fmap_l, Forall_Forall2_diag, Forall_forall. intros c _. now left. }
  rewrite weave_baseline; [exact Hsame| |].
  - clear -Hb Hsame. induction Hsame as [|s c od b' Hs _ IH]; [constructor|].
    apply Forall_cons in Hb as [Hc Hb]. constructor; [|now apply IH].
    destruct Hs as [->| ->]; cbn; congruence.
  - intros k. unfold insertionsAt. apply Forall_forall. intros c Hc.
    destruct (1 <? countAt k ds).
    + apply list_elem_of_fmap in Hc as (c0 & -> & Hc0). now apply changesAt_elem in Hc0 as [? _].
    + now apply changesAt_elem in Hc as [? _].
Qed.

Lemma merge_weaves_the_insertions_witness :
  merge (Some [lineA; lineB]) (Some [overlayX; overlayY])
  = weaveFrom 0 (fold_left setRemoved (removedBy [overlayX; overlayY]) (map Line [lineA; lineB]))
              (insertionsAt [overlayX; overlayY])
  /\ Forall2 sameLine
             (filter (fun s => ~ inserted s)
                     (merge (Some [lineA; lineB]) (Some [overlayX; overlayY])))
             [lineA; lineB].
Proof.
  apply (merge_weaves_the_insertions [lineA; lineB] [overlayX; overlayY]).
  - vm_compute. discriminate.
  - repeat constructor.
  - apply (bool_decide_unpack _). vm_compute. exact I.
Defined.

(** ** Generator: inputs, origins and pathnames *)

Section InputFacts.

Lemma split_no_separator (s : string) (c : ascii) : Js.includes s c = false -> Js.split s c = [s].
Proof.
  induction s as [|x r IH]; [reflexivity|]. cbn [Js.includes Js.split].
  intros H. apply orb_false_iff in H as [Hx Hr]. rewrite Hx, (IH Hr). reflexivity.
Qed.

Lemma split_at_separator (o r : string) (c : ascii) :
  Js.includes o c = false -> Js.split (o +:+ String c r) c = o :: Js.split r c.
Proof.
  induction o as [|x o IH]; intros H.
  - rewrite append_nil_l. cbn [Js.split]. now rewrite Ascii.eqb_refl.
  - cbn [Js.includes] in H. apply orb_false_iff in H as [Hx Ho].
    rewrite append_cons. cbn [Js.split]. rewrite Hx, (IH Ho). reflexivity.
Qed.

Lemma includes_separator (o r : string) (c : ascii) : Js.includes (o +:+ String c r) c = true.
Proof.
  induction o as [|x o IH].
  - rewrite append_nil_l. cbn [Js.includes]. now rewrite Ascii.eqb_refl.
  - rewrite append_cons. cbn [Js.includes]. rewrite IH. apply orb_true_r.
Qed.

Lemma uniq_length `{EqDecision A} (l : list A) : (length (uniq l) <= length l)%nat.
Proof.
  induction l as [|x l IH]; [reflexivity|]. cbn [uniq length].
  pose proof (length_filter (fun y => y <> x) (uniq l)). lia.
Qed.

Lemma uniq_NoDup_id `{EqDecision A} (l : list A) : NoDup l -> uniq l = l.
Proof.
  induction 1 as [|x l Hx _ IH]; [reflexivity|]. cbn [uniq]. rewrite IH. f_equal.
  apply filter_all, Forall_forall. intros y Hy ->. contradiction.
Qed.

Lemma uniq_length_NoDup `{EqDecision A} (l : list A) : length (uniq l) = length l -> NoDup l.
Proof.
  induction l as [|x l IH]; [constructor|]. cbn [uniq length]. intros H.
  pose proof (length_filter (fun y => y <> x) (uniq l)) as H1.
  pose proof (uniq_length l) as H2.
  assert (E1 : length (filter (fun y => y <> x) (uniq l)) = length (uniq l)) by lia.
  assert (E2 : length (uniq l) = length l) by lia.
  constructor; [|now apply IH].
  intros Hx. apply uniq_elem in Hx.
  pose proof (length_filter_lt (fun y => y <> x) (uniq l) x Hx ltac:(now intros ?)). lia.
Qed.

End InputFacts.

(** X12: [initialize] cuts the template name given by the user at its colons: the
    part before the first colon is the origin, even when it is empty, the
    part up to the second colon is the name, and what follows a second colon
    is dropped; without colon the origin is [github]. *)
Theorem initialize_cuts_at_colons (o n rest : string) :
  Js.includes o ":" = false -> Js.includes n ":" = false ->
  initialize (Some (o +:+ ":" +:+ n)) = (o, Some n)
  /\ initialize (Some (o +:+ ":" +:+ n +:+ ":" +:+ rest)) = (o, Some n)
  /\ initialize (Some n) = ("github", Some n).
Proof.
  intros Ho Hn. unfold initialize. repeat split.
  - change (":" +:+ n) with (String ":" n).
    rewrite includes_separator, (split_at_separator o n _ Ho), (split_no_separator n _ Hn).
    reflexivity.
  - change (":" +:+ n +:+ ":" +:+ rest) with (String ":" (n +:+ String ":" rest)).
    rewrite includes_separator, (split_at_separator o _ _ Ho), (split_at_separator n _ _ Hn).
    reflexivity.
  - now rewrite Hn.
Qed.

Lemma initialize_cuts_at_colons_witness :
  initialize (Some "gitlab:group/app") = ("gitlab", Some "group/app")
  /\ initialize (Some "gitlab:group/app:v2") = ("gitlab", Some "group/app")
  /\ initialize (Some "group/app") = ("github", Some "group/app").
Proof.
  exact (initialize_cuts_at_colons "gitlab" "group/app" "v2" eq_refl eq_refl).
Defined.

(** X13: [checkContext] returns if and only if no two origins have the same name. *)
Theorem checkContext_returns_iff (origins : list Origin) :
  checkContext origins = Returns <-> NoDup (map oname origins).
Proof.
  unfold checkContext. pose proof (uniq_length (map oname origins)) as Hle.
  destruct (Nat.ltb_spec (length (uniq (map oname origins))) (length (map oname origins)))
    as [Hlt|Hge].
  - split; [discriminate|]. intros H. rewrite (uniq_NoDup_id _ H) in Hlt. lia.
  - split; [|reflexivity]. intros _. apply uniq_length_NoDup. lia.
Qed.

(** ** Generator: the queries for the template properties *)

Section QueryFacts.

Variables (Answers Props : Type).
Variable emptyProps : Props.
Variable answersParser : Answers -> Props * list string.
Variable World : Type.
Variable templateConfig : TemplateConfig.

Implicit Types (st : QueryState Props World).

Lemma startsWith_sliceFrom (l prefix : string) :
  Js.startsWith l prefix = true -> prefix +:+ Js.sliceFrom (String.length prefix) l = l.
Proof.
  revert l. induction prefix as [|x prefix IH]; intros l; [reflexivity|].
  destruct l as [|y l]; cbn [Js.startsWith]; [discriminate|].
  intros H. apply andb_true_iff in H as [Hx Hl]. apply Ascii.eqb_eq in Hx. subst y.
  cbn [String.length Js.sliceFrom]. now rewrite append_cons, (IH l Hl).
Qed.

Lemma main_is_no_extend_label (l : string) :
  String.eqb l "main" = true -> Js.startsWith l EXTEND_TEMPLATE_LABEL_PREFIX = false.
Proof. intros H. apply String.eqb_eq in H. now subst. Qed.

Lemma queryAll_without_callback (fuel : nat) st :
  (length (pendingTemplateLabels Props World st) <= fuel)%nat ->
  queryAllTemplateProps Answers Props emptyProps answersParser World None templateConfig fuel st
  = Some (mkQuery Props World [] (templatePropsList Props World st)
            (targetedIds Props World st
             ++ map targetOf
                    (filter (fun l => Is_true (Js.startsWith l EXTEND_TEMPLATE_LABEL_PREFIX))
                            (pendingTemplateLabels Props World st)))
            (qworld Props World st) (asked Props World st)).
Proof.
  revert st. induction fuel as [|fuel IH]; intros [pending items ids w asks] Hlen;
    cbn [pendingTemplateLabels templatePropsList targetedIds qworld asked] in *.
  - destruct pending; [|cbn in Hlen; lia]. cbn. now rewrite app_nil_r.
  - destruct pending as [|l rest]; [cbn; now rewrite app_nil_r|].
    cbn [queryAllTemplateProps pendingTemplateLabels]. cbn in Hlen.
    unfold shiftLabel, getTemplateProps, pushTargeted.
    cbn [pendingTemplateLabels templatePropsList targetedIds qworld asked].
    destruct (String.eqb l "main") eqn:Em.
    + rewrite IH by (cbn; lia). cbn [pendingTemplateLabels templatePropsList targetedIds qworld asked].
      rewrite filter_cons_False; [reflexivity|].
      rewrite (main_is_no_extend_label l Em). now intros [].
    + destruct (Js.startsWith l EXTEND_TEMPLATE_LABEL_PREFIX) eqn:Es.
      * rewrite IH by (cbn; lia).
        cbn [pendingTemplateLabels templatePropsList targetedIds qworld asked].
        rewrite filter_cons_True by (now rewrite Es). cbn [map].
        now rewrite <- app_assoc.
      * rewrite IH by (cbn; lia).
        cbn [pendingTemplateLabels templatePropsList targetedIds qworld asked].
        rewrite filter_cons_False; [reflexivity|]. rewrite Es. now intros [].
Qed.

Variable callback : list Question -> World -> Answers * World.

(** With a callback, [getTemplateProps] records one item under the label. *)
Lemma getTemplateProps_records (l : string) st :
  l <> "" ->
  exists item pending w asks,
    label Props item = l
    /\ getTemplateProps Answers Props emptyProps answersParser World (Some callback)
                        templateConfig (Some l) st
       = mkQuery Props World pending (templatePropsList Props World st ++ [item])
                 (targetedIds Props World st) w asks.
Proof.
  intros Hl. destruct l as [|x r]; [contradiction|].
  unfold getTemplateProps. cbn [truthyLabel default].
  destruct (equestions <$> getExtendTemplate templateConfig (String x r)) as [[|q qs]|].
  - eexists _, _, _, _. split; [|reflexivity]. reflexivity.
  - destruct (callback (questions templateConfig) (qworld Props World st)) as [answers w].
    destruct (answersParser answers) as [currentProps pending].
    eexists _, _, _, _. split; [|reflexivity]. reflexivity.
  - eexists _, _, _, _. split; [|reflexivity]. reflexivity.
Qed.

Lemma getTemplateProps_main_targets st :
  targetedIds Props World
    (getTemplateProps Answers Props emptyProps answersParser World (Some callback)
                      templateConfig None st)
  = targetedIds Props World st
  /\ exists more, templatePropsList Props World
                    (getTemplateProps Answers Props emptyProps answersParser World (Some callback)
                                      templateConfig None st)
                  = templatePropsList Props World st ++ more.
Proof.
  unfold getTemplateProps. cbn [truthyLabel default].
  destruct (questions templateConfig) as [|q qs].
  - split; [reflexivity|]. eexists. reflexivity.
  - destruct (callback (q :: qs) (qworld Props World st)) as [answers w].
    destruct (answersParser answers) as [currentProps pending].
    split; [reflexivity|]. eexists. reflexivity.
Qed.

Lemma queryAll_step (fuel : nat) (l : string) (rest : list string) st
                    (cb : option (list Question -> World -> Answers * World)) :
  pendingTemplateLabels Props World st = l :: rest ->
  queryAllTemplateProps Answers Props emptyProps answersParser World cb templateConfig (S fuel) st
  = if String.eqb l "main" then
      queryAllTemplateProps Answers Props emptyProps answersParser World cb templateConfig fuel
        (getTemplateProps Answers Props emptyProps answersParser World cb templateConfig None
                          (shiftLabel Props World st rest))
    else if Js.startsWith l EXTEND_TEMPLATE_LABEL_PREFIX then
      queryAllTemplateProps Answers Props emptyProps answersParser World cb templateConfig fuel
        (pushTargeted Props World (targetOf l)
           (getTemplateProps Answers Props emptyProps answersParser World cb templateConfig
                             (Some l) (shiftLabel Props World st rest)))
    else
      queryAllTemplateProps Answers Props emptyProps answersParser World cb templateConfig fuel
        (shiftLabel Props World st rest).
Proof. intros E. cbn [queryAllTemplateProps]. now rewrite E. Qed.

Lemma queryAll_answered (fuel : nat) st st' :
  queryAllTemplateProps Answers Props emptyProps answersParser World (Some callback)
                        templateConfig fuel st = Some st' ->
  answered st -> answered st'.
Proof.
  revert st. induction fuel as [|fuel IH]; intros st.
  - cbn [queryAllTemplateProps]. destruct (pendingTemplateLabels Props World st);
      [now intros [= <-] | discriminate].
  - destruct (pendingTemplateLabels Props World st) as [|l rest] eqn:Ep.
    { cbn [queryAllTemplateProps]. rewrite Ep. now intros [= <-]. }
    rewrite (queryAll_step fuel l rest st _ Ep). intros H Hans.
    destruct (String.eqb l "main") eqn:Em.
    + apply (IH _ H). intros t Ht.
      destruct (getTemplateProps_main_targets (shiftLabel Props World st rest)) as [Et [more Ei]].
      rewrite Et in Ht. destruct (Hans t Ht) as (item & Hitem & Hlabel).
      exists item. split; [|exact Hlabel]. rewrite Ei. apply elem_of_app. now left.
    + destruct (Js.startsWith l EXTEND_TEMPLATE_LABEL_PREFIX) eqn:Es.
      * apply (IH _ H). intros t Ht.
        assert (Hl : l <> "") by (intros ->; discriminate).
        destruct (getTemplateProps_records l (shiftLabel Props World st rest) Hl)
          as (item & pending' & w' & asks' & Hlabel & E).
        rewrite E in Ht |- *. unfold pushTargeted in *.
        cbn [pendingTemplateLabels templatePropsList targetedIds qworld asked shiftLabel] in *.
        apply elem_of_app in Ht as [Ht|Ht].
        -- destruct (Hans t Ht) as (item0 & Hitem0 & Hlabel0).
           exists item0. split; [|exact Hlabel0]. apply elem_of_app. now left.
        -- apply list_elem_of_singleton in Ht. subst t. exists item.
           split; [apply elem_of_app; right; now apply list_elem_of_singleton|].
           rewrite Hlabel. symmetry. now apply startsWith_sliceFrom.
      * apply (IH _ H). exact Hans.
Qed.

End QueryFacts.

(** X14: Without a [getTemplateProps] callback, [queryAllTemplateProps] ends
    after one turn for each pending label: it asks nothing and records no
    properties, and still targets the extend template of every pending label
    that has the prefix [extend:]. *)
Theorem queries_without_callback (Answers Props : Type) (emptyProps : Props)
    (answersParser : Answers -> Props * list string) (World : Type)
    (templateConfig : TemplateConfig) (fuel : nat) (st : QueryState Props World) :
  (length (pendingTemplateLabels Props World st) <= fuel)%nat ->
  queryAllTemplateProps Answers Props emptyProps answersParser World None templateConfig fuel st
  = Some (mkQuery Props World [] (templatePropsList Props World st)
            (targetedIds Props World st
             ++ map targetOf
                    (filter (fun l => Is_true (Js.startsWith l EXTEND_TEMPLATE_LABEL_PREFIX))
                            (pendingTemplateLabels Props World st)))
            (qworld Props World st) (asked Props World st)).
Proof. apply queryAll_without_callback. Qed.

Lemma queries_without_callback_witness :
  queryAllTemplateProps (list string) unit tt answersAsLabels nat None configById 2
                        (mkQuery unit nat ["main"; "extend:react"] [] [] 0%nat [])
  = Some (mkQuery unit nat [] [] ["react"] 0%nat []).
Proof.
  apply (queries_without_callback (list string) unit tt answersAsLabels nat configById 2
           (mkQuery unit nat ["main"; "extend:react"] [] [] 0%nat [])).
  cbn. lia.
Defined.

(** X15: With a callback, every extend template that [queryAllTemplateProps]
    targets has an item of properties under the label [extend:] followed by
    its id, which is where [copyTemplateFileToCacheTable] looks for it. *)
Theorem targeted_templates_have_props (Answers Props : Type) (emptyProps : Props)
    (answersParser : Answers -> Props * list string) (World : Type)
    (callback : list Question -> World -> Answers * World)
    (templateConfig : TemplateConfig) (fuel : nat) (st st' : QueryState Props World) :
  queryAllTemplateProps Answers Props emptyProps answersParser World (Some callback)
                        templateConfig fuel st = Some st' ->
  answered st -> answered st'.
Proof. apply queryAll_answered. Qed.

Lemma targeted_templates_have_props_witness :
  answered (mkQuery unit nat [] [mkPropsItem unit tt "main"; mkPropsItem unit tt "extend:react"]
                    ["react"] 1%nat [mainQuestions]).
Proof.
  apply (targeted_templates_have_props (list string) unit tt answersAsLabels nat pickReact
           configById 5 initialQuery).
  - reflexivity.
  - intros t Ht. cbn in Ht. now apply elem_of_nil in Ht.
Defined.

(** ** Generator: rendering the templates into the cache table *)

Section CopyFacts.

Variable diffLines : string -> string -> list Change.
Variables (Props Data : Type).
Variable dataOf : option (TemplatePropsItem Props) -> Data.
Variable lodashMerge : Data -> Props -> Data.
Variable ejsRender : string -> Data -> option string.
Variable readTemplateEntities : string -> list TemplateEntity.
Variable readFileSync : string -> Buffer.
Variable bufferToString : Buffer -> string.

Implicit Types (ct : gmap string (list (list DiffChange))) (st : CopyState Data).

Lemma foldOpt_id {A B} (f : A -> B -> option A) (l : list B) (a : A) :
  (forall x, x ∈ l -> f a x = Some a) -> foldOpt f l a = Some a.
Proof.
  induction l as [|x l IH]; intros H; [reflexivity|]. cbn [foldOpt].
  rewrite (H x ltac:(left)). apply IH. intros y Hy. apply H. now right.
Qed.

Lemma baselineFirst_first (content : string) : baselineFirst diffLines [diff diffLines content None].
Proof. exists content, []. split; [reflexivity | constructor]. Qed.

Lemma baselineFirst_push (original : list DiffChange) (others : list (list DiffChange))
                         (content : string) :
  baselineFirst diffLines (original :: others) ->
  baselineFirst diffLines
    ((original :: others) ++ [diff diffLines (Js.join (map dvalue original)) (Some content)]).
Proof.
  intros (c0 & overlays & [= -> ->] & Hov).
  exists c0, (overlays ++ [diff diffLines (Js.join (map dvalue (diff diffLines c0 None)))
                                (Some content)]).
  split; [reflexivity|]. rewrite Forall_app, Forall_singleton. split; [exact Hov | eauto].
Qed.

(** One entity: the entries stay well formed, and they only get longer. *)
Lemma copyEntity_cache (props : Props) st st' (entity : TemplateEntity) :
  copyEntity diffLines Props Data lodashMerge ejsRender readFileSync bufferToString
             props st entity = Some st' ->
  ((forall p diffs, copiedCacheTable Data st !! p = Some diffs -> baselineFirst diffLines diffs) ->
   forall p diffs, copiedCacheTable Data st' !! p = Some diffs -> baselineFirst diffLines diffs)
  /\ (forall p diffs, copiedCacheTable Data st !! p = Some diffs ->
        exists more, copiedCacheTable Data st' !! p = Some (diffs ++ more)).
Proof.
  unfold copyEntity. destruct (isDirectory entity).
  { intros [= <-]. split; [auto|]. intros p diffs Hp. exists []. now rewrite app_nil_r. }
  destruct (isBinary entity).
  { intros [= <-]. cbn. split; [auto|]. intros p diffs Hp. exists []. now rewrite app_nil_r. }
  destruct (if Js.startsWith (entityName entity) TEMPLATE_FILE_PREFIX then _ else _)
    as [content|]; [|discriminate].
  set (q := _ +:+ (if Js.startsWith (entityName entity) TEMPLATE_FILE_PREFIX then _ else _)).
  destruct (copiedCacheTable Data st !! q) as [[|original others]|] eqn:Eq;
    intros [= <-]; cbn [copiedCacheTable].
  - split.
    + intros Hwf p diffs. destruct (decide (p = q)) as [->|Hne].
      * rewrite lookup_insert_eq. intros [= <-]. apply baselineFirst_first.
      * rewrite lookup_insert_ne by congruence. apply Hwf.
    + intros p diffs Hp. destruct (decide (p = q)) as [->|Hne].
      * rewrite lookup_insert_eq. rewrite Eq in Hp. injection Hp as <-. eauto.
      * rewrite lookup_insert_ne by congruence. exists []. now rewrite app_nil_r.
  - split.
    + intros Hwf p diffs. destruct (decide (p = q)) as [->|Hne].
      * rewrite lookup_insert_eq. intros [= <-]. apply baselineFirst_push. now apply (Hwf q).
      * rewrite lookup_insert_ne by congruence. apply Hwf.
    + intros p diffs Hp. destruct (decide (p = q)) as [->|Hne].
      * rewrite lookup_insert_eq. rewrite Eq in Hp. injection Hp as <-. eauto.
      * rewrite lookup_insert_ne by congruence. exists []. now rewrite app_nil_r.
  - split.
    + intros Hwf p diffs. destruct (decide (p = q)) as [->|Hne].
      * rewrite lookup_insert_eq. intros [= <-]. apply baselineFirst_first.
      * rewrite lookup_insert_ne by congruence. apply Hwf.
    + intros p diffs Hp. destruct (decide (p = q)) as [->|Hne].
      * congruence.
      * rewrite lookup_insert_ne by congruence. exists []. now rewrite app_nil_r.
Qed.

Lemma reached_refl ct : reached diffLines ct ct.
Proof. split; [auto|]. intros p diffs Hp. exists []. now rewrite app_nil_r. Qed.

Lemma reached_trans ct0 ct1 ct2 :
  reached diffLines ct0 ct1 -> reached diffLines ct1 ct2 -> reached diffLines ct0 ct2.
Proof.
  intros [A1 A2] [B1 B2]. split; [intros H; now apply B1, A1|].
  intros p diffs Hp. destruct (A2 p diffs Hp) as [m1 H1]. destruct (B2 p _ H1) as [m2 H2].
  exists (m1 ++ m2). now rewrite app_assoc.
Qed.

Lemma copyTemplate_cache (templatePropsList : list (TemplatePropsItem Props))
                         ct0 st st' (templateId : string) :
  reached diffLines ct0 (copiedCacheTable Data st) ->
  copyTemplate diffLines Props Data lodashMerge ejsRender readTemplateEntities readFileSync
               bufferToString templatePropsList st templateId = Some st' ->
  reached diffLines ct0 (copiedCacheTable Data st').
Proof.
  intros Hst. unfold copyTemplate.
  destruct (List.find _ templatePropsList) as [item|]; [|now intros [= <-]].
  destruct (if String.eqb (label Props item) "main" then _ else _) as [start|];
    [|now intros [= <-]].
  apply (foldOpt_inv (fun s => reached diffLines ct0 (copiedCacheTable Data s))); [exact Hst|].
  intros s entity s' _ Hs E. apply (reached_trans ct0 _ _ Hs).
  exact (copyEntity_cache _ s s' entity E).
Qed.

Lemma copy_without_props (targetedExtendTemplateIds : list string) ct
                         (bt : gmap string Buffer) :
  copyTemplateFileToCacheTable diffLines Props Data dataOf lodashMerge ejsRender
                               readTemplateEntities readFileSync bufferToString
                               [] targetedExtendTemplateIds ct bt
  = Some (ct, bt).
Proof.
  unfold copyTemplateFileToCacheTable. rewrite foldOpt_id; [reflexivity|].
  intros templateId _. reflexivity.
Qed.

End CopyFacts.

Lemma queryAll_None_props (Answers Props : Type) (emptyProps : Props)
    (answersParser : Answers -> Props * list string) (World : Type)
    (templateConfig : TemplateConfig) (fuel : nat) (st st' : QueryState Props World) :
  queryAllTemplateProps Answers Props emptyProps answersParser World None templateConfig fuel st
  = Some st' ->
  templatePropsList Props World st' = templatePropsList Props World st.
Proof.
  revert st. induction fuel as [|fuel IH]; intros st.
  - cbn [queryAllTemplateProps]. destruct (pendingTemplateLabels Props World st);
      [now intros [= <-] | discriminate].
  - destruct (pendingTemplateLabels Props World st) as [|l rest] eqn:Ep.
    { cbn [queryAllTemplateProps]. rewrite Ep. now intros [= <-]. }
    rewrite (queryAll_step Answers Props emptyProps answersParser World templateConfig
                           fuel l rest st None Ep).
    destruct (String.eqb l "main"); [|destruct (Js.startsWith l EXTEND_TEMPLATE_LABEL_PREFIX)];
      intros H; apply IH in H; exact H.
Qed.

(** X16: During the rendering the cache table only grows at the end of its
    entries, and it keeps its form: the first change list of a file is the
    self-diff of the text the first template wrote for it, and every later
    one is the diff of a later text against the lines of that first list. *)
Theorem rendering_fills_cache_table (diffLines : string -> string -> list Change)
    (Props Data : Type) (dataOf : option (TemplatePropsItem Props) -> Data)
    (lodashMerge : Data -> Props -> Data) (ejsRender : string -> Data -> option string)
    (readTemplateEntities : string -> list TemplateEntity)
    (readFileSync : string -> Buffer) (bufferToString : Buffer -> string)
    (templatePropsList : list (TemplatePropsItem Props))
    (targetedExtendTemplateIds : list string)
    (cacheTable cacheTable' : gmap string (list (list DiffChange)))
    (binaryTable binaryTable' : gmap string Buffer) :
  copyTemplateFileToCacheTable diffLines Props Data dataOf lodashMerge ejsRender
                               readTemplateEntities readFileSync bufferToString
                               templatePropsList targetedExtendTemplateIds
                               cacheTable binaryTable
  = Some (cacheTable', binaryTable') ->
  (forall p diffs, cacheTable !! p = Some diffs -> baselineFirst diffLines diffs) ->
  (forall p diffs, cacheTable' !! p = Some diffs -> baselineFirst diffLines diffs)
  /\ (forall p diffs, cacheTable !! p = Some diffs ->
        exists more, cacheTable' !! p = Some (diffs ++ more)).
Proof.
  unfold copyTemplateFileToCacheTable. intros E Hwf.
  destruct (foldOpt _ _ _) as [st'|] eqn:Ef; [|discriminate].
  cbn in E. injection E as <- _.
  apply (foldOpt_inv (fun s => reached diffLines cacheTable (copiedCacheTable Data s))) in Ef
    as [H1 H2].
  - split; [now apply H1 | exact H2].
  - apply reached_refl.
  - intros s templateId s' _ Hs Hstep.
    exact (copyTemplate_cache diffLines Props Data lodashMerge ejsRender readTemplateEntities
             readFileSync bufferToString templatePropsList cacheTable s s' templateId Hs Hstep).
Qed.

Lemma rendering_fills_cache_table_witness :
  (forall p diffs, exampleCopied !! p = Some diffs -> baselineFirst LineDiff.diffLines diffs)
  /\ (forall p diffs, (∅ : gmap string (list (list DiffChange))) !! p = Some diffs ->
        exists more, exampleCopied !! p = Some (diffs ++ more)).
Proof.
  apply (rendering_fills_cache_table LineDiff.diffLines unit unit (fun _ => tt) (fun d _ => d)
           (fun raw _ => Some raw) exampleEntities exampleVolume string_of_list_byte
           examplePropsList ["react"] ∅ exampleCopied ∅ ∅).
  - vm_compute. reflexivity.
  - intros p diffs H. rewrite lookup_empty in H. discriminate.
Defined.

(** X17: Without a [getTemplateProps] callback no properties are recorded, and
    [copyTemplateFileToCacheTable] then finds no template to render: it
    leaves the cache table and the binary table as they are. *)
Theorem no_callback_no_files (diffLines : string -> string -> list Change)
    (Answers Props Data : Type) (emptyProps : Props)
    (answersParser : Answers -> Props * list string) (World : Type)
    (templateConfig : TemplateConfig)
    (dataOf : option (TemplatePropsItem Props) -> Data)
    (lodashMerge : Data -> Props -> Data) (ejsRender : string -> Data -> option string)
    (readTemplateEntities : string -> list TemplateEntity)
    (readFileSync : string -> Buffer) (bufferToString : Buffer -> string)
    (fuel : nat) (st st' : QueryState Props World)
    (cacheTable : gmap string (list (list DiffChange))) (binaryTable : gmap string Buffer) :
  queryAllTemplateProps Answers Props emptyProps answersParser World None templateConfig fuel st
  = Some st' ->
  templatePropsList Props World st = [] ->
  copyTemplateFileToCacheTable diffLines Props Data dataOf lodashMerge ejsRender
                               readTemplateEntities readFileSync bufferToString
                               (templatePropsList Props World st')
                               (targetedIds Props World st') cacheTable binaryTable
  = Some (cacheTable, binaryTable).
Proof.
  intros Hq Hnil.
  rewrite (queryAll_None_props Answers Props emptyProps answersParser World templateConfig
                               fuel st st' Hq), Hnil.
  apply copy_without_props.
Qed.

Lemma no_callback_no_files_witness :
  copyTemplateFileToCacheTable LineDiff.diffLines unit unit (fun _ => tt) (fun d _ => d)
                               (fun raw _ => Some raw) exampleEntities exampleVolume
                               string_of_list_byte [] ["react"] ∅ ∅
  = Some (∅, ∅).
Proof.
  apply (no_callback_no_files LineDiff.diffLines (list string) unit unit tt answersAsLabels nat
           configById (fun _ => tt) (fun d _ => d) (fun raw _ => Some raw)
           exampleEntities exampleVolume string_of_list_byte 2
           (mkQuery unit nat ["main"; "extend:react"] [] [] 0%nat [])
           (mkQuery unit nat [] [] ["react"] 0%nat []) ∅ ∅).
  - reflexivity.
  - reflexivity.
Defined.

(** ** Generator: from the cache table to the merge table *)

Section MergeTableFacts.

Variable matcher : string -> PatternKind -> bool.

Implicit Types (ct : gmap string (list (list DiffChange))) (mt : gmap string (list MergeBlock))
               (p : string).

Lemma mergeTemplateFiles_fold (l : list (string * list (list DiffChange))) mt0 mt :
  NoDup l.*1 ->
  foldOpt (fun m entry =>
             match entry.2 with
             | [] => Some m
             | _ => (fun blocks => <[entry.1 := blocks]> m) <$> mergeEntry matcher entry.1 entry.2
             end) l mt0 = Some mt ->
  forall p,
    (p ∉ l.*1 -> mt !! p = mt0 !! p)
    /\ (forall diffs, (p, diffs) ∈ l ->
          mt !! p = match diffs with
                    | [] => mt0 !! p
                    | _ => mergeEntry matcher p diffs
                    end).
Proof.
  revert mt0. induction l as [|[q dq] l IH]; intros mt0 Hnd; cbn [foldOpt].
  - intros [= <-] p. split; [reflexivity|]. intros diffs H. now apply elem_of_nil in H.
  - rewrite fmap_cons in Hnd. cbn [fst snd] in *. apply NoDup_cons in Hnd as [Hq Hnd].
    destruct (match dq with
              | [] => Some mt0
              | _ => (fun blocks => <[q := blocks]> mt0) <$> mergeEntry matcher q dq
              end) as [m1|] eqn:E1; [|discriminate].
    intros Hfold p. destruct (IH m1 Hnd Hfold p) as [IH1 IH2].
    assert (Hm1 : forall p', p' <> q -> m1 !! p' = mt0 !! p').
    { intros p' Hne. destruct dq as [|d dq']; [now injection E1 as <-|].
      destruct (mergeEntry matcher q (d :: dq')); [|discriminate]. cbn in E1.
      injection E1 as <-. now rewrite lookup_insert_ne. }
    split.
    + rewrite fmap_cons, not_elem_of_cons. cbn [fst]. intros [Hne Hp].
      rewrite (IH1 Hp). now apply Hm1.
    + intros diffs Hin. apply elem_of_cons in Hin as [[= -> ->]|Hin].
      * destruct (IH m1 Hnd Hfold q) as [IHq _]. rewrite (IHq Hq).
        destruct dq as [|d dq']; [now injection E1 as <-|].
        destruct (mergeEntry matcher q (d :: dq')); [|discriminate]. cbn in E1.
        injection E1 as <-. now rewrite lookup_insert_eq.
      * rewrite (IH2 diffs Hin). destruct diffs; [|reflexivity]. apply Hm1.
        intros ->. apply Hq. apply list_elem_of_fmap. now exists (q, []).
Qed.

(** The entry [mergeTemplateFiles] stores for each file. *)
Lemma mergeTemplateFiles_entry ct mt0 mt p :
  mergeTemplateFiles matcher ct mt0 = Some mt ->
  mt !! p = match ct !! p with
            | Some (d :: ds) => mergeEntry matcher p (d :: ds)
            | _ => mt0 !! p
            end.
Proof.
  unfold mergeTemplateFiles. intros H.
  destruct (mergeTemplateFiles_fold (map_to_list ct) mt0 mt (NoDup_fst_map_to_list ct) H p)
    as [H1 H2].
  destruct (ct !! p) as [diffs|] eqn:E.
  - apply elem_of_map_to_list in E. rewrite (H2 diffs E). now destruct diffs.
  - apply H1. intros Hin. apply list_elem_of_fmap in Hin as ([q diffs] & -> & Hin).
    apply elem_of_map_to_list in Hin. cbn in E. congruence.
Qed.

Lemma mergeEntry_last p (diffs : list (list DiffChange)) (d : list DiffChange) :
  matcher p mergeKind = false -> last diffs = Some d ->
  Forall unmarked d ->
  mergeEntry matcher p diffs = Some (okBlocks (linesOf (map Line d))).
Proof.
  intros Hm Hl Hd. unfold mergeEntry. rewrite Hm, Hl.
  destruct (parseDiffToMergeBlocks (map Line d)) as [blocks|] eqn:E.
  - f_equal. apply parse_unconflicted; [|exact E].
    intros c Hc. apply list_elem_of_fmap in Hc as (c0 & [= <-] & Hc0).
    rewrite Forall_forall in Hd. now destruct (Hd c Hc0).
  - exfalso. apply parseFrom_None in E. apply Exists_exists in E as (s & Hs & Hbad).
    apply list_elem_of_fmap in Hs as (c & -> & Hc). cbn in Hbad.
    rewrite Forall_forall in Hd. destruct (Hd c Hc) as [Hc1 _]. destruct Hbad as (_ & ? & _).
    congruence.
Qed.

(** When no two overlays insert at the same line, the merged list of
    unmarked change lists has no conflict. *)
Lemma mergeEntry_apart p (b : list DiffChange) (ds : list (list DiffChange))
                       (blocks : list MergeBlock) :
  Forall unmarked b -> Forall (Forall unmarked) ds ->
  (forall k, countAt k ds <= 1) ->
  mergeEntry matcher p (b :: ds) = Some blocks ->
  Forall (fun blk => status blk = OK) blocks.
Proof.
  intros Hb Hds Hcount E.
  assert (Hplain : forall d, Forall unmarked d -> forall blocks',
             parseDiffToMergeBlocks (map Line d) = Some blocks' ->
             Forall (fun blk => status blk = OK) blocks').
  { intros d Hd blocks' E'. apply parse_unconflicted in E' as ->; [apply okBlocks_OK|].
    intros c Hc. apply list_elem_of_fmap in Hc as (c0 & [= <-] & Hc0).
    rewrite Forall_forall in Hd. now destruct (Hd c Hc0). }
  unfold mergeEntry in E. destruct (matcher p mergeKind).
  - destruct ds as [|d ds']; [now apply (Hplain b)|].
    apply parse_unconflicted in E as ->; [apply okBlocks_OK|].
    intros c Hc. destruct (conflicted c) eqn:Ec; [|reflexivity].
    destruct (merge_conflicted_inv b (d :: ds') c Hb Hds Hc Ec) as [_ Hn].
    specialize (Hcount (lineNumber c)). lia.
  - destruct (last (b :: ds)) as [d|] eqn:El; [|discriminate].
    apply (Hplain d); [|exact E].
    apply last_Some_elem_of in El. apply elem_of_cons in El as [->|El]; [exact Hb|].
    rewrite Forall_forall in Hds. now apply Hds.
Qed.

End MergeTableFacts.

(** X18: [mergeTemplateFiles] on an empty merge table gives an entry to the files
    of the cache table that have a change list, and to no other; the entry of
    a file is computed from the change lists of that file alone. *)
Theorem merge_table_entries (matcher : string -> PatternKind -> bool)
    (cacheTable : gmap string (list (list DiffChange)))
    (mergeTable : gmap string (list MergeBlock)) (p : string) :
  mergeTemplateFiles matcher cacheTable ∅ = Some mergeTable ->
  mergeTable !! p = match cacheTable !! p with
                    | Some (d :: ds) => mergeEntry matcher p (d :: ds)
                    | _ => None
                    end.
Proof.
  intros H. rewrite (mergeTemplateFiles_entry matcher cacheTable ∅ mergeTable p H).
  destruct (cacheTable !! p) as [[|d ds]|]; [apply lookup_empty | reflexivity | apply lookup_empty].
Qed.

Lemma merge_table_entries_witness :
  exampleMerged !! "a.txt" = match deleteFiles tmpMatcher exampleCache !! "a.txt" with
                              | Some (d :: ds) => mergeEntry tmpMatcher "a.txt" (d :: ds)
                              | _ => None
                              end.
Proof.
  apply (merge_table_entries tmpMatcher (deleteFiles tmpMatcher exampleCache) exampleMerged "a.txt").
  vm_compute. reflexivity.
Defined.

(** X19: A file outside the merge policy is overwritten: its blocks are those of
    the last change list written for it, and its text is made of the lines of
    that change list that are not removed, without any conflict. *)
Theorem last_writer_wins (matcher : string -> PatternKind -> bool)
    (cacheTable : gmap string (list (list DiffChange)))
    (mergeTable : gmap string (list MergeBlock)) (p : string)
    (diffs : list (list DiffChange)) (d : list DiffChange) :
  mergeTemplateFiles matcher cacheTable ∅ = Some mergeTable ->
  cacheTable !! p = Some diffs -> last diffs = Some d ->
  matcher p mergeKind = false -> Forall unmarked d ->
  mergeTable !! p = Some (okBlocks (linesOf (map Line d)))
  /\ parseMergeBlocksToText <$> mergeTable !! p = Some (Js.join (linesOf (map Line d))).
Proof.
  intros H Hp Hl Hm Hd.
  assert (E : mergeTable !! p = Some (okBlocks (linesOf (map Line d)))).
  { rewrite (mergeTemplateFiles_entry matcher cacheTable ∅ mergeTable p H), Hp.
    destruct diffs as [|d0 ds]; [discriminate|]. now apply mergeEntry_last. }
  split; [exact E|]. rewrite E. cbn. now rewrite toText_okBlocks.
Qed.

Lemma last_writer_wins_witness :
  exampleMerged !! "a.txt" = Some (okBlocks (linesOf (map Line [lineA; lineB])))
  /\ parseMergeBlocksToText <$> exampleMerged !! "a.txt"
     = Some (Js.join (linesOf (map Line [lineA; lineB]))).
Proof.
  apply (last_writer_wins tmpMatcher (deleteFiles tmpMatcher exampleCache) exampleMerged "a.txt"
           [[lineA; lineB]] [lineA; lineB]).
  - vm_compute. reflexivity.
  - vm_compute. reflexivity.
  - reflexivity.
  - reflexivity.
  - apply (bool_decide_unpack _). vm_compute. exact I.
Defined.

(** X20: A conflict needs two overlays that insert at the same line: when no two
    overlays of a file do, all the blocks stored for the file are [OK].  This
    is so for every file written by one or two templates. *)
Theorem apart_overlays_give_no_conflict (matcher : string -> PatternKind -> bool)
    (p : string) (b : list DiffChange) (ds : list (list DiffChange))
    (blocks : list MergeBlock) :
  Forall unmarked b -> Forall (Forall unmarked) ds ->
  (length ds <= 1)%nat \/ (forall k, countAt k ds <= 1) ->
  mergeEntry matcher p (b :: ds) = Some blocks ->
  Forall (fun blk => status blk = OK) blocks.
Proof.
  intros Hb Hds Hcount. apply (mergeEntry_apart matcher p b ds blocks Hb Hds).
  destruct Hcount as [Hlen|Hcount]; [|exact Hcount].
  intros k. destruct ds as [|o [|o' ds']]; [unfold countAt; cbn; lia| |cbn in Hlen; lia].
  rewrite countAt_one. destruct (decide _); lia.
Qed.

Lemma apart_overlays_give_no_conflict_witness :
  Forall (fun blk => status blk = OK)
         [okBlock ["A" +:+ Js.NL; "X" +:+ Js.NL; "B" +:+ Js.NL]].
Proof.
  apply (apart_overlays_give_no_conflict mergeAll "a.txt" [lineA; lineB] [overlayX]).
  - apply (bool_decide_unpack _). vm_compute. exact I.
  - apply (bool_decide_unpack _). vm_compute. exact I.
  - left. cbn. lia.
  - reflexivity.
Defined.

(** ** Generator: the conflicts and the resolver loop *)

Section ResolverFacts.

Variable World : Type.

Implicit Types (mt : gmap string (list MergeBlock)) (item : ConflictBlockMetadata)
               (st : ResolverState World)
               (solver : ConflictSolverData -> World -> ConflictSolverResult * World).

Lemma conflictsFrom_elem (p : string) (n : nat) (blocks : list MergeBlock) item :
  item ∈ conflictsFrom p n blocks
  <-> cpathname item = p
      /\ exists k blk, cindex item = (n + k)%nat /\ blocks !! k = Some blk /\ openConflict blk.
Proof.
  revert n. induction blocks as [|b blocks IH]; intros n; cbn [conflictsFrom].
  - split; [intros H; now apply elem_of_nil in H|].
    intros (_ & k & blk & _ & H & _). now rewrite lookup_nil in H.
  - rewrite elem_of_app, IH. split.
    + intros [H|(Hp & k & blk & Hk & Hb & Ho)].
      * destruct (bool_decide (status b = CONFLICT)) eqn:Es; [|now apply elem_of_nil in H].
        destruct (ignored b) eqn:Ei; [now apply elem_of_nil in H|].
        apply list_elem_of_singleton in H. subst item. cbn. split; [reflexivity|].
        exists 0%nat, b. split; [lia|]. split; [reflexivity|].
        split; [now apply bool_decide_eq_true in Es | exact Ei].
      * split; [exact Hp|]. exists (S k), blk. split; [lia | now split].
    + intros (Hp & k & blk & Hk & Hb & Hs & Hi). destruct k as [|k].
      * left. cbn in Hb. injection Hb as ->.
        rewrite bool_decide_eq_true_2, Hi by exact Hs. cbn.
        apply list_elem_of_singleton. destruct item as [q i]. cbn in *. f_equal; [exact Hp | lia].
      * right. split; [exact Hp|]. exists k, blk. split; [lia | now split].
Qed.

Lemma conflictsFrom_NoDup (p : string) (n : nat) (blocks : list MergeBlock) :
  NoDup (conflictsFrom p n blocks).
Proof.
  revert n. induction blocks as [|b blocks IH]; intros n; cbn [conflictsFrom]; [constructor|].
  apply NoDup_app. split; [|split; [|apply IH]].
  - destruct (_ && _); [apply NoDup_singleton | constructor].
  - intros item H1 H2. apply conflictsFrom_elem in H2 as (_ & k & _ & Hk & _).
    destruct (_ && _); [|now apply elem_of_nil in H1].
    apply list_elem_of_singleton in H1. subst item. cbn in Hk. lia.
Qed.

(** The work items: the places of the open conflicts, each once. *)
Lemma conflictedFileData_elem mt item :
  item ∈ getConflictedFileDataList mt
  <-> exists blk, blockAt mt item = Some blk /\ openConflict blk.
Proof.
  unfold getConflictedFileDataList, blockAt.
  rewrite list_elem_of_In, in_flat_map. split.
  - intros ([q blocks] & Hin & H). cbn [fst snd] in H.
    apply list_elem_of_In, elem_of_map_to_list in Hin.
    apply list_elem_of_In, conflictsFrom_elem in H as (Hp & k & blk & Hk & Hb & Ho).
    exists blk. rewrite Hp, Hin. cbn. rewrite Hk. now split.
  - intros (blk & H & Ho). destruct (mt !! cpathname item) as [blocks|] eqn:E; [|discriminate].
    cbn in H. exists (cpathname item, blocks).
    split; [now apply list_elem_of_In, elem_of_map_to_list|].
    cbn [fst snd]. apply list_elem_of_In, conflictsFrom_elem. split; [reflexivity|].
    exists (cindex item), blk. split; [lia | now split].
Qed.

Lemma flat_map_NoDup {A B} (f : A -> list B) (l : list A) :
  NoDup l -> (forall x, x ∈ l -> NoDup (f x)) ->
  (forall x y z, x ∈ l -> y ∈ l -> z ∈ f x -> z ∈ f y -> x = y) ->
  NoDup (flat_map f l).
Proof.
  intros Hl Hf Hdis. induction Hl as [|x l Hx Hl IH]; [constructor|].
  cbn [flat_map]. apply NoDup_app. split; [|split].
  - apply Hf. left.
  - intros z Hz1 Hz2. apply list_elem_of_In, in_flat_map in Hz2 as (y & Hy & Hz2).
    apply list_elem_of_In in Hy, Hz2.
    assert (x = y) as -> by (apply (Hdis x y z); [left | now right | exact Hz1 | exact Hz2]).
    contradiction.
  - apply IH.
    + intros y Hy. apply Hf. now right.
    + intros y1 y2 z H1 H2. apply Hdis; now right.
Qed.

Lemma conflictedFileData_NoDup mt : NoDup (getConflictedFileDataList mt).
Proof.
  unfold getConflictedFileDataList. apply flat_map_NoDup.
  - apply NoDup_map_to_list.
  - intros [q blocks] _. apply conflictsFrom_NoDup.
  - intros [q1 b1] [q2 b2] z H1 H2 Hz1 Hz2. cbn [fst snd] in *.
    apply conflictsFrom_elem in Hz1 as [E1 _]. apply conflictsFrom_elem in Hz2 as [E2 _].
    apply elem_of_map_to_list in H1, H2. subst q1 q2. rewrite H1 in H2. now injection H2 as ->.
Qed.

(** The table after the block of an item is replaced. *)
Lemma blockAt_insert mt item (blocks : list MergeBlock) (blk blk' : MergeBlock) item' :
  mt !! cpathname item = Some blocks -> blocks !! cindex item = Some blk ->
  blockAt (<[cpathname item := <[cindex item := blk']> blocks]> mt) item'
  = if decide (item' = item) then Some blk' else blockAt mt item'.
Proof.
  intros Hp Hi. unfold blockAt. apply lookup_lt_Some in Hi as Hlt.
  destruct (decide (item' = item)) as [->|Hne].
  - rewrite lookup_insert_eq. cbn. now apply list_lookup_insert_eq.
  - destruct (decide (cpathname item' = cpathname item)) as [Ep|Ep].
    + rewrite Ep, lookup_insert_eq, Hp. cbn. apply list_lookup_insert_ne.
      intros Ei. apply Hne. destruct item, item'. cbn in *. congruence.
    + now rewrite lookup_insert_ne by congruence.
Qed.

Lemma resolveStep_settles (Good : MergeBlock -> Prop) solver totalConflicts item rest mt w :
  (forall data w0, match (solver data w0).1 with
                   | Null => False
                   | Ignored => Good (setIgnored (sblock data))
                   | Solved result => Good (setOK result)
                   | Blank => Good (sblock data)
                   end) ->
  settled Good (mkResolver World (item :: rest) mt w) ->
  exists st', resolveStep World solver totalConflicts item rest mt w = Some st'
              /\ remainedConflictedFileDataList World st' = rest
              /\ settled Good st'.
Proof.
  intros Hsolver [H1 H2]. cbn [remainedConflictedFileDataList rmergeTable] in *.
  destruct (H1 item ltac:(left)) as [blk Hblk]. unfold blockAt in Hblk. unfold resolveStep.
  destruct (mt !! cpathname item) as [blocks|] eqn:Ep; [|discriminate]. cbn in Hblk.
  rewrite Hblk.
  specialize (Hsolver (solverDataOf totalConflicts item blocks blk) w).
  destruct (solver (solverDataOf totalConflicts item blocks blk) w) as [[| |result|] w'];
    cbn [fst sblock solverDataOf] in Hsolver; [contradiction| | |].
  - eexists. split; [reflexivity|]. split; [reflexivity|].
    split; cbn [remainedConflictedFileDataList rmergeTable].
    + intros item' Hin. rewrite (blockAt_insert mt item blocks blk _ item' Ep Hblk).
      destruct (decide (item' = item)); [eauto|]. apply H1. now right.
    + intros item' blk'. rewrite (blockAt_insert mt item blocks blk _ item' Ep Hblk).
      destruct (decide (item' = item)) as [->|Hne].
      * intros [= <-]. now left.
      * intros E. destruct (H2 item' blk' E) as [?|Hin]; [now left|].
        apply elem_of_cons in Hin as [?|?]; [contradiction | now right].
  - eexists. split; [reflexivity|]. split; [reflexivity|].
    split; cbn [remainedConflictedFileDataList rmergeTable].
    + intros item' Hin. rewrite (blockAt_insert mt item blocks blk _ item' Ep Hblk).
      destruct (decide (item' = item)); [eauto|]. apply H1. now right.
    + intros item' blk'. rewrite (blockAt_insert mt item blocks blk _ item' Ep Hblk).
      destruct (decide (item' = item)) as [->|Hne].
      * intros [= <-]. now left.
      * intros E. destruct (H2 item' blk' E) as [?|Hin]; [now left|].
        apply elem_of_cons in Hin as [?|?]; [contradiction | now right].
  - eexists. split; [reflexivity|]. split; [reflexivity|].
    split; cbn [remainedConflictedFileDataList rmergeTable].
    + intros item' Hin. apply H1. now right.
    + intros item' blk' E. destruct (H2 item' blk' E) as [?|Hin]; [now left|].
      apply elem_of_cons in Hin as [->|?]; [|now right].
      left. unfold blockAt in E. rewrite Ep in E. cbn in E. congruence.
Qed.

Lemma resolveLoop_settles (Good : MergeBlock -> Prop) solver totalConflicts fuel st :
  (forall data w0, match (solver data w0).1 with
                   | Null => False
                   | Ignored => Good (setIgnored (sblock data))
                   | Solved result => Good (setOK result)
                   | Blank => Good (sblock data)
                   end) ->
  settled Good st ->
  (length (remainedConflictedFileDataList World st) <= fuel)%nat ->
  exists st', resolveLoop World fuel solver totalConflicts st = Some st'
              /\ remainedConflictedFileDataList World st' = []
              /\ settled Good st'.
Proof.
  intros Hsolver. revert st. induction fuel as [|fuel IH]; intros [remained mt w] Hst Hlen;
    cbn [remainedConflictedFileDataList] in Hlen.
  - destruct remained; [|cbn in Hlen; lia]. exists (mkResolver World [] mt w). now split.
  - destruct remained as [|item rest]; [exists (mkResolver World [] mt w); now split|].
    cbn [resolveLoop remainedConflictedFileDataList rmergeTable rworld].
    destruct (resolveStep_settles Good solver totalConflicts item rest mt w Hsolver Hst)
      as (st1 & -> & Hrest & Hst1).
    apply IH; [exact Hst1|]. rewrite Hrest. cbn in Hlen. lia.
Qed.

Lemma settled_initially (Good : MergeBlock -> Prop) mt w :
  (forall item blk, blockAt mt item = Some blk -> Good blk \/ openConflict blk) ->
  settled Good (mkResolver World (getConflictedFileDataList mt) mt w).
Proof.
  intros Hgood. split; cbn [remainedConflictedFileDataList rmergeTable].
  - intros item Hin. apply conflictedFileData_elem in Hin as (blk & -> & _). eauto.
  - intros item blk E. destruct (Hgood item blk E) as [?|Ho]; [now left|].
    right. apply conflictedFileData_elem. eauto.
Qed.

Lemma blockAt_elem mt (p : string) (blocks : list MergeBlock) (blk : MergeBlock) :
  mt !! p = Some blocks -> blk ∈ blocks -> exists item, blockAt mt item = Some blk.
Proof.
  intros Hp Hin. apply list_elem_of_lookup in Hin as [i Hi].
  exists (mkConflict p i). unfold blockAt. cbn. now rewrite Hp.
Qed.

Lemma resolveStep_frames solver totalConflicts item rest mt0 mt w st' :
  framed mt0 (mkResolver World (item :: rest) mt w) ->
  resolveStep World solver totalConflicts item rest mt w = Some st' ->
  framed mt0 st'.
Proof.
  intros (H1 & H2 & H3). cbn [remainedConflictedFileDataList rmergeTable] in *.
  unfold resolveStep.
  destruct (mt !! cpathname item) as [blocks|] eqn:Ep; [|discriminate].
  destruct (blocks !! cindex item) as [blk|] eqn:Ei; [|discriminate].
  assert (Hput : forall blk',
            framed mt0 (mkResolver World rest
                          (<[cpathname item := <[cindex item := blk']> blocks]> mt) w)).
  { intros blk'. split; [|split]; cbn [remainedConflictedFileDataList rmergeTable].
    - intros item' Hin. apply H1. now right.
    - intros item' b Hb Hno. rewrite (blockAt_insert mt item blocks blk _ item' Ep Ei).
      destruct (decide (item' = item)) as [->|Hne]; [|now apply H2].
      destruct (H1 item ltac:(left)) as (b0 & Hb0 & Ho). congruence.
    - intros p. destruct (decide (p = cpathname item)) as [->|Hne].
      + rewrite lookup_insert_eq, <- H3, Ep. cbn. now rewrite length_insert.
      + rewrite lookup_insert_ne by congruence. apply H3. }
  destruct (solver _ w) as [[| |result|] w']; intros [= <-].
  - split; [|split]; assumption.
  - destruct (Hput (setIgnored blk)) as (? & ? & ?). split; [|split]; assumption.
  - destruct (Hput (setOK result)) as (? & ? & ?). split; [|split]; assumption.
  - split; [|split]; cbn [remainedConflictedFileDataList rmergeTable].
    + intros item' Hin. apply H1. now right.
    + exact H2.
    + exact H3.
Qed.

Lemma resolveLoop_frames solver totalConflicts fuel mt0 st st' :
  framed mt0 st -> resolveLoop World fuel solver totalConflicts st = Some st' -> framed mt0 st'.
Proof.
  revert st. induction fuel as [|fuel IH]; intros [remained mt w] Hst;
    cbn [resolveLoop remainedConflictedFileDataList rmergeTable rworld].
  - destruct remained; [now intros [= <-] | discriminate].
  - destruct remained as [|item rest]; [now intros [= <-]|].
    destruct (resolveStep World solver totalConflicts item rest mt w) as [st1|] eqn:E;
      [|discriminate].
    apply IH. now apply (resolveStep_frames solver totalConflicts item rest mt0 mt w).
Qed.

(** A solver that only gives empty answers leaves the table as it is. *)
Lemma resolveLoop_blank solver totalConflicts fuel st st' :
  (forall data w0, (solver data w0).1 = Blank) ->
  resolveLoop World fuel solver totalConflicts st = Some st' ->
  rmergeTable World st' = rmergeTable World st.
Proof.
  intros Hblank. revert st. induction fuel as [|fuel IH]; intros [remained mt w];
    cbn [resolveLoop remainedConflictedFileDataList rmergeTable rworld].
  - destruct remained; [now intros [= <-] | discriminate].
  - destruct remained as [|item rest]; [now intros [= <-]|].
    unfold resolveStep.
    destruct (mt !! cpathname item) as [blocks|]; [|discriminate].
    destruct (blocks !! cindex item) as [blk|]; [|discriminate].
    specialize (Hblank (solverDataOf totalConflicts item blocks blk) w).
    destruct (solver _ w) as [r w1]. cbn [fst] in Hblank. subst r.
    intros E. now apply IH in E.
Qed.

Lemma framed_initially mt w :
  framed mt (mkResolver World (getConflictedFileDataList mt) mt w).
Proof.
  split; [|split]; cbn [remainedConflictedFileDataList rmergeTable].
  - intros item Hin. now apply conflictedFileData_elem.
  - intros item blk E _. exact E.
  - reflexivity.
Qed.

End ResolverFacts.

(** X21: The work list of [resolveConflicts] names the places of the conflict
    blocks that are not ignored, each of them once. *)
Theorem conflicted_file_data (mergeTable : gmap string (list MergeBlock)) :
  NoDup (getConflictedFileDataList mergeTable)
  /\ forall item, item ∈ getConflictedFileDataList mergeTable
                  <-> exists blk, blockAt mergeTable item = Some blk /\ openConflict blk.
Proof. split; [apply conflictedFileData_NoDup | intros item; apply conflictedFileData_elem]. Qed.

(** X22: With a solver that never answers [null], [resolveConflicts] ends after
    at most one turn for each open conflict.  When the answers of the solver
    are never empty either, it leaves no open conflict; an empty answer
    leaves its conflict open, and the solver is not asked about it again. *)
Theorem resolveConflicts_closes (World : Type)
    (solver : ConflictSolverData -> World -> ConflictSolverResult * World)
    (mergeTable : gmap string (list MergeBlock)) (w : World) :
  decisive solver ->
  exists mergeTable' w',
    resolveConflicts World (Some solver) (length (getConflictedFileDataList mergeTable))
                     mergeTable w
    = Some (mergeTable', w')
    /\ (outspoken solver -> getConflictedFileDataList mergeTable' = [])
    /\ ((forall data w0, (solver data w0).1 = Blank) -> mergeTable' = mergeTable).
Proof.
  intros Hsolver. unfold resolveConflicts.
  destruct (resolveLoop_settles World (fun _ => True) solver
              (getConflictedFileDataList mergeTable)
              (length (getConflictedFileDataList mergeTable))
              (mkResolver World (getConflictedFileDataList mergeTable) mergeTable w))
    as (st' & E & Hnil & _).
  - intros data w0. specialize (Hsolver data w0).
    destruct (solver data w0) as [[| |result|] w1]; cbn [fst] in *; [congruence|exact I..].
  - apply settled_initially. intros item blk _. now left.
  - reflexivity.
  - exists (rmergeTable World st'), (rworld World st'). rewrite E.
    split; [reflexivity|]. split.
    + intros Hout.
      destruct (resolveLoop_settles World (fun blk => ~ openConflict blk) solver
                  (getConflictedFileDataList mergeTable)
                  (length (getConflictedFileDataList mergeTable))
                  (mkResolver World (getConflictedFileDataList mergeTable) mergeTable w))
        as (st2 & E2 & _ & _ & Hgood).
      * intros data w0. specialize (Hsolver data w0). specialize (Hout data w0).
        destruct (solver data w0) as [[| |result|] w1]; cbn [fst] in *;
          [congruence | intros [_ ?]; discriminate | intros [? _]; discriminate | congruence].
      * apply settled_initially. intros item blk _.
        destruct (decide (openConflict blk)); [now right | now left].
      * reflexivity.
      * rewrite E in E2. injection E2 as <-.
        destruct (getConflictedFileDataList (rmergeTable World st')) as [|item l] eqn:E3;
          [reflexivity|].
        assert (Hin : item ∈ getConflictedFileDataList (rmergeTable World st'))
          by (rewrite E3; left).
        apply conflictedFileData_elem in Hin as (blk & Hblk & Ho).
        destruct (Hgood item blk Hblk) as [Hno|Hin]; [contradiction|].
        rewrite Hnil in Hin. now apply elem_of_nil in Hin.
    + intros Hblank. now apply (resolveLoop_blank World solver _ _ _ _ Hblank E).
Qed.

Lemma resolveConflicts_closes_witness :
  exists mergeTable' w',
    resolveConflicts unit (Some ignoringSolver) (length (getConflictedFileDataList exampleTable))
                     exampleTable tt
    = Some (mergeTable', w')
    /\ (outspoken ignoringSolver -> getConflictedFileDataList mergeTable' = [])
    /\ ((forall data w0, (ignoringSolver data w0).1 = Blank) -> mergeTable' = exampleTable).
Proof.
  apply (resolveConflicts_closes unit ignoringSolver exampleTable tt).
  intros data w. discriminate.
Defined.

(** An empty answer, run: the loop ends, the conflict is still open, and the
    file is still reported. *)
Example blank_answer_leaves_the_conflict :
  resolveConflicts unit (Some blankSolver) 1 exampleTable tt = Some (exampleTable, tt)
  /\ getConflictedFileDataList exampleTable = [mkConflict "a.txt" 1]
  /\ conflicts (getResult exampleTable ∅) = ["a.txt"].
Proof. repeat split; vm_compute; reflexivity. Qed.

(** X23: When no block of the merge table is ignored and the solver answers every
    conflict with a block, [resolveConflicts] ends with [OK] blocks only, and
    the result reports no conflict. *)
Theorem solved_conflicts_clear_report (World : Type)
    (solver : ConflictSolverData -> World -> ConflictSolverResult * World)
    (mergeTable : gmap string (list MergeBlock)) (binaryTable : gmap string Buffer) (w : World) :
  solving solver ->
  (forall p blocks, mergeTable !! p = Some blocks ->
                    Forall (fun blk => ignored blk = false) blocks) ->
  exists mergeTable' w',
    resolveConflicts World (Some solver) (length (getConflictedFileDataList mergeTable))
                     mergeTable w
    = Some (mergeTable', w')
    /\ (forall p blocks, mergeTable' !! p = Some blocks ->
                         Forall (fun blk => status blk = OK) blocks)
    /\ conflicts (getResult mergeTable' binaryTable) = [].
Proof.
  intros Hsolver Hfresh. unfold resolveConflicts.
  destruct (resolveLoop_settles World (fun blk => status blk = OK) solver
              (getConflictedFileDataList mergeTable)
              (length (getConflictedFileDataList mergeTable))
              (mkResolver World (getConflictedFileDataList mergeTable) mergeTable w))
    as (st' & -> & Hnil & _ & Hgood).
  - intros data w0. destruct (Hsolver data w0) as [result E]. now rewrite E.
  - apply settled_initially. intros item blk E. unfold blockAt in E.
    destruct (mergeTable !! cpathname item) as [blocks|] eqn:Ep; [|discriminate]. cbn in E.
    specialize (Hfresh _ _ Ep). rewrite Forall_forall in Hfresh.
    specialize (Hfresh blk ltac:(now apply list_elem_of_lookup_2 in E)).
    destruct (status blk) eqn:Es; [now left | right; now split].
  - reflexivity.
  - exists (rmergeTable World st'), (rworld World st'). split; [reflexivity|].
    assert (Hok : forall p blocks, rmergeTable World st' !! p = Some blocks ->
                                   Forall (fun blk => status blk = OK) blocks).
    { intros p blocks Hp. apply Forall_forall. intros blk Hblk.
      destruct (blockAt_elem _ p blocks blk Hp Hblk) as [item Hitem].
      destruct (Hgood item blk Hitem) as [?|Hin]; [assumption|].
      rewrite Hnil in Hin. now apply elem_of_nil in Hin. }
    split; [exact Hok|]. cbn [conflicts getResult].
    destruct (getIgnoredConflictedFilePathnameList (rmergeTable World st')) as [|p l] eqn:E;
      [reflexivity|].
    assert (Hin : p ∈ getIgnoredConflictedFilePathnameList (rmergeTable World st'))
      by (rewrite E; left).
    apply conflict_pathnames in Hin as (blocks & blk & Hp & Hblk & Hs).
    specialize (Hok p blocks Hp). rewrite Forall_forall in Hok.
    specialize (Hok blk Hblk). congruence.
Qed.

Lemma solved_conflicts_clear_report_witness :
  exists mergeTable' w',
    resolveConflicts unit (Some keepCurrent) (length (getConflictedFileDataList exampleTable))
                     exampleTable tt
    = Some (mergeTable', w')
    /\ (forall p blocks, mergeTable' !! p = Some blocks ->
                         Forall (fun blk => status blk = OK) blocks)
    /\ conflicts (getResult mergeTable' ∅) = [].
Proof.
  apply (solved_conflicts_clear_report unit keepCurrent exampleTable ∅ tt).
  - intros data w. eexists. reflexivity.
  - intros p blocks Hp. unfold exampleTable in Hp.
    apply lookup_singleton_Some in Hp as [_ <-]. repeat constructor.
Defined.

(** X24: Whatever the solver answers, [resolveConflicts] changes open conflicts
    only: a block that is [OK] or ignored stays as it is, and every file keeps
    its number of blocks. *)
Theorem resolveConflicts_frame (World : Type)
    (conflictsSolver : option (ConflictSolverData -> World -> ConflictSolverResult * World))
    (fuel : nat) (mergeTable mergeTable' : gmap string (list MergeBlock)) (w w' : World) :
  resolveConflicts World conflictsSolver fuel mergeTable w = Some (mergeTable', w') ->
  (forall item blk, blockAt mergeTable item = Some blk -> ~ openConflict blk ->
                    blockAt mergeTable' item = Some blk)
  /\ (forall p, length <$> mergeTable' !! p = length <$> mergeTable !! p).
Proof.
  unfold resolveConflicts. destruct conflictsSolver as [solver|].
  - destruct (resolveLoop World fuel solver _ _) as [st'|] eqn:E; [|discriminate].
    cbn. intros [= <- _].
    apply (resolveLoop_frames World solver _ fuel mergeTable) in E as (_ & H2 & H3);
      [now split | apply framed_initially].
  - intros [= <- _]. now split.
Qed.

Lemma resolveConflicts_frame_witness :
  (forall item blk, blockAt exampleTable item = Some blk -> ~ openConflict blk ->
                    blockAt (<["a.txt" := <[1%nat := setIgnored (conflictBlock ["X" +:+ Js.NL;
                                                                                "Y" +:+ Js.NL])]>
                                            exampleBlocks]> exampleTable) item
                    = Some blk)
  /\ (forall p, length <$> (<["a.txt" := <[1%nat := setIgnored (conflictBlock ["X" +:+ Js.NL;
                                                                                "Y" +:+ Js.NL])]>
                                            exampleBlocks]> exampleTable) !! p
                = length <$> exampleTable !! p).
Proof.
  apply (resolveConflicts_frame unit (Some ignoringSolver) 1 exampleTable _ tt tt).
  reflexivity.
Defined.

(** ** Generator: the cleanups *)

Section CleanupFacts.

Variable diffLines : string -> string -> list Change.

Implicit Types (mt : gmap string (list MergeBlock)) (bt : gmap string Buffer) (p : string)
               (tables : ClonedTables).

(** The cloned tables keep the file [p] as it is. *)
Lemma applyOp_keeps tables tables' (op : CleanupOp) p :
  ~ deletesFile p op -> applyOp diffLines tables op = Some tables' ->
  (forall blocks, clonedMergeTable tables !! p = Some (Some blocks) ->
                  clonedMergeTable tables' !! p = Some (Some blocks))
  /\ (forall buf, clonedBinaryTable tables !! p = Some (Some buf) ->
                  clonedBinaryTable tables' !! p = Some (Some buf)).
Proof.
  intros Hop. destruct op as [q txt|q buf|qs]; cbn [applyOp deletesFile] in *.
  - destruct (clonedMergeTable tables !! q) as [[blocks0|]|] eqn:E.
    + now intros [= <-].
    + destruct (parseFileTextToMergeBlocks diffLines txt); [|discriminate]. cbn.
      intros [= <-]. cbn. split; [|auto]. intros blocks Hp.
      rewrite lookup_insert_ne; [exact Hp | congruence].
    + destruct (parseFileTextToMergeBlocks diffLines txt); [|discriminate]. cbn.
      intros [= <-]. cbn. split; [|auto]. intros blocks Hp.
      rewrite lookup_insert_ne; [exact Hp | congruence].
  - destruct (clonedBinaryTable tables !! q) as [[buf0|]|] eqn:E.
    + now intros [= <-].
    + intros [= <-]. cbn. split; [auto|]. intros b Hp.
      rewrite lookup_insert_ne; [exact Hp | congruence].
    + intros [= <-]. cbn. split; [auto|]. intros b Hp.
      rewrite lookup_insert_ne; [exact Hp | congruence].
  - intros [= <-]. revert tables. induction qs as [|q qs IH]; intros tables; [now split|].
    cbn [fold_left]. apply not_elem_of_cons in Hop as [Hne Hop].
    destruct (IH Hop (mkCloned (<[q := None]> (clonedMergeTable tables))
                               (<[q := None]> (clonedBinaryTable tables)))) as [IH1 IH2].
    cbn in IH1, IH2. split.
    + intros blocks Hp. apply IH1. now rewrite lookup_insert_ne by congruence.
    + intros buf Hp. apply IH2. now rewrite lookup_insert_ne by congruence.
Qed.

(** The cloned tables after [deleteFiles(pathnameList)]. *)
Lemma deleteFiles_tables (pathnameList : list string) tables p :
  let tables' := fold_left (fun t pathname =>
                              mkCloned (<[pathname := None]> (clonedMergeTable t))
                                       (<[pathname := None]> (clonedBinaryTable t)))
                           pathnameList tables in
  clonedMergeTable tables' !! p
  = (if decide (p ∈ pathnameList) then Some None else clonedMergeTable tables !! p)
  /\ clonedBinaryTable tables' !! p
     = (if decide (p ∈ pathnameList) then Some None else clonedBinaryTable tables !! p).
Proof.
  cbn zeta. revert tables. induction pathnameList as [|q qs IH]; intros tables.
  - cbn [fold_left]. rewrite decide_False by apply not_elem_of_nil. now split.
  - cbn [fold_left]. destruct (IH (mkCloned (<[q := None]> (clonedMergeTable tables))
                                            (<[q := None]> (clonedBinaryTable tables))))
      as [-> ->]. cbn [clonedMergeTable clonedBinaryTable].
    destruct (decide (p ∈ qs)) as [Hin|Hnin].
    + assert (H : p ∈ q :: qs) by now right.
      destruct (decide (p ∈ q :: qs)); [now split | contradiction].
    + destruct (decide (p = q)) as [->|Hne].
      * assert (H : q ∈ q :: qs) by left.
        destruct (decide (q ∈ q :: qs)); [|contradiction].
        rewrite !lookup_insert_eq. now split.
      * assert (H : p ∉ q :: qs) by (rewrite not_elem_of_cons; now split).
        destruct (decide (p ∈ q :: qs)); [contradiction|].
        rewrite !lookup_insert_ne by congruence. now split.
Qed.

End CleanupFacts.

(** X25: A file of the merge table or of the binary table that no cleanup deletes
    is still there after the cleanups, unchanged: [addFile] and
    [addBinaryFile] never overwrite. *)
Theorem cleanups_keep_what_they_do_not_delete (diffLines : string -> string -> list Change)
    (templateConfig : TemplateConfig) (targetedExtendTemplateIds : list string)
    (mergeTable mergeTable' : gmap string (list MergeBlock))
    (binaryTable binaryTable' : gmap string Buffer) (p : string) :
  runCleanups diffLines templateConfig targetedExtendTemplateIds mergeTable binaryTable
  = Some (mergeTable', binaryTable') ->
  (forall cleanup api ops,
     cleanup ∈ cleanupsOf templateConfig targetedExtendTemplateIds ->
     cleanup api = Some ops -> Forall (fun op => ~ deletesFile p op) ops) ->
  (forall blocks, mergeTable !! p = Some blocks -> mergeTable' !! p = Some blocks)
  /\ (forall buf, binaryTable !! p = Some buf -> binaryTable' !! p = Some buf).
Proof.
  unfold runCleanups. set (api := mkApi _ _ _). intros E Hclean.
  destruct (foldOpt _ _ _) as [tables|] eqn:Ef; [|discriminate].
  cbn in E. injection E as <- <-.
  set (kept := fun t : ClonedTables =>
         (forall blocks, mergeTable !! p = Some blocks ->
                         clonedMergeTable t !! p = Some (Some blocks))
         /\ (forall buf, binaryTable !! p = Some buf ->
                         clonedBinaryTable t !! p = Some (Some buf))).
  assert (Hkept : kept tables).
  { apply (foldOpt_inv kept _ _ _ _) in Ef; [exact Ef| |].
    - split; cbn; intros x Hx; now rewrite lookup_fmap, Hx.
    - intros t cleanup t' Hin Ht. destruct (cleanup api) as [ops|] eqn:Eo; [|discriminate].
      specialize (Hclean cleanup api ops Hin Eo). intros Hf.
      apply (foldOpt_inv kept (applyOp diffLines) ops t t' Ht); [|exact Hf].
      intros t0 op t1 Hop [K1 K2] Hstep.
      rewrite Forall_forall in Hclean.
      destruct (applyOp_keeps diffLines t0 t1 op p (Hclean op Hop) Hstep) as [A1 A2].
      split; [intros blocks Hb; now apply A1, K1 | intros buf Hb; now apply A2, K2]. }
  destruct Hkept as [K1 K2]. split.
  - intros blocks Hb. rewrite lookup_omap, (K1 blocks Hb). reflexivity.
  - intros buf Hb. rewrite lookup_omap, (K2 buf Hb). reflexivity.
Qed.

Lemma cleanups_keep_what_they_do_not_delete_witness :
  (forall blocks, tableWithTmp !! "y.tmp" = Some blocks -> tableWithTmp !! "y.tmp" = Some blocks)
  /\ (forall buf, (∅ : gmap string Buffer) !! "y.tmp" = Some buf
                  -> (∅ : gmap string Buffer) !! "y.tmp" = Some buf).
Proof.
  apply (cleanups_keep_what_they_do_not_delete LineDiff.diffLines configWithCleanup []
           tableWithTmp tableWithTmp ∅ ∅ "y.tmp").
  - vm_compute. reflexivity.
  - intros cleanup api ops Hin E. apply list_elem_of_singleton in Hin. subst cleanup.
    injection E as <-. repeat constructor. now intros [].
Defined.

(** X26: A cleanup that calls [deleteFiles] once removes the pathnames it names
    from the merge table and from the binary table, and nothing else. *)
Theorem cleanup_deleteFiles (diffLines : string -> string -> list Change)
    (templateConfig : TemplateConfig) (targetedExtendTemplateIds : list string)
    (cleanup : TemplateCleanUpFunction) (pathnameList : list string)
    (mergeTable : gmap string (list MergeBlock)) (binaryTable : gmap string Buffer) :
  cleanupsOf templateConfig targetedExtendTemplateIds = [cleanup] ->
  (forall api, cleanup api = Some [DeleteFiles pathnameList]) ->
  runCleanups diffLines templateConfig targetedExtendTemplateIds mergeTable binaryTable
  = Some (filter (fun entry => entry.1 ∉ pathnameList) mergeTable,
          filter (fun entry => entry.1 ∉ pathnameList) binaryTable).
Proof.
  intros Hc Hops. unfold runCleanups. rewrite Hc. cbn [foldOpt].
  rewrite Hops. cbn [foldOpt applyOp fmap option_fmap option_map].
  f_equal. f_equal.
  - apply map_eq. intros p. rewrite lookup_omap.
    destruct (deleteFiles_tables pathnameList
                (mkCloned (Some <$> mergeTable) (Some <$> binaryTable)) p) as [-> _].
    cbn [clonedMergeTable]. rewrite lookup_fmap.
    destruct (decide (p ∈ pathnameList)) as [Hin|Hnin]; cbn.
    + symmetry. apply map_lookup_filter_None. right. intros x _ Hx. now apply Hx.
    + destruct (mergeTable !! p) as [x|] eqn:E; cbn; symmetry.
      * now apply map_lookup_filter_Some.
      * apply map_lookup_filter_None. now left.
  - apply map_eq. intros p. rewrite lookup_omap.
    destruct (deleteFiles_tables pathnameList
                (mkCloned (Some <$> mergeTable) (Some <$> binaryTable)) p) as [_ ->].
    cbn [clonedBinaryTable]. rewrite lookup_fmap.
    destruct (decide (p ∈ pathnameList)) as [Hin|Hnin]; cbn.
    + symmetry. apply map_lookup_filter_None. right. intros x _ Hx. now apply Hx.
    + destruct (binaryTable !! p) as [x|] eqn:E; cbn; symmetry.
      * now apply map_lookup_filter_Some.
      * apply map_lookup_filter_None. now left.
Qed.

Lemma cleanup_deleteFiles_witness :
  runCleanups LineDiff.diffLines configDeleting [] exampleMerged {[ "a.txt" := [Byte.x00] ]}
  = Some (filter (fun entry => entry.1 ∉ ["a.txt"]) exampleMerged,
          filter (fun entry => entry.1 ∉ ["a.txt"])
                 ({[ "a.txt" := [Byte.x00] ]} : gmap string Buffer)).
Proof.
  apply (cleanup_deleteFiles LineDiff.diffLines configDeleting []
           (fun _ => Some [DeleteFiles ["a.txt"]]) ["a.txt"]).
  - reflexivity.
  - reflexivity.
Defined.

(** ** Generator: the result *)

(** X27: The report of the result names each file once, and every file it names
    is a text file of the result, emitted with its conflict fences. *)
Theorem reported_conflicts_are_files (mergeTable : gmap string (list MergeBlock))
                                     (binaryTable : gmap string Buffer) :
  NoDup (conflicts (getResult mergeTable binaryTable))
  /\ Forall (fun p => exists blocks,
               mergeTable !! p = Some blocks
               /\ files (getResult mergeTable binaryTable) !! p
                  = Some (Text (parseMergeBlocksToText blocks)))
            (conflicts (getResult mergeTable binaryTable)).
Proof.
  split; [apply uniq_NoDup|]. apply Forall_forall. intros p Hp.
  apply conflict_pathnames in Hp as (blocks & _ & Hb & _).
  exists blocks. split; [exact Hb|]. now rewrite getResult_files, Hb.
Qed.

(** ** What never throws *)

Section Totality.

Lemma parse_unmarked (d : list DiffChange) :
  Forall unmarked d ->
  parseDiffToMergeBlocks (map Line d) = Some (okBlocks (linesOf (map Line d))).
Proof.
  intros Hd. unfold parseDiffToMergeBlocks.
  rewrite parseFrom_calm, appendRun_okBlocks; [reflexivity|].
  apply Forall_fmap. eapply Forall_impl; [exact Hd|]. intros c [Hc _]. now right.
Qed.

Lemma diff_unmarked (diffLines : string -> string -> list Change) (a : string) (b : option string) :
  Forall unmarked (diff diffLines a b).
Proof. apply numberLines_unmarked. Qed.

Lemma foldOpt_total {A B} (f : A -> B -> option A) (l : list B) (a : A) :
  (forall a0 x, x ∈ l -> is_Some (f a0 x)) -> is_Some (foldOpt f l a).
Proof.
  revert a. induction l as [|x l IH]; intros a H; cbn [foldOpt]; [eauto|].
  destruct (H a x ltac:(left)) as [a1 ->]. apply IH. intros a0 y Hy. apply H. now right.
Qed.

Lemma applyOp_total (diffLines : string -> string -> list Change)
                    (tables : ClonedTables) (op : CleanupOp) :
  is_Some (applyOp diffLines tables op).
Proof.
  destruct op as [q txt|q buf|qs]; cbn [applyOp].
  - unfold parseFileTextToMergeBlocks. rewrite (parse_unmarked _ (diff_unmarked _ _ _)).
    destruct (clonedMergeTable tables !! q) as [[?|]|]; cbn; eauto.
  - destruct (clonedBinaryTable tables !! q) as [[?|]|]; eauto.
  - eauto.
Qed.

(** The working array of in-range overlays has no hole. *)
Lemma sameLine_no_hole (od : list Slot) (b : list DiffChange) :
  Forall2 sameLine od b -> Forall (fun s => exists c, s = Line c) od.
Proof.
  induction 1 as [|s c od b Hs _ IH]; constructor; [|exact IH].
  destruct Hs as [->| ->]; cbn; eauto.
Qed.

End Totality.

(** X28: The blocks of a file text: it is read without error, as no block or as
    one [OK] block that holds the lines of its self-diff. *)
Theorem file_text_blocks (diffLines : string -> string -> list Change) (content : string) :
  parseFileTextToMergeBlocks diffLines content
  = Some (okBlocks (linesOf (map Line (diff diffLines content None))))
  /\ parseMergeBlocksToText <$> parseFileTextToMergeBlocks diffLines content
     = Some (Js.join (linesOf (map Line (diff diffLines content None)))).
Proof.
  assert (E : parseFileTextToMergeBlocks diffLines content
              = Some (okBlocks (linesOf (map Line (diff diffLines content None)))))
    by (apply parse_unmarked, diff_unmarked).
  split; [exact E|]. rewrite E. cbn. now rewrite toText_okBlocks.
Qed.

(** X29: [runCleanups] throws only when a cleanup throws: the calls a cleanup
    makes on the tables never fail. *)
Theorem cleanups_throw_only_themselves (diffLines : string -> string -> list Change)
    (templateConfig : TemplateConfig) (targetedExtendTemplateIds : list string)
    (mergeTable : gmap string (list MergeBlock)) (binaryTable : gmap string Buffer) :
  (forall cleanup api, cleanup ∈ cleanupsOf templateConfig targetedExtendTemplateIds ->
                       is_Some (cleanup api)) ->
  is_Some (runCleanups diffLines templateConfig targetedExtendTemplateIds mergeTable binaryTable).
Proof.
  intros Hclean. unfold runCleanups. set (api := mkApi _ _ _).
  destruct (foldOpt_total
              (fun tables cleanup =>
                 match cleanup api with
                 | Some ops => foldOpt (applyOp diffLines) ops tables
                 | None => None
                 end)
              (cleanupsOf templateConfig targetedExtendTemplateIds)
              (mkCloned (Some <$> mergeTable) (Some <$> binaryTable))) as [tables ->].
  - intros t cleanup Hin. destruct (Hclean cleanup api Hin) as [ops ->].
    apply foldOpt_total. intros t0 op _. apply applyOp_total.
  - cbn. eauto.
Qed.

Lemma cleanups_throw_only_themselves_witness :
  is_Some (runCleanups LineDiff.diffLines configWithCleanup [] tableWithTmp ∅).
Proof.
  apply (cleanups_throw_only_themselves LineDiff.diffLines configWithCleanup [] tableWithTmp ∅).
  intros cleanup api Hin. apply list_elem_of_singleton in Hin. subst cleanup. cbn. eauto.
Defined.

(** X30: Merging and reading never throw when the baseline has no conflict mark
    and the overlays, unmarked too, remove lines of the baseline only. *)
Theorem merge_is_read_without_error (b : list DiffChange) (ds : list (list DiffChange)) :
  Z.of_nat (length b) <= 2 ^ 32 - 1 ->
  Forall unmarked b -> Forall (Forall (overlayChange b)) ds ->
  is_Some (parseDiffToMergeBlocks (merge (Some b) (Some ds))).
Proof.
  intros Hlen Hb Hds.
  destruct (parseDiffToMergeBlocks (merge (Some b) (Some ds))) as [blocks|] eqn:E; [eauto|].
  exfalso. apply parseFrom_None in E. apply Exists_exists in E as (s & Hs & Hbad).
  destruct s as [c| |]; cbn in Hbad; [| |contradiction].
  - destruct Hbad as (_ & Hc & Hg).
    apply merge_elem in Hs as [(c0 & H0 & Hsame)|(c0 & H0 & Ec)].
    + apply sameLine_fields in Hsame as (_ & _ & _ & Ec & _).
      rewrite Forall_forall in Hb. destruct (Hb c0 H0) as [Hc0 _]. congruence.
    + destruct (1 <? countAt (lineNumber c0) ds); subst c; [discriminate|].
      apply changesAt_elem in H0 as (_ & _ & d & Hd & Hcd).
      rewrite Forall_forall in Hds. specialize (Hds d Hd).
      rewrite Forall_forall in Hds. destruct (Hds c0 Hcd) as [Hc0 _]. congruence.
  - destruct ds as [|d ds'].
    + cbn [merge] in Hs. apply list_elem_of_fmap in Hs as (c & [=] & _).
    + rewrite merge_cons in Hs. unfold merged in Hs.
      apply assemble_elem in Hs as [Hs|(k & p & c & _ & _ & [=])].
      pose proof (patched_sameLine b (d :: ds') Hlen Hds) as Hsame.
      apply sameLine_no_hole in Hsame. rewrite Forall_forall in Hsame.
      destruct (Hsame Hole Hs) as [c [=]].
Qed.

Lemma merge_is_read_without_error_witness :
  is_Some (parseDiffToMergeBlocks (merge (Some [lineA; lineB]) (Some [overlayX; overlayY]))).
Proof.
  apply (merge_is_read_without_error [lineA; lineB] [overlayX; overlayY]).
  - vm_compute. discriminate.
  - apply (bool_decide_unpack _). vm_compute. exact I.
  - apply (bool_decide_unpack _). vm_compute. exact I.
Defined.
